(** * Broadcast orchestration of the WhatsApp messaging cockpit

    A shallow embedding of the broadcast composer
    ([components/BroadcastComposer.tsx]) and of the page-level state and
    effects ([app/page.tsx]): message personalisation, audience
    resolution, launch, the status aggregation effect and the dispatch
    effect, followed by the properties of the specification that concern
    them; then the handlers of the page for contacts and templates with
    the forms that call them ([components/ContactManager.tsx],
    [components/TemplateManager.tsx]) and the grouping of the delivery
    feed ([components/DeliveryTimeline.tsx]).

    Conventions.
    - A JavaScript string is a [string]: a sequence of code units, each
      below 256 ([ascii]).  White space, [trim], [toLowerCase] and the
      case-insensitive matching of the regular expressions are the
      ECMAScript ones restricted to that range.
    - An array is a [list]; [undefined]/[null] is [None].  A [Map] and
      the own properties of an object are lists of entries in the order
      of insertion; [Array.prototype.sort] is stable.
    - An ISO time stamp is the number of milliseconds it denotes ([Z]);
      [new Date(iso).getTime()] is then the identity.  [scheduledFor] is
      [null] or a string that [toISOString] produced, never the empty
      string, so it is truthy exactly when it is not [null].
    - [nanoid()], [new Date()], [Date.now()] and [Math.random()] are inputs
      of the operation that calls them.
    - React is the step relation [Page.step]: the operator edits the form
      or submits it, a commit runs the effects whose dependency
      [deliveries] is a new array (cleanup of the previous run first), an
      armed timeout fires.  [nanoid] is taken to hand out identifiers it
      has not handed out before.
    - The local storage ([hooks/usePersistentState.ts]) holds, for each of
      the two collections, the value of some earlier render or nothing:
      a write may fail and is then skipped, an item may be lost, and a
      reload reads each item on its own, falling back to the empty list.
      [JSON.parse] gives back what [JSON.stringify] was given.  The
      states of the page, reloads included, are [Page.reachable]. *)

From Stdlib Require Import List String Ascii Bool Arith ZArith Lia.
Import ListNotations.

Local Open Scope string_scope.

(* ================================================================== *)
(** * JavaScript strings *)
(* ================================================================== *)

Module JsString.

(** [WhiteSpace] and [LineTerminator] code units below 256: TAB, LF, VT,
    FF, CR, SP and NBSP.  This is what [\s] matches and what [trim]
    strips. *)
Definition isWhiteSpace (c : ascii) : bool :=
  let n := nat_of_ascii c in
  (((9 <=? n) && (n <=? 13)) || (n =? 32) || (n =? 160))%nat.

(** [toLowerCase] on one code unit: A-Z and the Latin-1 capitals
    (U+00C0-U+00DE without the multiplication sign) move up by 32. *)
Definition toLowerChar (c : ascii) : ascii :=
  let n := nat_of_ascii c in
  if (((65 <=? n) && (n <=? 90))
      || ((192 <=? n) && (n <=? 222) && negb (n =? 215)))%nat
  then ascii_of_nat (n + 32) else c.

Fixpoint toLowerCase (s : string) : string :=
  match s with
  | EmptyString => EmptyString
  | String c s' => String (toLowerChar c) (toLowerCase s')
  end.

(** [s.startsWith(p)]. *)
Fixpoint startsWith (p s : string) : bool :=
  match p, s with
  | EmptyString, _ => true
  | String a p', String b s' => Ascii.eqb a b && startsWith p' s'
  | String _ _, EmptyString => false
  end.

(** [s.includes(p)]. *)
Fixpoint includes (p s : string) : bool :=
  startsWith p s ||
  match s with
  | EmptyString => false
  | String _ s' => includes p s'
  end.

Fixpoint trimStart (s : string) : string :=
  match s with
  | EmptyString => EmptyString
  | String c s' => if isWhiteSpace c then trimStart s' else s
  end.

(** Drops the white space at the end: a character is kept when it is not
    white space or when something is kept after it. *)
Fixpoint trimEnd (s : string) : string :=
  match s with
  | EmptyString => EmptyString
  | String c s' =>
      match trimEnd s' with
      | EmptyString => if isWhiteSpace c then EmptyString
                       else String c EmptyString
      | t => String c t
      end
  end.

Definition trim (s : string) : string := trimEnd (trimStart s).

(** [s.split(sep)] for a separator of one character: never empty. *)
Fixpoint split (sep : ascii) (s : string) : list string :=
  match s with
  | EmptyString => [EmptyString]
  | String c s' =>
      if Ascii.eqb c sep then EmptyString :: split sep s'
      else match split sep s' with
           | [] => [String c EmptyString]
           | w :: ws => String c w :: ws
           end
  end.

(** Truthiness of a string: the empty string is falsy. *)
Definition truthy (s : string) : bool :=
  match s with EmptyString => false | _ => true end.

(** Truthiness of [string | null]. *)
Definition truthyOpt (o : option string) : bool :=
  match o with Some s => truthy s | None => false end.

Fixpoint drop (n : nat) (s : string) : string :=
  match n, s with
  | O, _ => s
  | S _, EmptyString => EmptyString
  | S k, String _ s' => drop k s'
  end.

Fixpoint take (n : nat) (s : string) : string :=
  match n, s with
  | O, _ => EmptyString
  | S _, EmptyString => EmptyString
  | S k, String c s' => String c (take k s')
  end.

(** The character [c] occurs in [s]. *)
Fixpoint hasChar (c : ascii) (s : string) : bool :=
  match s with
  | EmptyString => false
  | String a s' => Ascii.eqb a c || hasChar c s'
  end.

(** All the white space of [s] is made of spaces. *)
Fixpoint spacesOnly (s : string) : bool :=
  match s with
  | EmptyString => true
  | String c s' =>
      (negb (isWhiteSpace c) || Ascii.eqb c " ") && spacesOnly s'
  end.

Fixpoint allWhiteSpace (s : string) : bool :=
  match s with
  | EmptyString => true
  | String c s' => isWhiteSpace c && allWhiteSpace s'
  end.

End JsString.

(* ================================================================== *)
(** * [String.prototype.replace] with the placeholder patterns *)
(* ================================================================== *)

Module Replace.
Import JsString.

(** The greedy [\s*]: what follows it in the patterns (a letter or a
    closing brace) is never white space, so no backtracking arises. *)
Fixpoint skipWhiteSpace (s : string) : string :=
  match s with
  | String c s' => if isWhiteSpace c then skipWhiteSpace s' else s
  | EmptyString => EmptyString
  end.

(** The literal [name] under the [i] flag: a code unit matches a letter
    of the pattern when both have the same lower case. *)
Fixpoint matchNameCI (name s : string) : option string :=
  match name, s with
  | EmptyString, _ => Some s
  | String a name', String b s' =>
      if Ascii.eqb (toLowerChar a) (toLowerChar b)
      then matchNameCI name' s' else None
  | String _ _, EmptyString => None
  end.

Definition matchBraces (open : bool) (s : string) : option string :=
  let b := if open then "{"%char else "}"%char in
  match s with
  | String c1 (String c2 s') =>
      if Ascii.eqb c1 b && Ascii.eqb c2 b then Some s' else None
  | _ => None
  end.

(** [/{{\s*name\s*}}/i] anchored at the start of [s]: the text that
    follows the match, if there is one. *)
Definition matchTokenRest (name s : string) : option string :=
  match matchBraces true s with
  | None => None
  | Some s1 =>
      match matchNameCI name (skipWhiteSpace s1) with
      | None => None
      | Some s2 => matchBraces false (skipWhiteSpace s2)
      end
  end.

(** Length of the match at the start of [s]. *)
Definition matchToken (name s : string) : option nat :=
  match matchTokenRest name s with
  | Some rest => Some (String.length s - String.length rest)
  | None => None
  end.

(** [GetSubstitution] for a pattern without capture groups: [$$] is a
    dollar sign, [$&] the matched text, [$`] the text before the match
    and [$'] the text after it; every other [$] stands for itself. *)
Fixpoint getSubstitution (matched before after repl : string) : string :=
  match repl with
  | EmptyString => EmptyString
  | String c tl =>
      if Ascii.eqb c "$" then
        match tl with
        | String d rest =>
            if Ascii.eqb d "$" then
              String "$" (getSubstitution matched before after rest)
            else if Ascii.eqb d "&" then
              matched ++ getSubstitution matched before after rest
            else if Ascii.eqb d "`" then
              before ++ getSubstitution matched before after rest
            else if Ascii.eqb d "'" then
              after ++ getSubstitution matched before after rest
            else String c (getSubstitution matched before after tl)
        | EmptyString => String c EmptyString
        end
      else String c (getSubstitution matched before after tl)
  end.

(** The scan of a global replace.  [before] is the part of the subject
    already passed; [skip] counts the characters of the current match
    that are still to be passed over. *)
Fixpoint replaceFrom (name repl before : string) (skip : nat) (s : string)
  : string :=
  match s with
  | EmptyString => EmptyString
  | String c s' =>
      match skip with
      | S k => replaceFrom name repl (before ++ String c EmptyString) k s'
      | O =>
          match matchToken name s with
          | Some n =>
              getSubstitution (take n s) before (drop n s) repl
              ++ replaceFrom name repl (before ++ String c EmptyString)
                   (Nat.pred n) s'
          | None =>
              String c
                (replaceFrom name repl (before ++ String c EmptyString) 0 s')
          end
      end
  end.

(** [s.replace(/{{\s*name\s*}}/gi, repl)]. *)
Definition replaceAll (name repl s : string) : string :=
  replaceFrom name repl EmptyString 0 s.

End Replace.

(* ================================================================== *)
(** * Data model *)
(* ================================================================== *)

(** Modelled from the spec: the type declarations of [lib/types]
    ([Contact], [MessageTemplate], [Broadcast], [DeliveryLogEntry]), which
    the components import.  The fields are the ones the components read
    and write; the two status enumerations are those of the data model of
    the specification, and the components compare with no other value. *)
Inductive DeliveryStatus := Pending | Sending | Delivered | Failed.

(** Modelled from the spec: the [status] of a [Broadcast] in [lib/types]:
    [scheduled], [in_progress], [completed], [failed]. *)
Inductive BroadcastStatus :=
  BScheduled | BInProgress | BCompleted | BFailed.

Record Contact := mkContact {
  contact_id : string;
  contact_name : string;
  contact_phone : string;
  contact_tags : list string;
  contact_notes : option string;
  contact_optIn : bool;
  contact_createdAt : Z
}.

Record MessageTemplate := mkTemplate {
  template_id : string;
  template_name : string;
  template_body : string;
  template_createdAt : Z
}.

Inductive Target :=
| TargetTag (tag : option string)
| TargetContacts (contactIds : list string).

Record Broadcast := mkBroadcast {
  b_id : string;
  b_label : string;
  b_templateId : string;
  b_target : Target;
  b_scheduledFor : option Z;
  b_createdAt : Z;
  b_status : BroadcastStatus;
  b_totalRecipients : nat;
  b_delivered : nat;
  b_failed : nat
}.

Record DeliveryLogEntry := mkEntry {
  e_id : string;
  e_broadcastId : string;
  e_contactId : string;
  e_contactName : string;
  e_phone : string;
  e_scheduledFor : option Z;
  e_status : DeliveryStatus;
  e_preview : string;
  e_startedAt : option Z;
  e_completedAt : option Z;
  e_error : option string
}.

Definition DeliveryStatus_eqb (a b : DeliveryStatus) : bool :=
  match a, b with
  | Pending, Pending | Sending, Sending
  | Delivered, Delivered | Failed, Failed => true
  | _, _ => false
  end.

Definition BroadcastStatus_eqb (a b : BroadcastStatus) : bool :=
  match a, b with
  | BScheduled, BScheduled | BInProgress, BInProgress
  | BCompleted, BCompleted | BFailed, BFailed => true
  | _, _ => false
  end.

(** [a ?? b]. *)
Definition nullish {A} (a : option A) (b : A) : A :=
  match a with Some x => x | None => b end.

(* ================================================================== *)
(** * The composer: personalisation, audience, launch *)
(* ================================================================== *)

Module Composer.
Import JsString Replace.

(** The placeholders [personaliseMessage] knows, in the order of its
    [replace] calls. *)
Inductive Token := FirstName | FullName | Company | Notes | Tag | Phone.

Definition allTokens : list Token :=
  [FirstName; FullName; Company; Notes; Tag; Phone].

(** The name between the braces of each pattern. *)
Definition tokenName (k : Token) : string :=
  match k with
  | FirstName => "firstName"
  | FullName => "fullName"
  | Company => "company"
  | Notes => "notes"
  | Tag => "tag"
  | Phone => "phone"
  end.

(** [const [firstName, ...rest] = contact.name.trim().split(" ")],
    then [firstName ?? contact.name]. *)
Definition firstNameOf (contact : Contact) : string :=
  nullish (hd_error (split " " (trim (contact_name contact))))
          (contact_name contact).

Definition companyOf (contact : Contact) : string :=
  nullish
    (match find (fun tag => includes "company" (toLowerCase tag))
                (contact_tags contact) with
     | Some t => Some t
     | None => hd_error (contact_tags contact)
     end)
    "your team".

(** The second argument of each [replace] call. *)
Definition valueOf (contact : Contact) (k : Token) : string :=
  match k with
  | FirstName => firstNameOf contact
  | FullName => contact_name contact
  | Company => companyOf contact
  | Notes => nullish (contact_notes contact) ""
  | Tag => nullish (hd_error (contact_tags contact)) ""
  | Phone => contact_phone contact
  end.

Definition replaceToken (contact : Contact) (k : Token) (s : string)
  : string :=
  replaceAll (tokenName k) (valueOf contact k) s.

Definition personaliseMessage (template : string) (contact : Contact)
  : string :=
  replaceToken contact Phone
    (replaceToken contact Tag
      (replaceToken contact Notes
        (replaceToken contact Company
          (replaceToken contact FullName
            (replaceToken contact FirstName template))))).

(** A recognised placeholder starts somewhere in [s]. *)
Fixpoint matchesAnywhere (name s : string) : bool :=
  match matchToken name s with
  | Some _ => true
  | None =>
      match s with
      | EmptyString => false
      | String _ s' => matchesAnywhere name s'
      end
  end.

Definition hasToken (s : string) : bool :=
  existsb (fun k => matchesAnywhere (tokenName k) s) allTokens.

Inductive AudienceMode := ModeAll | ModeTag.

(** The props and the local state of the composer that [handleSubmit]
    reads: the form as the operator has filled it. *)
Record Form := mkForm {
  contacts : list Contact;
  templates : list MessageTemplate;
  selectedTemplateId : option string;
  message : string;
  broadcastLabel : string;
  scheduledFor : option Z;
  audienceTag : option string;
  audienceMode : AudienceMode;
  acknowledgedCompliance : bool
}.

Definition selectedTemplate (f : Form) : option MessageTemplate :=
  match selectedTemplateId f with
  | None => None
  | Some id =>
      find (fun template => String.eqb (template_id template) id)
           (templates f)
  end.

Definition optedInContacts (f : Form) : list Contact :=
  filter (fun contact => contact_optIn contact) (contacts f).

Definition hasTag (audienceTag : string) (contact : Contact) : bool :=
  existsb (fun tag => String.eqb (toLowerCase tag) (toLowerCase audienceTag))
          (contact_tags contact).

Definition filteredContacts (f : Form) : list Contact :=
  match audienceMode f, audienceTag f with
  | ModeTag, Some tag =>
      if truthy tag then filter (hasTag tag) (optedInContacts f)
      else optedInContacts f
  | _, _ => optedInContacts f
  end.

Definition previewMessage (f : Form) : string :=
  match filteredContacts f with
  | [] => ""
  | first :: _ =>
      if truthy (trim (message f)) then personaliseMessage (message f) first
      else ""
  end.

(** The [disabled] attribute of the submit button. *)
Definition submitDisabled (isProcessing : bool) (f : Form) : bool :=
  isProcessing
  || (List.length (filteredContacts f) =? 0)%nat
  || (String.length (trim (message f)) =? 0)%nat
  || (String.length (trim (broadcastLabel f)) =? 0)%nat
  || negb (acknowledgedCompliance f)
  || (match audienceMode f with
      | ModeTag => negb (truthyOpt (audienceTag f))
      | ModeAll => false
      end).

(** [xs.map((x, index) => f index x)], the index counted from [i]. *)
Fixpoint mapIndexed {A B} (f : nat -> A -> B) (i : nat) (xs : list A)
  : list B :=
  match xs with
  | [] => []
  | x :: xs' => f i x :: mapIndexed f (S i) xs'
  end.

(** The delivery built for the recipient at position [index]; [nanoid]
    lists the identifiers in the order of the calls, the first one
    having gone to the broadcast. *)
Definition mkDelivery (nanoid : nat -> string) (broadcast : Broadcast)
    (f : Form) (index : nat) (contact : Contact) : DeliveryLogEntry :=
  {| e_id := nanoid (S index);
     e_broadcastId := b_id broadcast;
     e_contactId := contact_id contact;
     e_contactName := contact_name contact;
     e_phone := contact_phone contact;
     e_scheduledFor := scheduledFor f;
     e_status := Pending;
     e_preview := personaliseMessage (message f) contact;
     e_startedAt := None;
     e_completedAt := None;
     e_error := None |}.

(** [handleSubmit] up to the call of [onLaunchBroadcast]: [None] when a
    guard returns early, else the two arguments of the call. *)
Definition buildLaunch (isoNow : Z) (nanoid : nat -> string) (f : Form)
  : option (Broadcast * list DeliveryLogEntry) :=
  if negb (truthy (trim (broadcastLabel f))) then None
  else if negb (truthy (trim (message f))) then None
  else if negb (acknowledgedCompliance f) then None
  else if (List.length (filteredContacts f) =? 0)%nat then None
  else
    let broadcast :=
      {| b_id := nanoid 0%nat;
         b_label := trim (broadcastLabel f);
         b_templateId :=
           nullish (option_map template_id (selectedTemplate f)) "custom";
         b_target :=
           match audienceMode f with
           | ModeTag => TargetTag (audienceTag f)
           | ModeAll =>
               TargetContacts (map contact_id (filteredContacts f))
           end;
         b_scheduledFor := scheduledFor f;
         b_createdAt := isoNow;
         b_status :=
           match scheduledFor f with
           | Some _ => BScheduled
           | None => BInProgress
           end;
         b_totalRecipients := List.length (filteredContacts f);
         b_delivered := 0;
         b_failed := 0 |} in
    let deliveries :=
      mapIndexed (mkDelivery nanoid broadcast f) 0 (filteredContacts f) in
    Some (broadcast, deliveries).

End Composer.

(* ================================================================== *)
(** * The page: stores, launch, aggregation and dispatch effects *)
(* ================================================================== *)

Module Page.
Import JsString Composer.

(** The two persistent collections and what the dispatch effect keeps
    between its runs: the busy flag [processingRef.current], the timeout
    that is armed (identifier of the delivery it will complete and the
    outcome drawn when it was armed), whether the last run of the effect
    returned a cleanup function, and whether [deliveries] is a new array
    since the effects last ran (their dependency changed). *)
Record Store := mkStore {
  broadcasts : list Broadcast;
  deliveries : list DeliveryLogEntry;
  processingRef : bool;
  timeout : option (string * bool);
  cleanup : bool;
  stale : bool
}.

Definition App : Type := Form * Store.

(** First mount with nothing persisted: the effects are still to run. *)
Definition initialStore : Store :=
  {| broadcasts := []; deliveries := []; processingRef := false;
     timeout := None; cleanup := false; stale := true |}.

Definition handleLaunchBroadcast (broadcast : Broadcast)
    (deliveryEntries : list DeliveryLogEntry) (a : App) : App :=
  let (f, st) := a in
  ({| Composer.contacts := Composer.contacts f;
      templates := templates f;
      selectedTemplateId := selectedTemplateId f;
      message := "";
      broadcastLabel := "Follow-up broadcast";
      scheduledFor := None;
      audienceTag := audienceTag f;
      audienceMode := audienceMode f;
      acknowledgedCompliance := acknowledgedCompliance f |},
   {| broadcasts := broadcast :: broadcasts st;
      deliveries := deliveries st ++ deliveryEntries;
      processingRef := processingRef st;
      timeout := timeout st;
      cleanup := cleanup st;
      stale := true |}).

Definition setAcknowledgedCompliance (v : bool) (a : App) : App :=
  let (f, st) := a in
  ({| Composer.contacts := Composer.contacts f;
      templates := templates f;
      selectedTemplateId := selectedTemplateId f;
      message := message f;
      broadcastLabel := broadcastLabel f;
      scheduledFor := scheduledFor f;
      audienceTag := audienceTag f;
      audienceMode := audienceMode f;
      acknowledgedCompliance := v |}, st).

(** The submit handler of the composer, wired to the page. *)
Definition handleSubmit (isoNow : Z) (nanoid : nat -> string) (a : App)
  : App :=
  match buildLaunch isoNow nanoid (fst a) with
  | None => a
  | Some (broadcast, entries) =>
      setAcknowledgedCompliance false
        (handleLaunchBroadcast broadcast entries a)
  end.

(** What a delivery keeps of the contact it was built for. *)
Definition snapshot (e : DeliveryLogEntry)
  : string * string * string * string :=
  (e_contactId e, e_contactName e, e_phone e, e_preview e).

Definition snapshotOf (body : string) (c : Contact)
  : string * string * string * string :=
  (contact_id c, contact_name c, contact_phone c,
   personaliseMessage body c).

(** ** Status aggregation *)

Definition relatedEntries (deliveries : list DeliveryLogEntry)
    (broadcast : Broadcast) : list DeliveryLogEntry :=
  filter (fun entry => String.eqb (e_broadcastId entry) (b_id broadcast))
         deliveries.

Definition hasStatus (s : DeliveryStatus) (entry : DeliveryLogEntry) : bool :=
  DeliveryStatus_eqb (e_status entry) s.

Definition countStatus (s : DeliveryStatus) (l : list DeliveryLogEntry) : nat :=
  List.length (filter (hasStatus s) l).

Definition inFlight (l : list DeliveryLogEntry) : bool :=
  existsb (fun entry => hasStatus Pending entry || hasStatus Sending entry) l.

(** The status the effect computes for a broadcast that has entries. *)
Definition nextStatus (related : list DeliveryLogEntry)
    (broadcast : Broadcast) : BroadcastStatus :=
  let delivered := countStatus Delivered related in
  let failed := countStatus Failed related in
  if (failed =? List.length related)%nat && (delivered =? 0)%nat then BFailed
  else if inFlight related then BInProgress
  else if (List.length related <=? delivered + failed)%nat then BCompleted
  else match b_scheduledFor broadcast with
       | Some _ => BScheduled
       | None => b_status broadcast
       end.

(** The function mapped over [broadcasts] by the aggregation effect. *)
Definition aggregate (deliveries : list DeliveryLogEntry)
    (broadcast : Broadcast) : Broadcast :=
  let related := relatedEntries deliveries broadcast in
  match related with
  | [] => broadcast
  | _ :: _ =>
      let delivered := countStatus Delivered related in
      let failed := countStatus Failed related in
      let status := nextStatus related broadcast in
      if BroadcastStatus_eqb status (b_status broadcast)
         && (delivered =? b_delivered broadcast)%nat
         && (failed =? b_failed broadcast)%nat
      then broadcast
      else {| b_id := b_id broadcast;
              b_label := b_label broadcast;
              b_templateId := b_templateId broadcast;
              b_target := b_target broadcast;
              b_scheduledFor := b_scheduledFor broadcast;
              b_createdAt := b_createdAt broadcast;
              b_status := status;
              b_totalRecipients := b_totalRecipients broadcast;
              b_delivered := delivered;
              b_failed := failed |}
  end.

Definition aggregationEffect (st : Store) : Store :=
  {| broadcasts := map (aggregate (deliveries st)) (broadcasts st);
     deliveries := deliveries st;
     processingRef := processingRef st;
     timeout := timeout st;
     cleanup := cleanup st;
     stale := stale st |}.

(** ** Dispatch *)

Definition eligible (now : Z) (entry : DeliveryLogEntry) : bool :=
  hasStatus Pending entry
  && match e_scheduledFor entry with
     | None => true
     | Some t => (t <=? now + 500)%Z
     end.

Definition withStatus (entry : DeliveryLogEntry) (s : DeliveryStatus)
    (startedAt completedAt : option Z) (error : option string)
  : DeliveryLogEntry :=
  {| e_id := e_id entry;
     e_broadcastId := e_broadcastId entry;
     e_contactId := e_contactId entry;
     e_contactName := e_contactName entry;
     e_phone := e_phone entry;
     e_scheduledFor := e_scheduledFor entry;
     e_status := s;
     e_preview := e_preview entry;
     e_startedAt := startedAt;
     e_completedAt := completedAt;
     e_error := error |}.

Definition markSending (id : string) (startIso : Z)
    (entry : DeliveryLogEntry) : DeliveryLogEntry :=
  if String.eqb (e_id entry) id
  then withStatus entry Sending (Some startIso) (e_completedAt entry)
                  (e_error entry)
  else entry.

Definition markDone (id : string) (shouldFail : bool) (completedAt : Z)
    (entry : DeliveryLogEntry) : DeliveryLogEntry :=
  if String.eqb (e_id entry) id
  then withStatus entry (if shouldFail then Failed else Delivered)
         (e_startedAt entry) (Some completedAt)
         (if shouldFail
          then Some "WhatsApp API returned a temporary error. Retry later."
          else None)
  else entry.

(** The cleanup function the dispatch effect returns. *)
Definition dispatchCleanup (st : Store) : Store :=
  {| broadcasts := broadcasts st;
     deliveries := deliveries st;
     processingRef := false;
     timeout := None;
     cleanup := false;
     stale := stale st |}.

(** The body of the dispatch effect.  The two early returns hand no
    cleanup to React. *)
Definition dispatchEffect (now startIso : Z) (shouldFail : bool)
    (st : Store) : Store :=
  if processingRef st then st
  else
    match find (eligible now) (deliveries st) with
    | None => st
    | Some next =>
        {| broadcasts := broadcasts st;
           deliveries := map (markSending (e_id next) startIso)
                             (deliveries st);
           processingRef := true;
           timeout := Some (e_id next, shouldFail);
           cleanup := true;
           stale := true |}
    end.

(** The callback of the timeout. *)
Definition timeoutFires (completedAt : Z) (st : Store) : Store :=
  match timeout st with
  | None => st
  | Some (id, shouldFail) =>
      {| broadcasts := broadcasts st;
         deliveries := map (markDone id shouldFail completedAt)
                           (deliveries st);
         processingRef := false;
         timeout := None;
         cleanup := cleanup st;
         stale := true |}
  end.

(** One commit after [deliveries] changed: React first runs the cleanup
    the dispatch effect returned at its previous run, if it returned
    one, then the effects in the order of their declaration, both on the
    [deliveries] of this render; the update the dispatch effect queues
    makes the next render. *)
Definition runEffects (now startIso : Z) (shouldFail : bool) (st : Store)
  : Store :=
  let st0 :=
    {| broadcasts := broadcasts st; deliveries := deliveries st;
       processingRef := processingRef st; timeout := timeout st;
       cleanup := cleanup st; stale := false |} in
  let st1 := if cleanup st0 then dispatchCleanup st0 else st0 in
  dispatchEffect now startIso shouldFail (aggregationEffect st1).

Definition isProcessing (st : Store) : bool :=
  existsb (hasStatus Sending) (deliveries st).

(** ** What the page can do *)

(** Identifiers [nanoid] has not handed out before: the one of the new
    broadcast is new to both collections, those of the [k] new
    deliveries are new and pairwise different. *)
Definition freshIds (nanoid : nat -> string) (k : nat) (st : Store) : Prop :=
  ~ In (nanoid 0%nat) (map b_id (broadcasts st)) /\
  ~ In (nanoid 0%nat) (map e_broadcastId (deliveries st)) /\
  NoDup (map nanoid (seq 1 k)) /\
  (forall i, (1 <= i <= k)%nat ->
             ~ In (nanoid i) (map e_id (deliveries st))).

(** What happens while the page is loaded. *)
Inductive step : App -> App -> Prop :=
| step_edit f f' st :
    (* the operator edits the form, the contacts or the templates *)
    step (f, st) (f', st)
| step_submit isoNow nanoid a :
    freshIds nanoid (List.length (filteredContacts (fst a))) (snd a) ->
    step a (handleSubmit isoNow nanoid a)
| step_effects now startIso shouldFail f st :
    stale st = true ->
    step (f, st) (f, runEffects now startIso shouldFail st)
| step_timeout completedAt f st id shouldFail :
    timeout st = Some (id, shouldFail) ->
    step (f, st) (f, timeoutFires completedAt st).

(** ** Local storage and reloading *)

(** The items [wm.broadcasts] and [wm.deliveries] of the local storage,
    each as the value it parses to; [None] is an item that is missing or
    that does not parse. *)
Record Disk := mkDisk {
  storedBroadcasts : option (list Broadcast);
  storedDeliveries : option (list DeliveryLogEntry)
}.

Definition emptyDisk : Disk :=
  {| storedBroadcasts := None; storedDeliveries := None |}.

(** [getInitialValue] of [usePersistentState]: the stored value, or the
    initial value when the item is missing or does not parse. *)
Definition getInitialValue {T} (stored : option T) (initialValue : T) : T :=
  match stored with
  | Some value => value
  | None => initialValue
  end.

(** The effect of [usePersistentState] for the two collections:
    [setItem] stores the value of the render, or throws, which the hook
    swallows, and leaves the item as it was. *)
Definition persist (storesBroadcasts storesDeliveries : bool) (st : Store)
    (disk : Disk) : Disk :=
  {| storedBroadcasts :=
       if storesBroadcasts then Some (broadcasts st)
       else storedBroadcasts disk;
     storedDeliveries :=
       if storesDeliveries then Some (deliveries st)
       else storedDeliveries disk |}.

(** Items are removed from the storage, or spoiled. *)
Definition forget (losesBroadcasts losesDeliveries : bool) (disk : Disk)
  : Disk :=
  {| storedBroadcasts :=
       if losesBroadcasts then None else storedBroadcasts disk;
     storedDeliveries :=
       if losesDeliveries then None else storedDeliveries disk |}.

(** The page is loaded again: each collection comes back from its own
    item, or is the empty list the hook falls back to; the busy flag and
    the timeout are gone, the effects are still to run. *)
Definition remount (disk : Disk) : Store :=
  {| broadcasts := getInitialValue (storedBroadcasts disk) [];
     deliveries := getInitialValue (storedDeliveries disk) [];
     processingRef := false; timeout := None; cleanup := false;
     stale := true |}.

(** The page with its storage, from the first visit on: the steps of the
    page; the writes of the hook, each of which may fail, so that an item
    may hold the value of any earlier render; the loss of items; and the
    reload, which ends with the commit of the mount, where the effects
    run on what was read. *)
Inductive running : App -> Disk -> Prop :=
| run_init f : running (f, initialStore) emptyDisk
| run_step a a' disk : running a disk -> step a a' -> running a' disk
| run_persist a disk storesBroadcasts storesDeliveries :
    running a disk ->
    running a (persist storesBroadcasts storesDeliveries (snd a) disk)
| run_forget a disk losesBroadcasts losesDeliveries :
    running a disk ->
    running a (forget losesBroadcasts losesDeliveries disk)
| run_reload a disk f' now startIso shouldFail :
    running a disk ->
    running (f', runEffects now startIso shouldFail (remount disk)) disk.

Definition reachable (a : App) : Prop := exists disk, running a disk.

End Page.

(* ================================================================== *)
(** * The specification's wording *)
(* ================================================================== *)

Module Spec.
Import JsString Page.

(** The precedence of the status aggregator as the specification words
    it, over the tasks of one broadcast; [total] is the number the
    terminal tasks are compared with in the third rule. *)
Definition aggregatedStatus (total : nat) (tasks : list DeliveryLogEntry)
    (broadcast : Broadcast) : BroadcastStatus :=
  let isTask s := fun task => DeliveryStatus_eqb (e_status task) s in
  let delivered := List.length (filter (isTask Delivered) tasks) in
  let failed := List.length (filter (isTask Failed) tasks) in
  if forallb (isTask Failed) tasks
     && negb (Nat.eqb (List.length tasks) 0)
     && Nat.eqb delivered 0
  then BFailed
  else if existsb (fun task => isTask Pending task || isTask Sending task)
                  tasks
  then BInProgress
  else if Nat.leb total (delivered + failed) then BCompleted
  else match b_scheduledFor broadcast with
       | Some _ => BScheduled
       | None => b_status broadcast
       end.

(** [l1] is [l2] with some elements left out, the others in their
    order. *)
Inductive Subsequence {A} : list A -> list A -> Prop :=
| sub_nil : Subsequence [] []
| sub_keep x l1 l2 : Subsequence l1 l2 -> Subsequence (x :: l1) (x :: l2)
| sub_drop x l1 l2 : Subsequence l1 l2 -> Subsequence l1 (x :: l2).

(** The first whitespace-delimited segment of a name. *)
Fixpoint untilWhiteSpace (s : string) : string :=
  match s with
  | EmptyString => EmptyString
  | String c s' =>
      if isWhiteSpace c then EmptyString else String c (untilWhiteSpace s')
  end.

Definition firstSegment (name : string) : string :=
  untilWhiteSpace (trimStart name).

End Spec.

(* ================================================================== *)
(** * Templates written as text and placeholders *)
(* ================================================================== *)

Module Template.
Import JsString Replace Composer.

(** A piece of a template: text, or a placeholder as it is written, with
    the white space inside its braces. *)
Inductive Segment :=
| Text (s : string)
| Placeholder (k : Token) (written before after : string).

Definition segmentText (seg : Segment) : string :=
  match seg with
  | Text s => s
  | Placeholder _ written before after =>
      "{{" ++ before ++ written ++ after ++ "}}"
  end.

Fixpoint templateText (segs : list Segment) : string :=
  match segs with
  | [] => EmptyString
  | seg :: segs' => segmentText seg ++ templateText segs'
  end.

(** Text is any text; a placeholder is one of the six names in any
    letter case, with white space only around it. *)
Definition wellFormed (seg : Segment) : bool :=
  match seg with
  | Text _ => true
  | Placeholder k written before after =>
      String.eqb (toLowerCase written) (toLowerCase (tokenName k))
      && allWhiteSpace before && allWhiteSpace after
  end.

(** A replacement that does not refer to the match or to the text around
    it: read as [replace] reads it, a [$$] being one sign, it has no
    [$&], no [$`] and no [$']. *)
Fixpoint contextFree (repl : string) : bool :=
  match repl with
  | EmptyString => true
  | String c tl =>
      if Ascii.eqb c "$" then
        match tl with
        | String d rest =>
            if Ascii.eqb d "$" then contextFree rest
            else if Ascii.eqb d "&" || Ascii.eqb d "`" || Ascii.eqb d "'"
            then false
            else contextFree tl
        | EmptyString => true
        end
      else contextFree tl
  end.

(** What [replace] inserts for such a replacement: the replacement with
    every [$$] turned into one dollar sign. *)
Definition insertedText (repl : string) : string :=
  getSubstitution "" "" "" repl.

(** A replacement that [replace] inserts as it is: no dollar sign is
    followed by [$], [&], [`] or [']. *)
Fixpoint verbatim (v : string) : bool :=
  match v with
  | EmptyString => true
  | String c tl =>
      negb (Ascii.eqb c "$"
            && match tl with
               | String d _ =>
                   Ascii.eqb d "$" || Ascii.eqb d "&" || Ascii.eqb d "`"
                   || Ascii.eqb d "'"
               | EmptyString => false
               end)
      && verbatim tl
  end.

Definition Token_eqb (a b : Token) : bool :=
  match a, b with
  | FirstName, FirstName | FullName, FullName | Company, Company
  | Notes, Notes | Tag, Tag | Phone, Phone => true
  | _, _ => false
  end.

(** What one [replace] call does to a piece: the placeholders of its
    token become the value, as text. *)
Definition substitute (k : Token) (v : string) (seg : Segment) : Segment :=
  match seg with
  | Text _ => seg
  | Placeholder k' _ _ _ => if Token_eqb k k' then Text v else seg
  end.

(** A placeholder of token [k] stands in the template. *)
Definition occurs (k : Token) (segs : list Segment) : bool :=
  existsb (fun seg => match seg with
                      | Text _ => false
                      | Placeholder k' _ _ _ => Token_eqb k k'
                      end) segs.

(** The six calls in a row, each inserting what [replace] makes of its
    value. *)
Definition substituteAll (contact : Contact) (seg : Segment) : Segment :=
  substitute Phone (insertedText (valueOf contact Phone))
    (substitute Tag (insertedText (valueOf contact Tag))
      (substitute Notes (insertedText (valueOf contact Notes))
        (substitute Company (insertedText (valueOf contact Company))
          (substitute FullName (insertedText (valueOf contact FullName))
            (substitute FirstName
               (insertedText (valueOf contact FirstName)) seg))))).

(** No match of the pattern starts inside [a] when [rest] follows. *)
Fixpoint noMatchIn (name a rest : string) : Prop :=
  match a with
  | EmptyString => True
  | String _ a' =>
      matchToken name (a ++ rest) = None /\ noMatchIn name a' rest
  end.

Definition renderSegment (contact : Contact) (seg : Segment) : string :=
  match seg with
  | Text s => s
  | Placeholder k _ _ _ => valueOf contact k
  end.

(** The template with each placeholder replaced by the value of the
    contact, all at once. *)
Fixpoint rendered (contact : Contact) (segs : list Segment) : string :=
  match segs with
  | [] => EmptyString
  | seg :: segs' => renderSegment contact seg ++ rendered contact segs'
  end.

Definition expandSegment (contact : Contact) (seg : Segment) : string :=
  match seg with
  | Text s => s
  | Placeholder k _ _ _ => insertedText (valueOf contact k)
  end.

(** The same with every [$$] of a value turned into one dollar sign. *)
Fixpoint expanded (contact : Contact) (segs : list Segment) : string :=
  match segs with
  | [] => EmptyString
  | seg :: segs' => expandSegment contact seg ++ expanded contact segs'
  end.

End Template.

(* ================================================================== *)
(** * What every reachable store satisfies *)
(* ================================================================== *)

Module Invariant.
Import Page.

Definition terminal (e : DeliveryLogEntry) : Prop :=
  e_status e = Delivered \/ e_status e = Failed.

(** The deliveries of a broadcast are all there or all missing. *)
Definition whole (ds : list DeliveryLogEntry) (b : Broadcast) : Prop :=
  List.length (relatedEntries ds b) = 0%nat
  \/ List.length (relatedEntries ds b) = b_totalRecipients b.

Record Inv (st : Store) : Prop := mkInv {
  (* deliveries have identifiers of their own *)
  inv_ids : NoDup (map e_id (deliveries st));
  (* a broadcast has as many deliveries as it records recipients, unless
     a reload has lost them all *)
  inv_total : forall b, In b (broadcasts st) -> whole (deliveries st) b;
  inv_counts : forall b, In b (broadcasts st) ->
    (b_delivered b + b_failed b <= b_totalRecipients b)%nat;
  inv_completed : forall b, In b (broadcasts st) ->
    b_status b = BCompleted ->
    forall e, In e (relatedEntries (deliveries st) b) -> terminal e;
  inv_failed : forall b, In b (broadcasts st) ->
    b_status b = BFailed ->
    b_delivered b = 0%nat /\ b_failed b = b_totalRecipients b
}.

(** What holds of the collections as a reload reads them, before the
    effects have run. *)
Record Restored (st : Store) : Prop := mkRestored {
  rs_ids : NoDup (map e_id (deliveries st));
  rs_total : forall b, In b (broadcasts st) -> whole (deliveries st) b;
  rs_counts : forall b, In b (broadcasts st) ->
    (b_delivered b + b_failed b <= b_totalRecipients b)%nat;
  rs_failed : forall b, In b (broadcasts st) ->
    b_status b = BFailed ->
    b_delivered b = 0%nat /\ b_failed b = b_totalRecipients b
}.

(** What holds of the storage beside a store: the identifiers it holds
    are known to the store, and whichever way the stored and the current
    collections are put together, the deliveries of a broadcast are all
    there or all missing. *)
Record Stored (st : Store) (disk : Disk) : Prop := mkStored {
  sd_broadcastIds : forall bs, storedBroadcasts disk = Some bs ->
    incl (map b_id bs) (map b_id (broadcasts st));
  sd_deliveryIds : forall ds, storedDeliveries disk = Some ds ->
    incl (map e_broadcastId ds) (map e_broadcastId (deliveries st));
  sd_ids : forall ds, storedDeliveries disk = Some ds ->
    NoDup (map e_id ds);
  sd_counts : forall bs, storedBroadcasts disk = Some bs ->
    forall b, In b bs ->
      (b_delivered b + b_failed b <= b_totalRecipients b)%nat
      /\ (b_status b = BFailed ->
          b_delivered b = 0%nat /\ b_failed b = b_totalRecipients b);
  sd_both : forall bs ds,
    storedBroadcasts disk = Some bs -> storedDeliveries disk = Some ds ->
    forall b, In b bs -> whole ds b;
  sd_broadcasts : forall bs, storedBroadcasts disk = Some bs ->
    forall b, In b bs -> whole (deliveries st) b;
  sd_deliveries : forall ds, storedDeliveries disk = Some ds ->
    forall b, In b (broadcasts st) -> whole ds b
}.

End Invariant.

(* ================================================================== *)
(** * The life of a delivery *)
(* ================================================================== *)

Module Lifecycle.
Import Composer Page.

(** Any number of steps of the page. *)
Inductive steps : App -> App -> Prop :=
| steps_refl a : steps a a
| steps_step a a' a'' : steps a a' -> step a' a'' -> steps a a''.

(** What the page never rewrites in a delivery: everything but its
    status, its two time stamps and its error. *)
Definition fixedPart (e : DeliveryLogEntry)
  : string * string * string * string * string * option Z * string :=
  (e_id e, e_broadcastId e, e_contactId e, e_contactName e, e_phone e,
   e_scheduledFor e, e_preview e).

(** The moves of one step: a delivery stays as it is, goes from pending
    to sending, or from sending to delivered or failed. *)
Definition moves (s s' : DeliveryStatus) : Prop :=
  s' = s \/ (s = Pending /\ s' = Sending)
  \/ (s = Sending /\ (s' = Delivered \/ s' = Failed)).

(** The same over several steps. *)
Definition advances (s s' : DeliveryStatus) : Prop :=
  s' = s \/ s = Pending \/ (s = Sending /\ (s' = Delivered \/ s' = Failed)).

(** The armed timeout is the one of delivery [id]. *)
Definition targets (st : Store) (id : string) : Prop :=
  exists shouldFail, timeout st = Some (id, shouldFail).

(** What holds of the busy flag and of the timeout in every reachable
    store: the flag is up and the timeout armed only while a cleanup is
    registered, and an armed timeout belongs to a delivery that is
    sending. *)
Record Engine (st : Store) : Prop := mkEngine {
  eng_flag : processingRef st = true -> cleanup st = true;
  eng_armed : timeout st <> None -> cleanup st = true;
  eng_timeout : forall id shouldFail,
    timeout st = Some (id, shouldFail) ->
    exists e, In e (deliveries st) /\ e_id e = id /\ e_status e = Sending
}.

(** [existingBroadcasts.reduce((count, broadcast) =>
    count + broadcast.totalRecipients, 0)] of the composer. *)
Definition totalDeliveriesScheduled (existingBroadcasts : list Broadcast)
  : nat :=
  fold_left (fun count broadcast => (count + b_totalRecipients broadcast)%nat)
            existingBroadcasts 0%nat.

(** The [scheduledDeliveries] of the page, counted in its header; [now]
    is the clock of the page, read every fifteen seconds. *)
Definition scheduledDeliveries (now : Z) (deliveries : list DeliveryLogEntry)
  : list DeliveryLogEntry :=
  filter (fun entry =>
            hasStatus Pending entry
            && match e_scheduledFor entry with
               | None => false
               | Some t => (now <? t)%Z
               end)
         deliveries.

(** The effect of the composer that fills an empty message with the body
    of the selected template. *)
Definition templateEffect (f : Form) : Form :=
  match selectedTemplate f with
  | Some template =>
      if (String.length (message f) =? 0)%nat
      then {| Composer.contacts := Composer.contacts f;
              templates := templates f;
              selectedTemplateId := selectedTemplateId f;
              message := template_body template;
              broadcastLabel := broadcastLabel f;
              scheduledFor := scheduledFor f;
              audienceTag := audienceTag f;
              audienceMode := audienceMode f;
              acknowledgedCompliance := acknowledgedCompliance f |}
      else f
  | None => f
  end.

End Lifecycle.

(* ================================================================== *)
(** * [Map] with string keys *)
(* ================================================================== *)

Module JsMap.

(** The entries in the order of insertion: [set] on a key that is there
    replaces its value where it stands, [set] on a new key puts the entry
    last, [get] reads the value. *)
Fixpoint mapSet {V} (key : string) (value : V) (m : list (string * V))
  : list (string * V) :=
  match m with
  | [] => [(key, value)]
  | (k, v) :: rest =>
      if String.eqb k key then (k, value) :: rest
      else (k, v) :: mapSet key value rest
  end.

Definition mapGet {V} (key : string) (m : list (string * V)) : option V :=
  option_map snd (find (fun entry => String.eqb (fst entry) key) m).

End JsMap.

(* ================================================================== *)
(** * The contact list: page handlers and the contact manager *)
(* ================================================================== *)

Module Contacts.
Import JsString Composer JsMap.

Definition isDigit (c : ascii) : bool :=
  let n := nat_of_ascii c in ((48 <=? n) && (n <=? 57))%nat.

(** [phone.replace(/\D/g, "")]: the digits of a phone number, the key by
    which an import recognises a contact. *)
Fixpoint digitsOnly (s : string) : string :=
  match s with
  | EmptyString => EmptyString
  | String c s' => if isDigit c then String c (digitsOnly s')
                   else digitsOnly s'
  end.

Definition phoneKey (contact : Contact) : string :=
  digitsOnly (contact_phone contact).

(** [handleAddContact] of the page. *)
Definition handleAddContact (contact : Contact) (prev : list Contact)
  : list Contact :=
  contact :: prev.

Definition handleRemoveContact (id : string) (prev : list Contact)
  : list Contact :=
  filter (fun contact => negb (String.eqb (contact_id contact) id)) prev.

(** The filter of [handleBulkAdd]; the set [seen] is a list, [seen.has]
    membership in it and [seen.add] a new head. *)
Fixpoint keepUnseen (seen : list string) (imported : list Contact)
  : list Contact :=
  match imported with
  | [] => []
  | contact :: rest =>
      let normalized := digitsOnly (contact_phone contact) in
      if existsb (String.eqb normalized) seen then keepUnseen seen rest
      else contact :: keepUnseen (normalized :: seen) rest
  end.

Definition handleBulkAdd (imported prev : list Contact) : list Contact :=
  match imported with
  | [] => prev
  | _ :: _ =>
      let seen := map (fun contact => digitsOnly (contact_phone contact))
                      prev in
      match keepUnseen seen imported with
      | [] => prev
      | unique => unique ++ prev
      end
  end.

Definition setOptIn (optIn : bool) (contact : Contact) : Contact :=
  {| contact_id := contact_id contact;
     contact_name := contact_name contact;
     contact_phone := contact_phone contact;
     contact_tags := contact_tags contact;
     contact_notes := contact_notes contact;
     contact_optIn := optIn;
     contact_createdAt := contact_createdAt contact |}.

Definition handleToggleOptIn (id : string) (optIn : bool)
    (prev : list Contact) : list Contact :=
  map (fun contact =>
         if String.eqb (contact_id contact) id then setOptIn optIn contact
         else contact)
      prev.

(** The composer as the page renders it again with other contacts. *)
Definition withContacts (f : Form) (cs : list Contact) : Form :=
  {| Composer.contacts := cs;
     templates := templates f;
     selectedTemplateId := selectedTemplateId f;
     message := message f;
     broadcastLabel := broadcastLabel f;
     scheduledFor := scheduledFor f;
     audienceTag := audienceTag f;
     audienceMode := audienceMode f;
     acknowledgedCompliance := acknowledgedCompliance f |}.

(** ** The contact manager *)

(** The body of the inner [forEach] of [tagCounts]. *)
Definition countTag (counts : list (string * nat)) (tag : string)
  : list (string * nat) :=
  let normalized := toLowerCase tag in
  mapSet normalized (nullish (mapGet normalized counts) 0 + 1)%nat counts.

(** [sort((a, b) => b[1] - a[1])], the larger count first. The sort is
    stable: of two entries of the same count the one that comes first in
    the map stays first, which one insertion from the right does when an
    entry goes before the first entry that is not larger. *)
Fixpoint insertByCount (entry : string * nat) (sorted : list (string * nat))
  : list (string * nat) :=
  match sorted with
  | [] => [entry]
  | other :: rest =>
      if (snd other <=? snd entry)%nat then entry :: sorted
      else other :: insertByCount entry rest
  end.

Definition sortByCount (entries : list (string * nat))
  : list (string * nat) :=
  fold_right insertByCount [] entries.

Definition tagCounts (contacts : list Contact) : list (string * nat) :=
  let counts :=
    fold_left (fun counts contact =>
                 fold_left countTag (contact_tags contact) counts)
              contacts [] in
  firstn 6 (sortByCount counts).

(** [counts.get(k) ?? 0]. *)
Definition counted (k : string) (m : list (string * nat)) : nat :=
  nullish (mapGet k m) 0%nat.

(** The map while the tags are counted: its keys are different, no key
    stands with the count zero. *)
Definition countsOk (m : list (string * nat)) : Prop :=
  NoDup (map fst m) /\ forall k n, In (k, n) m -> (1 <= n)%nat.

(** Sorted with the larger count first. *)
Definition descending (l : list (string * nat)) : Prop :=
  ForallOrdPairs (fun a b => (snd b <= snd a)%nat) l.

(** How many tags of the contacts are [tag] up to case. *)
Definition occurrences (tag : string) (contacts : list Contact) : nat :=
  count_occ string_dec
            (map toLowerCase (flat_map contact_tags contacts)) tag.

Fixpoint allChars (p : ascii -> bool) (s : string) : bool :=
  match s with
  | EmptyString => true
  | String c s' => p c && allChars p s'
  end.

(** The class [[0-9()[\]\s-]]. *)
Definition phoneChar (c : ascii) : bool :=
  isDigit c || Ascii.eqb c "(" || Ascii.eqb c ")" || Ascii.eqb c "["
  || Ascii.eqb c "]" || isWhiteSpace c || Ascii.eqb c "-".

(** [phonePattern.test(s)] for [/^\+?[0-9()[\]\s-]{6,}$/]: the class does
    not hold the plus sign, so a leading one is always taken by [\+?]. *)
Definition phonePattern (s : string) : bool :=
  let body := match s with
              | String c s' => if Ascii.eqb c "+" then s' else s
              | EmptyString => s
              end in
  (6 <=? String.length body)%nat && allChars phoneChar body.

(** [tags.split(",").map((tag) => tag.trim()).filter(Boolean)]. *)
Definition parseTags (tags : string) : list string :=
  filter truthy (map trim (split "," tags)).

(** The fields of the form of the contact manager. *)
Record ContactForm := mkContactForm {
  cf_name : string;
  cf_phone : string;
  cf_tags : string;
  cf_notes : string;
  cf_errors : option string
}.

Definition withErrors (form : ContactForm) (message : string)
  : ContactForm :=
  {| cf_name := cf_name form; cf_phone := cf_phone form;
     cf_tags := cf_tags form; cf_notes := cf_notes form;
     cf_errors := Some message |}.

(** [resetForm]. *)
Definition emptyContactForm : ContactForm :=
  {| cf_name := ""; cf_phone := ""; cf_tags := ""; cf_notes := "";
     cf_errors := None |}.

(** The submit handler of the contact manager, [onAdd] being the
    [handleAddContact] of the page. *)
Definition submitContact (id : string) (isoNow : Z) (form : ContactForm)
    (prev : list Contact) : ContactForm * list Contact :=
  if negb (truthy (trim (cf_name form))) then
    (withErrors form "Contact name is required.", prev)
  else if negb (phonePattern (trim (cf_phone form))) then
    (withErrors form
       "Phone number must be in international format, e.g. +15551231234.",
     prev)
  else
    let contact :=
      {| contact_id := id;
         contact_name := trim (cf_name form);
         contact_phone := trim (cf_phone form);
         contact_tags := parseTags (cf_tags form);
         contact_notes := if truthy (trim (cf_notes form))
                          then Some (trim (cf_notes form)) else None;
         contact_optIn := true;
         contact_createdAt := isoNow |} in
    (emptyContactForm, handleAddContact contact prev).

(** A row of an imported file, by the columns the import reads; a column
    the file does not have is [None]. *)
Record CsvRow := mkCsvRow {
  row_name : option string;
  row_fullName : option string;
  row_fullname : option string;
  row_phone : option string;
  row_whatsapp : option string;
  row_mobile : option string;
  row_tags : option string;
  row_segment : option string;
  row_notes : option string;
  row_optIn : option string;
  row_subscribed : option string
}.

(** [a ?? b] where [b] may be missing too. *)
Definition orElse {A} (a b : option A) : option A :=
  match a with Some _ => a | None => b end.

(** The contact the import makes of a row, [None] for a row it drops. *)
Definition importRow (id : string) (isoNow : Z) (row : CsvRow)
  : option Contact :=
  let rowName :=
    nullish (orElse (row_name row)
                    (orElse (row_fullName row) (row_fullname row))) "" in
  let rowPhone :=
    nullish (orElse (row_phone row)
                    (orElse (row_whatsapp row) (row_mobile row))) "" in
  if negb (truthy rowName) || negb (phonePattern (trim rowPhone)) then None
  else
    let tagValue := nullish (orElse (row_tags row) (row_segment row)) "" in
    let note := option_map trim (row_notes row) in
    Some {| contact_id := id;
            contact_name := trim rowName;
            contact_phone := trim rowPhone;
            contact_tags := parseTags tagValue;
            contact_notes :=
              match note with
              | Some n => if truthy n then Some n else None
              | None => None
              end;
            contact_optIn :=
              negb (String.eqb
                      (toLowerCase
                         (nullish (orElse (row_optIn row)
                                          (row_subscribed row)) "true"))
                      "false");
            contact_createdAt := isoNow |}.

End Contacts.

(* ================================================================== *)
(** * The template list: page handlers and the template manager *)
(* ================================================================== *)

Module Templates.
Import JsString Composer JsMap.

(** The test of [prev.some] in [handleAddTemplate]. *)
Definition sameTemplate (item template : MessageTemplate) : bool :=
  String.eqb (toLowerCase (template_name item))
             (toLowerCase (template_name template))
  && String.eqb (trim (template_body item)) (trim (template_body template)).

(** What the test compares of a template. *)
Definition templateKey (template : MessageTemplate) : string * string :=
  (toLowerCase (template_name template), trim (template_body template)).

Definition handleAddTemplate (template : MessageTemplate) (f : Form)
  : Form :=
  {| Composer.contacts := Composer.contacts f;
     templates :=
       if existsb (fun item => sameTemplate item template) (templates f)
       then templates f
       else template :: templates f;
     selectedTemplateId := Some (template_id template);
     message := template_body template;
     broadcastLabel := template_name template ++ " broadcast";
     scheduledFor := scheduledFor f;
     audienceTag := audienceTag f;
     audienceMode := audienceMode f;
     acknowledgedCompliance := acknowledgedCompliance f |}.

Definition handleDeleteTemplate (id : string) (f : Form) : Form :=
  let selected :=
    match selectedTemplateId f with
    | Some current => String.eqb current id
    | None => false
    end in
  {| Composer.contacts := Composer.contacts f;
     templates :=
       filter (fun template => negb (String.eqb (template_id template) id))
              (templates f);
     selectedTemplateId := if selected then None else selectedTemplateId f;
     message := if selected then "" else message f;
     broadcastLabel := broadcastLabel f;
     scheduledFor := scheduledFor f;
     audienceTag := audienceTag f;
     audienceMode := audienceMode f;
     acknowledgedCompliance := acknowledgedCompliance f |}.

(** [new Map(templates.map((template) => [template.id, template]))]. *)
Definition templateLookup (templates : list MessageTemplate)
  : list (string * MessageTemplate) :=
  fold_left (fun m template => mapSet (template_id template) template m)
            templates [].

Definition handleSelectTemplate (id : string) (f : Form) : Form :=
  let template := mapGet id (templateLookup (templates f)) in
  {| Composer.contacts := Composer.contacts f;
     templates := templates f;
     selectedTemplateId := Some id;
     message :=
       match template with
       | Some t => template_body t
       | None => message f
       end;
     broadcastLabel :=
       match template with
       | Some t => template_name t ++ " broadcast"
       | None => broadcastLabel f
       end;
     scheduledFor := scheduledFor f;
     audienceTag := audienceTag f;
     audienceMode := audienceMode f;
     acknowledgedCompliance := acknowledgedCompliance f |}.

(** ** The template manager *)

Record TemplateForm := mkTemplateForm {
  tf_name : string;
  tf_body : string;
  tf_error : option string
}.

Definition withError (form : TemplateForm) (message : string)
  : TemplateForm :=
  {| tf_name := tf_name form; tf_body := tf_body form;
     tf_error := Some message |}.

Definition emptyTemplateForm : TemplateForm :=
  {| tf_name := ""; tf_body := ""; tf_error := None |}.

(** [handleSubmit] of the template manager, [onAddTemplate] being the
    [handleAddTemplate] of the page. *)
Definition submitTemplate (id : string) (isoNow : Z) (form : TemplateForm)
    (f : Form) : TemplateForm * Form :=
  if negb (truthy (trim (tf_name form)))
     || negb (truthy (trim (tf_body form))) then
    (withError form "Template name and message body are required.", f)
  else if (1100 <? String.length (trim (tf_body form)))%nat then
    (withError form
       "Template body is too long. Keep it under 1100 characters.", f)
  else
    let template :=
      {| template_id := id;
         template_name := trim (tf_name form);
         template_body := trim (tf_body form);
         template_createdAt := isoNow |} in
    (emptyTemplateForm, handleAddTemplate template f).

End Templates.

(* ================================================================== *)
(** * The delivery feed *)
(* ================================================================== *)

Module Timeline.
Import Page.

(** The names an object literal inherits from [Object.prototype]: under
    such a key [acc[key]] is there before anything is stored, and it is no
    array. *)
Definition objectPrototypeKeys : list string :=
  [ "constructor"; "__defineGetter__"; "__defineSetter__";
    "hasOwnProperty"; "__lookupGetter__"; "__lookupSetter__";
    "isPrototypeOf"; "propertyIsEnumerable"; "toString"; "valueOf";
    "__proto__"; "toLocaleString" ].

Definition inherited (key : string) : bool :=
  existsb (String.eqb key) objectPrototypeKeys.

(** The two statements of the reducer on a key that is not inherited: the
    array of the key is made when it is missing, and the delivery is pushed
    on it. *)
Fixpoint pushTo (key : string) (delivery : DeliveryLogEntry)
    (acc : list (string * list DeliveryLogEntry))
  : list (string * list DeliveryLogEntry) :=
  match acc with
  | [] => [(key, [delivery])]
  | (k, entries) :: rest =>
      if String.eqb k key then (k, (entries ++ [delivery])%list) :: rest
      else (k, entries) :: pushTo key delivery rest
  end.

(** The [reduce]; [None] when [push] is called on what is no array, which
    throws. *)
Fixpoint groupFrom (acc : list (string * list DeliveryLogEntry))
    (deliveries : list DeliveryLogEntry)
  : option (list (string * list DeliveryLogEntry)) :=
  match deliveries with
  | [] => Some acc
  | delivery :: rest =>
      if inherited (e_broadcastId delivery) then None
      else groupFrom (pushTo (e_broadcastId delivery) delivery acc) rest
  end.

Definition groupedDeliveries (deliveries : list DeliveryLogEntry)
  : option (list (string * list DeliveryLogEntry)) :=
  groupFrom [] deliveries.

(** [grouped[key] ?? []] for a key that is not inherited. *)
Definition groupOf (key : string)
    (grouped : list (string * list DeliveryLogEntry))
  : list DeliveryLogEntry :=
  match find (fun group => String.eqb (fst group) key) grouped with
  | Some group => snd group
  | None => []
  end.

(** [groupedDeliveries[broadcast.id] ?? []]; [None] when the value read is
    inherited, on which [filter] throws. *)
Definition metricsOf (grouped : list (string * list DeliveryLogEntry))
    (broadcast : Broadcast) : option (list DeliveryLogEntry) :=
  if inherited (b_id broadcast) then None
  else Some (groupOf (b_id broadcast) grouped).

(** The entries the card of a broadcast counts, in a feed that shows at
    least one broadcast. *)
Definition metrics (deliveries : list DeliveryLogEntry)
    (broadcast : Broadcast) : option (list DeliveryLogEntry) :=
  match groupedDeliveries deliveries with
  | Some grouped => metricsOf grouped broadcast
  | None => None
  end.

(** The three numbers of the card: delivered, failed, pending. *)
Definition badges (metrics : list DeliveryLogEntry) : nat * nat * nat :=
  (List.length (filter (hasStatus Delivered) metrics),
   List.length (filter (hasStatus Failed) metrics),
   List.length (filter (fun entry => hasStatus Pending entry
                                     || hasStatus Sending entry) metrics)).

End Timeline.

(* ================================================================== *)
(** * Sample data for the examples *)
(* ================================================================== *)

Definition sampleContact : Contact :=
  mkContact "c1" "Dana Lee" "+14155550138" ["acme-company"; "vip"] None
            true 0.

Definition secondContact : Contact :=
  mkContact "c2" "Bo Chen" "+14155550139" ["vip"] (Some "met in May")
            true 0.

Definition optedOutContact : Contact :=
  mkContact "c3" "Eli Roy" "+14155550140" ["VIP"] None false 0.

Definition sampleIds (n : nat) : string :=
  match n with
  | 0%nat => "b1"
  | 1%nat => "d1"
  | 2%nat => "d2"
  | _ => "d3"
  end.

(** One opted-in contact, everything filled in; [ack] is the compliance
    box. *)
Definition sampleForm (ack : bool) : Composer.Form :=
  Composer.mkForm [sampleContact] [] None "Hi {{firstName}}" "Spring news"
                  None None Composer.ModeAll ack.

(** The same form with its label, its message or its contacts replaced. *)
Definition formWith (label body : string) (cs : list Contact)
  : Composer.Form :=
  Composer.mkForm cs [] None body label None None Composer.ModeAll true.

(** "Filter by tag" chosen and no tag selected yet. *)
Definition tagModeForm : Composer.Form :=
  Composer.mkForm [sampleContact; secondContact; optedOutContact] [] None
                  "Hi {{firstName}}" "Spring news" None None
                  Composer.ModeTag true.

Definition vipForm : Composer.Form :=
  Composer.mkForm [sampleContact; secondContact; optedOutContact] [] None
                  "Hi {{firstName}}" "Spring news" None (Some "Vip")
                  Composer.ModeTag true.

(** A broadcast that records two recipients while a single delivery, a
    delivered one, refers to it. *)
Definition shortBroadcast : Broadcast :=
  mkBroadcast "b1" "Spring news" "custom" (TargetContacts ["c1"; "c2"])
              None 0 BInProgress 2 0 0.

(** A broadcast to one recipient as launch makes it, and its delivery
    once the send has failed. *)
Definition startedBroadcast : Broadcast :=
  mkBroadcast "b1" "Spring news" "custom" (TargetContacts ["c1"])
              None 0 BInProgress 1 0 0.

Definition failedEntry : DeliveryLogEntry :=
  mkEntry "d1" "b1" "c1" "Dana Lee" "+14155550138" None Failed "Hi Dana"
          (Some 1%Z) (Some 2%Z)
          (Some "WhatsApp API returned a temporary error. Retry later.").

Definition deliveredEntry : DeliveryLogEntry :=
  mkEntry "d1" "b1" "c1" "Dana Lee" "+14155550138" None Delivered "Hi Dana"
          (Some 1%Z) (Some 2%Z) None.

(** Two opted-in contacts, to be sent to at once. *)
Definition twoForm : Composer.Form :=
  formWith "Spring news" "Hi {{firstName}}" [sampleContact; secondContact].

(** A fresh page once its effects have run at mount. *)
Definition mounted (f : Composer.Form) : Page.App :=
  (f, Page.runEffects 0 0 false Page.initialStore).

(** The page after the launch of [twoForm] on a fresh page, after the
    effects ran on the new deliveries, and after they ran again on the
    array the dispatch effect wrote. *)
Definition launched : Page.App :=
  Page.handleSubmit 5 sampleIds (mounted twoForm).

Definition firstCommit : Page.App :=
  (fst launched, Page.runEffects 10 10 false (snd launched)).

Definition secondCommit : Page.App :=
  (fst firstCommit, Page.runEffects 20 20 false (snd firstCommit)).

(** One recipient, left alone by every timeout: launch and the two
    commits that follow; then the form is filled in again, a second
    broadcast is launched to the same recipient and the effects run. *)
Definition secondIds (n : nat) : string :=
  match n with
  | 0%nat => "b2"
  | _ => "e1"
  end.

Definition inFlightRun : Page.App :=
  let a1 := Page.handleSubmit 5 sampleIds (mounted (sampleForm true)) in
  let st2 := Page.runEffects 10 10 false (snd a1) in
  (fst a1, Page.runEffects 20 20 false st2).

Definition relaunched : Page.App :=
  let a := Page.handleSubmit 30 secondIds (sampleForm true, snd inFlightRun) in
  (fst a, Page.runEffects 40 40 false (snd a)).

(** One recipient: launch, effects, the timeout with the outcome drawn
    when it was armed, effects again. *)
Definition singleRun (shouldFail : bool) : Page.App :=
  let a1 := Page.handleSubmit 5 sampleIds (mounted (sampleForm true)) in
  let st2 := Page.runEffects 10 10 shouldFail (snd a1) in
  let st3 := Page.timeoutFires 1500 st2 in
  (fst a1, Page.runEffects 1500 1500 false st3).

(** The broadcast of [singleRun] once the outcome is aggregated. *)
Definition singleBroadcast (shouldFail : bool) : Broadcast :=
  mkBroadcast "b1" "Spring news" "custom" (TargetContacts ["c1"]) None 5
              (if shouldFail then BFailed else BCompleted) 1
              (if shouldFail then 0 else 1) (if shouldFail then 1 else 0).

(** "Hi {{firstName}} from {{ COMPANY }}" in pieces. *)
Definition greeting : list Template.Segment :=
  [Template.Text "Hi ";
   Template.Placeholder Composer.FirstName "firstName" "" "";
   Template.Text " from ";
   Template.Placeholder Composer.Company "COMPANY" " " " "].

(** The storage after the launch of [singleRun], when the write of the
    broadcasts went through and the write of the deliveries failed; and
    the page loaded again from it. *)
Definition halfStored : Page.Disk :=
  Page.persist true false
    (snd (Page.handleSubmit 5 sampleIds (mounted (sampleForm true))))
    Page.emptyDisk.

Definition reloaded : Page.App :=
  (sampleForm false, Page.runEffects 50 50 false (Page.remount halfStored)).

(** A recognised placeholder beside one that is not, a brace on its own
    and the notes. *)
Definition invitation : list Template.Segment :=
  [Template.Text "Hi ";
   Template.Placeholder Composer.FirstName "firstName" "" "";
   Template.Text ", see you at {{meetingTime}} {";
   Template.Placeholder Composer.Notes "Notes" " " ""].

Definition named (name : string) : Contact :=
  mkContact "c1" name "+14155550138" [] None true 0.

Definition noted (notes : string) : Contact :=
  mkContact "c1" "Dana Lee" "+14155550138" [] (Some notes) true 0.

(** A name whose two words are separated by a tab. *)
Definition tabbedName : string :=
  "Dana" ++ String (ascii_of_nat 9) "Lee".

(** A fact about one code unit, settled by going through the 256 of
    them. *)
Ltac each_ascii c :=
  destruct c as [[] [] [] [] [] [] [] []]; vm_compute; try reflexivity;
  try discriminate.

(** The sample form, to be sent a day after the epoch. *)
Definition laterForm : Composer.Form :=
  Composer.mkForm [sampleContact] [] None "Hi {{firstName}}" "Spring news"
                  (Some 86400000%Z) None Composer.ModeAll true.

(** [secondCommit] once the timeout of the second delivery has fired
    and the effects have run on what it wrote. *)
Definition thirdCommit : Page.App :=
  (fst secondCommit,
   Page.runEffects 2000 2000 false
     (Page.timeoutFires 1900 (snd secondCommit))).

(** The first delivery of [twoForm] as the first commit leaves it. *)
Definition firstSending : DeliveryLogEntry :=
  mkEntry "d1" "b1" "c1" "Dana Lee" "+14155550138" None Sending "Hi Dana"
          (Some 10%Z) None None.

(** A launch for later on a fresh page, and the commit that follows. *)
Definition laterCommit : Page.App :=
  let a := Page.handleSubmit 5 sampleIds (mounted laterForm) in
  (fst a, Page.runEffects 10 10 false (snd a)).

(** A template and the sample form with it selected. *)
Definition welcomeTemplate : MessageTemplate :=
  mkTemplate "t1" "Welcome" "Welcome {{firstName}}!" 0.

Definition templateForm : Composer.Form :=
  Composer.mkForm [sampleContact] [welcomeTemplate] (Some "t1")
                  "Hi {{firstName}}" "Spring news" None None
                  Composer.ModeAll true.

(** Rows of an import: the phone of [sampleContact] written with
    punctuation, a new number, and the new number once more. *)
Definition knownRow : Contact :=
  mkContact "i1" "Dana L." "+1 (415) 555-0138" [] None true 7.

Definition newRow : Contact :=
  mkContact "i2" "Ana Ruiz" "+44 20 7946 0958" ["press"] None true 7.

Definition repeatedRow : Contact :=
  mkContact "i3" "A. Ruiz" "442079460958" [] None true 7.

Definition contactForm : Contacts.ContactForm :=
  Contacts.mkContactForm "  Ana Ruiz " " +44 20 7946 0958" " press, ,VIP " " "
                         None.

Definition blankNameForm : Contacts.ContactForm :=
  Contacts.mkContactForm "  " "+44 20 7946 0958" "" "" None.

Definition blankNameRow : Contacts.CsvRow :=
  Contacts.mkCsvRow (Some "  ") None None (Some "+44 20 7946 0958") None None
                    None None None None None.

Definition farewellTemplate : MessageTemplate :=
  mkTemplate "t2" "Farewell" "Bye {{firstName}}" 1.

(** The welcome template typed again, in capitals and with a new line at
    its end. *)
Definition retypedTemplate : MessageTemplate :=
  mkTemplate "t9" "WELCOME" "Welcome {{firstName}}!
" 2.

Definition twoTemplatesForm : Composer.Form :=
  Composer.mkForm [sampleContact] [welcomeTemplate; farewellTemplate]
                  (Some "t1") "Hi {{firstName}}" "Spring news" None None
                  Composer.ModeAll true.

Definition templateDraft : Templates.TemplateForm :=
  Templates.mkTemplateForm " Reminder " "  See you {{firstName}}
" None.

(** Seven tags, "vip" three times in three spellings. *)
Definition taggedContacts : list Contact :=
  [ mkContact "g1" "A" "+14155550001" ["vip"; "press"; "beta"] None true 0;
    mkContact "g2" "B" "+14155550002" ["VIP"; "north"; "south"] None true 0;
    mkContact "g3" "C" "+14155550003" ["Vip"; "east"; "west"] None false 0 ].

(* ================================================================== *)
(** * The embedding on small inputs *)
(* ================================================================== *)

Example trim_name : JsString.trim "  Dana Lee  " = "Dana Lee".
Proof. reflexivity. Qed.

Example split_double_space : JsString.split " " "a  b" = ["a"; ""; "b"].
Proof. reflexivity. Qed.

Example split_empty : JsString.split " " "" = [""].
Proof. reflexivity. Qed.

Example lower_tag : JsString.toLowerCase "Acme-COMPANY" = "acme-company".
Proof. reflexivity. Qed.

Example match_spaced :
  Replace.matchToken "firstName" "{{ FIRSTname  }} and more" = Some 16%nat.
Proof. reflexivity. Qed.

Example match_needs_whole_name :
  Replace.matchToken "tag" "{{tags}}" = None.
Proof. reflexivity. Qed.

Example replace_dollar_patterns :
  Replace.replaceAll "phone" "[$`|$&|$'|$1|$$]" "x{{ PHONE }}y"
  = "x[x|{{ PHONE }}|y|$1|$]y".
Proof. reflexivity. Qed.

Example replace_every_match :
  Replace.replaceAll "tag" "vip" "{{tag}}, {{TAG}} and {{ tag }}"
  = "vip, vip and vip".
Proof. reflexivity. Qed.

Example company_falls_back :
  Composer.valueOf secondContact Composer.Company = "vip"
  /\ Composer.valueOf (named "Dana Lee") Composer.Company = "your team".
Proof. split; reflexivity. Qed.

Example vip_launch_counts_two :
  map b_totalRecipients
      (Page.broadcasts
         (snd (Page.handleSubmit 0 sampleIds (vipForm, Page.initialStore))))
  = [2%nat].
Proof. reflexivity. Qed.

(* ================================================================== *)
(** * Launch: guards and construction *)
(* ================================================================== *)

Section Launch.
Import JsString Composer Page.

Lemma mapIndexed_length {A B} (f : nat -> A -> B) xs :
  forall i, List.length (mapIndexed f i xs) = List.length xs.
Proof.
  induction xs as [|x xs IH]; intros i; simpl; [reflexivity|].
  now rewrite IH.
Qed.

Lemma mapIndexed_map {A B C} (f : nat -> A -> B) (g : B -> C) (h : A -> C) :
  (forall i x, g (f i x) = h x) ->
  forall xs i, map g (mapIndexed f i xs) = map h xs.
Proof.
  intros Hgf xs; induction xs as [|x xs IH]; intros i; simpl.
  - reflexivity.
  - now rewrite Hgf, IH.
Qed.

Lemma mapIndexed_Forall {A B} (f : nat -> A -> B) (P : B -> Prop) :
  (forall i x, P (f i x)) ->
  forall xs i, Forall P (mapIndexed f i xs).
Proof.
  intros HP xs; induction xs as [|x xs IH]; intros i; simpl;
    constructor; auto.
Qed.

(** The four guards of [handleSubmit] spelled out. *)
Lemma buildLaunch_guards isoNow nanoid f :
  buildLaunch isoNow nanoid f <> None <->
  truthy (trim (broadcastLabel f)) = true /\
  truthy (trim (message f)) = true /\
  acknowledgedCompliance f = true /\
  filteredContacts f <> [].
Proof.
  unfold buildLaunch.
  destruct (truthy (trim (broadcastLabel f)));
    destruct (truthy (trim (message f)));
    destruct (acknowledgedCompliance f);
    destruct (filteredContacts f); simpl;
    split; intros H; try congruence;
    try (destruct H as (? & ? & ? & ?); congruence).
  repeat split; congruence.
Qed.

Lemma handleSubmit_rejected isoNow nanoid a :
  buildLaunch isoNow nanoid (fst a) = None ->
  handleSubmit isoNow nanoid a = a.
Proof. unfold handleSubmit; intros ->; reflexivity. Qed.

Lemma handleSubmit_launched isoNow nanoid f st broadcast entries :
  buildLaunch isoNow nanoid f = Some (broadcast, entries) ->
  handleSubmit isoNow nanoid (f, st) =
  ({| Composer.contacts := Composer.contacts f;
      templates := templates f;
      selectedTemplateId := selectedTemplateId f;
      message := "";
      broadcastLabel := "Follow-up broadcast";
      scheduledFor := None;
      audienceTag := audienceTag f;
      audienceMode := audienceMode f;
      acknowledgedCompliance := false |},
   {| broadcasts := broadcast :: broadcasts st;
      deliveries := deliveries st ++ entries;
      processingRef := processingRef st;
      timeout := timeout st;
      cleanup := cleanup st;
      stale := true |}).
Proof. unfold handleSubmit; simpl; intros ->; reflexivity. Qed.

(** Past its guards, [handleSubmit] builds this broadcast and these
    deliveries. *)
Lemma buildLaunch_accepted isoNow nanoid f :
  truthy (trim (broadcastLabel f)) = true ->
  truthy (trim (message f)) = true ->
  acknowledgedCompliance f = true ->
  (1 <= List.length (filteredContacts f))%nat ->
  exists broadcast entries,
    buildLaunch isoNow nanoid f = Some (broadcast, entries) /\
    b_id broadcast = nanoid 0%nat /\
    entries = mapIndexed (mkDelivery nanoid broadcast f) 0
                         (filteredContacts f) /\
    b_totalRecipients broadcast = List.length (filteredContacts f) /\
    b_delivered broadcast = 0%nat /\
    b_failed broadcast = 0%nat /\
    b_status broadcast =
      match scheduledFor f with
      | Some _ => BScheduled
      | None => BInProgress
      end.
Proof.
  intros Hl Hm Ha Hk. unfold buildLaunch. rewrite Hl, Hm, Ha. simpl.
  destruct (filteredContacts f) as [|c cs] eqn:E; [simpl in Hk; lia|].
  simpl. eexists; eexists. split; [reflexivity|].
  repeat split; reflexivity.
Qed.

End Launch.

(** C1 (amended): with a non-blank label, a non-blank message, the
    compliance box ticked and [K >= 1] resolved recipients, the submit
    handler puts exactly one new broadcast in front of the broadcasts and
    appends exactly [K] deliveries, one per resolved recipient in resolved
    order, each pending and carrying the contact's id, name, phone and
    personalised preview; the broadcast has [totalRecipients = K],
    [delivered = 0], [failed = 0] and starts [scheduled] when
    [scheduledFor] is set, [in_progress] otherwise. *)
Theorem launch_creates_broadcast_and_tasks :
  forall isoNow nanoid f st,
    JsString.truthy (JsString.trim (Composer.broadcastLabel f)) = true ->
    JsString.truthy (JsString.trim (Composer.message f)) = true ->
    Composer.acknowledgedCompliance f = true ->
    (1 <= List.length (Composer.filteredContacts f))%nat ->
    exists broadcast entries,
      Page.broadcasts (snd (Page.handleSubmit isoNow nanoid (f, st)))
        = broadcast :: Page.broadcasts st /\
      Page.deliveries (snd (Page.handleSubmit isoNow nanoid (f, st)))
        = (Page.deliveries st ++ entries)%list /\
      List.length entries = List.length (Composer.filteredContacts f) /\
      map Page.snapshot entries
        = map (Page.snapshotOf (Composer.message f))
              (Composer.filteredContacts f) /\
      Forall (fun e => e_status e = Pending /\
                       e_broadcastId e = b_id broadcast /\
                       e_scheduledFor e = Composer.scheduledFor f) entries /\
      b_totalRecipients broadcast
        = List.length (Composer.filteredContacts f) /\
      b_delivered broadcast = 0%nat /\
      b_failed broadcast = 0%nat /\
      b_status broadcast =
        match Composer.scheduledFor f with
        | Some _ => BScheduled
        | None => BInProgress
        end.
Proof.
  intros isoNow nanoid f st Hl Hm Ha Hk.
  destruct (buildLaunch_accepted isoNow nanoid f Hl Hm Ha Hk)
    as (b & es & Hb & _ & Hes & Ht & Hd & Hf & Hs).
  exists b, es.
  rewrite (handleSubmit_launched _ _ _ st _ _ Hb). simpl.
  repeat split; auto; subst es.
  - apply mapIndexed_length.
  - apply mapIndexed_map. reflexivity.
  - apply mapIndexed_Forall. intros i x. repeat split.
Qed.

Lemma launch_creates_broadcast_and_tasks_witness :
  exists broadcast entries,
    Page.broadcasts
      (snd (Page.handleSubmit 0 sampleIds (sampleForm true, Page.initialStore)))
      = broadcast :: [] /\
    Page.deliveries
      (snd (Page.handleSubmit 0 sampleIds (sampleForm true, Page.initialStore)))
      = ([] ++ entries)%list /\
    List.length entries = 1%nat /\
    map Page.snapshot entries
      = [("c1", "Dana Lee", "+14155550138", "Hi Dana")] /\
    Forall (fun e => e_status e = Pending /\
                     e_broadcastId e = b_id broadcast /\
                     e_scheduledFor e = None) entries /\
    b_totalRecipients broadcast = 1%nat /\
    b_delivered broadcast = 0%nat /\
    b_failed broadcast = 0%nat /\
    b_status broadcast = BInProgress.
Proof.
  apply (launch_creates_broadcast_and_tasks 0 sampleIds (sampleForm true)
           Page.initialStore);
    [reflexivity | reflexivity | reflexivity | simpl; lia].
Defined.

(** Counterexample to C1 as worded: label, message and
    audience are in order, the compliance box is not ticked, and the
    handler creates nothing. *)
Lemma launch_without_acknowledgement_creates_nothing :
  JsString.truthy
    (JsString.trim (Composer.broadcastLabel (sampleForm false))) = true /\
  JsString.truthy
    (JsString.trim (Composer.message (sampleForm false))) = true /\
  List.length (Composer.filteredContacts (sampleForm false)) = 1%nat /\
  Page.broadcasts
    (snd (Page.handleSubmit 0 sampleIds (sampleForm false, Page.initialStore)))
    = [] /\
  Page.deliveries
    (snd (Page.handleSubmit 0 sampleIds (sampleForm false, Page.initialStore)))
    = [].
Proof. repeat split; reflexivity. Qed.

(** C9: a submission whose trimmed label is empty, or whose trimmed
    message is empty, or whose resolved audience is empty, returns at a
    guard: the form, the broadcasts, the deliveries and everything else
    are what they were. *)
Theorem launch_rejected_when_invalid :
  forall isoNow nanoid a,
    JsString.truthy (JsString.trim (Composer.broadcastLabel (fst a))) = false
    \/ JsString.truthy (JsString.trim (Composer.message (fst a))) = false
    \/ Composer.filteredContacts (fst a) = [] ->
    Page.handleSubmit isoNow nanoid a = a.
Proof.
  intros isoNow nanoid a H. apply handleSubmit_rejected.
  destruct (Composer.buildLaunch isoNow nanoid (fst a)) eqn:E;
    [|reflexivity].
  assert (G : Composer.buildLaunch isoNow nanoid (fst a) <> None)
    by congruence.
  apply buildLaunch_guards in G. destruct G as (Hl & Hm & _ & Hc).
  destruct H as [H | [H | H]]; congruence.
Qed.

Lemma launch_rejected_when_invalid_witness :
  Page.handleSubmit 0 sampleIds
    (formWith "   " "Hi {{firstName}}" [sampleContact], Page.initialStore)
  = (formWith "   " "Hi {{firstName}}" [sampleContact], Page.initialStore)
  /\ Page.handleSubmit 0 sampleIds
       (formWith "Spring news" "" [sampleContact], Page.initialStore)
     = (formWith "Spring news" "" [sampleContact], Page.initialStore)
  /\ Page.handleSubmit 0 sampleIds
       (formWith "Spring news" "Hi" [optedOutContact], Page.initialStore)
     = (formWith "Spring news" "Hi" [optedOutContact], Page.initialStore).
Proof.
  split; [|split].
  - apply (launch_rejected_when_invalid 0 sampleIds
             (formWith "   " "Hi {{firstName}}" [sampleContact],
              Page.initialStore)).
    left. reflexivity.
  - apply (launch_rejected_when_invalid 0 sampleIds
             (formWith "Spring news" "" [sampleContact], Page.initialStore)).
    right; left. reflexivity.
  - apply (launch_rejected_when_invalid 0 sampleIds
             (formWith "Spring news" "Hi" [optedOutContact],
              Page.initialStore)).
    right; right. reflexivity.
Defined.

(** C10: while the compliance box is not ticked the submit handler
    returns without creating anything, whatever the label, the message and
    the audience are; and a submission that passes the guards leaves the
    box unticked. *)
Theorem launch_requires_acknowledgement :
  forall isoNow nanoid a,
    (Composer.acknowledgedCompliance (fst a) = false ->
     Page.handleSubmit isoNow nanoid a = a) /\
    (JsString.truthy (JsString.trim (Composer.broadcastLabel (fst a))) = true ->
     JsString.truthy (JsString.trim (Composer.message (fst a))) = true ->
     Composer.acknowledgedCompliance (fst a) = true ->
     Composer.filteredContacts (fst a) <> [] ->
     Page.handleSubmit isoNow nanoid a <> a /\
     Composer.acknowledgedCompliance
       (fst (Page.handleSubmit isoNow nanoid a)) = false).
Proof.
  intros isoNow nanoid [f st]; simpl. split.
  - intros Ha. apply handleSubmit_rejected. simpl.
    destruct (Composer.buildLaunch isoNow nanoid f) eqn:E; [|reflexivity].
    assert (G : Composer.buildLaunch isoNow nanoid f <> None) by congruence.
    apply buildLaunch_guards in G. destruct G as (_ & _ & G & _).
    congruence.
  - intros Hl Hm Ha Hc.
    assert (G : Composer.buildLaunch isoNow nanoid f <> None)
      by (apply buildLaunch_guards; auto).
    destruct (Composer.buildLaunch isoNow nanoid f) as [[b es]|] eqn:E;
      [|congruence].
    rewrite (handleSubmit_launched _ _ _ st _ _ E). split.
    + intros Heq. injection Heq as Hf _.
      apply (f_equal Composer.acknowledgedCompliance) in Hf.
      simpl in Hf. congruence.
    + reflexivity.
Qed.

Lemma launch_requires_acknowledgement_witness :
  Page.handleSubmit 0 sampleIds (sampleForm false, Page.initialStore)
  = (sampleForm false, Page.initialStore)
  /\ Page.handleSubmit 0 sampleIds (sampleForm true, Page.initialStore)
     <> (sampleForm true, Page.initialStore)
  /\ Composer.acknowledgedCompliance
       (fst (Page.handleSubmit 0 sampleIds
               (sampleForm true, Page.initialStore))) = false.
Proof.
  split.
  - apply (proj1 (launch_requires_acknowledgement 0 sampleIds
                    (sampleForm false, Page.initialStore))).
    reflexivity.
  - apply (proj2 (launch_requires_acknowledgement 0 sampleIds
                    (sampleForm true, Page.initialStore)));
      [reflexivity | reflexivity | reflexivity | discriminate].
Defined.

(* ================================================================== *)
(** * Audience resolution *)
(* ================================================================== *)

Section Audience.
Import JsString Composer.

Lemma hasTag_spec tag contact :
  hasTag tag contact = true <->
  exists t, In t (contact_tags contact) /\ toLowerCase t = toLowerCase tag.
Proof.
  unfold hasTag. rewrite existsb_exists.
  split; intros (t & Hin & Ht); exists t; split; auto;
    now apply String.eqb_eq.
Qed.

(** Without a tag to filter by, "Filter by tag" resolves to every
    opted-in contact. *)
Lemma filteredContacts_tag_unset f :
  audienceMode f = ModeTag -> truthyOpt (audienceTag f) = false ->
  filteredContacts f = optedInContacts f.
Proof.
  unfold filteredContacts. intros -> H.
  destruct (audienceTag f) as [tag|]; [|reflexivity].
  simpl in H. now rewrite H.
Qed.

(** In that state the submit button is disabled. *)
Lemma submitDisabled_tag_unset isProcessing f :
  audienceMode f = ModeTag -> truthyOpt (audienceTag f) = false ->
  submitDisabled isProcessing f = true.
Proof.
  unfold submitDisabled. intros -> ->. simpl.
  now rewrite !orb_true_r.
Qed.

Lemma filter_Subsequence {A} (p : A -> bool) l :
  Spec.Subsequence (filter p l) l.
Proof.
  induction l as [|x l IH]; simpl; [constructor|].
  destruct (p x); now constructor.
Qed.

Lemma filter_twice {A} (p q : A -> bool) l :
  filter p (filter q l) = filter (fun x => q x && p x) l.
Proof.
  induction l as [|x l IH]; simpl; [reflexivity|].
  destruct (q x); simpl; [destruct (p x)|]; now rewrite IH.
Qed.

(** Whatever the mode, the audience is a selection of the contacts in
    their order, all of them opted in. *)
Lemma filteredContacts_optedIn f :
  Spec.Subsequence (filteredContacts f) (contacts f)
  /\ Forall (fun c => contact_optIn c = true) (filteredContacts f).
Proof.
  assert (H : exists p, filteredContacts f
                        = filter (fun c => contact_optIn c && p c)
                                 (contacts f)).
  { unfold filteredContacts, optedInContacts.
    destruct (audienceMode f), (audienceTag f) as [tag|];
      try destruct (truthy tag);
      try (exists (fun _ => true);
           apply filter_ext; intros c; now rewrite andb_true_r).
    exists (hasTag tag). apply filter_twice. }
  destruct H as (p & ->). split; [apply filter_Subsequence|].
  apply Forall_forall. intros c Hc. apply filter_In in Hc.
  destruct Hc as [_ Hc]. now apply andb_true_iff in Hc.
Qed.

(** Past the other guards, a submission in "tag" mode without a tag goes
    out to every opted-in contact. *)
Lemma buildLaunch_tag_unset isoNow nanoid f :
  audienceMode f = ModeTag -> truthyOpt (audienceTag f) = false ->
  truthy (trim (broadcastLabel f)) = true ->
  truthy (trim (message f)) = true ->
  acknowledgedCompliance f = true ->
  optedInContacts f <> [] ->
  exists broadcast entries,
    buildLaunch isoNow nanoid f = Some (broadcast, entries)
    /\ b_target broadcast = TargetTag (audienceTag f)
    /\ map e_contactId entries = map contact_id (optedInContacts f).
Proof.
  intros Hm Ht Hl Hb Ha Hc.
  pose proof (filteredContacts_tag_unset f Hm Ht) as Hf.
  unfold buildLaunch. rewrite Hl, Hb, Ha, Hf, Hm. simpl.
  destruct (optedInContacts f) as [|c cs] eqn:E; [congruence|]. simpl.
  eexists; eexists. split; [reflexivity|]. split; [reflexivity|].
  simpl. f_equal. apply mapIndexed_map. reflexivity.
Qed.

End Audience.

(** C5: in "all" mode the audience is the list of contacts filtered by
    [optIn]: a selection of the contacts in their original order that
    holds exactly the opted-in ones; in "tag" mode with a tag set it is
    that list filtered further, and a contact is in it exactly when it is
    a contact, has opted in and has a tag equal to the target tag up to
    letter case. *)
Theorem audience_resolution :
  forall f,
    (Composer.audienceMode f = Composer.ModeAll ->
     Composer.filteredContacts f
       = filter contact_optIn (Composer.contacts f)
     /\ Spec.Subsequence (Composer.filteredContacts f) (Composer.contacts f)
     /\ forall c,
          In c (Composer.filteredContacts f) <->
          In c (Composer.contacts f) /\ contact_optIn c = true) /\
    (forall tag,
        Composer.audienceMode f = Composer.ModeTag ->
        Composer.audienceTag f = Some tag ->
        JsString.truthy tag = true ->
        Composer.filteredContacts f
          = filter (fun c =>
                      existsb (fun t => String.eqb (JsString.toLowerCase t)
                                          (JsString.toLowerCase tag))
                              (contact_tags c))
                   (filter contact_optIn (Composer.contacts f)) /\
        forall c,
          In c (Composer.filteredContacts f) <->
          In c (Composer.contacts f) /\ contact_optIn c = true /\
          exists t, In t (contact_tags c) /\
                    JsString.toLowerCase t = JsString.toLowerCase tag).
Proof.
  intros f. split.
  - intros Hm.
    assert (E : Composer.filteredContacts f
                = filter contact_optIn (Composer.contacts f))
      by (unfold Composer.filteredContacts; now rewrite Hm).
    split; [exact E|]. split; [apply filteredContacts_optedIn|].
    intros c. rewrite E. apply filter_In.
  - intros tag Hm Ht Htr.
    assert (E : Composer.filteredContacts f
                = filter (Composer.hasTag tag) (Composer.optedInContacts f)).
    { unfold Composer.filteredContacts. now rewrite Hm, Ht, Htr. }
    split; [exact E|].
    intros c. rewrite E, filter_In. unfold Composer.optedInContacts.
    rewrite filter_In, hasTag_spec. tauto.
Qed.

Lemma audience_resolution_witness :
  Composer.filteredContacts (sampleForm true) = [sampleContact]
  /\ Composer.filteredContacts vipForm = [sampleContact; secondContact]
  /\ (In optedOutContact (Composer.filteredContacts vipForm) <->
      In optedOutContact (Composer.contacts vipForm)
      /\ contact_optIn optedOutContact = true
      /\ exists t, In t (contact_tags optedOutContact) /\
                   JsString.toLowerCase t = JsString.toLowerCase "Vip").
Proof.
  split; [|split].
  - apply (proj1 (audience_resolution (sampleForm true))). reflexivity.
  - apply (proj2 (audience_resolution vipForm) "Vip");
      reflexivity.
  - apply (proj2 (audience_resolution vipForm) "Vip");
      reflexivity.
Defined.

(** C4 (amended): with "Filter by tag" chosen and no tag selected,
    resolving the audience is not an error: it gives every opted-in
    contact, in the order of the contacts; what holds a launch back in
    that state is the submit button, which is disabled. *)
Theorem tag_mode_without_tag_resolves_to_all :
  forall isProcessing f,
    Composer.audienceMode f = Composer.ModeTag ->
    JsString.truthyOpt (Composer.audienceTag f) = false ->
    Composer.filteredContacts f = filter contact_optIn (Composer.contacts f)
    /\ Composer.submitDisabled isProcessing f = true.
Proof.
  intros isProcessing f Hm Ht. split.
  - now apply filteredContacts_tag_unset.
  - now apply submitDisabled_tag_unset.
Qed.

Lemma tag_mode_without_tag_resolves_to_all_witness :
  Composer.filteredContacts tagModeForm = [sampleContact; secondContact]
  /\ Composer.submitDisabled false tagModeForm = true.
Proof.
  apply (tag_mode_without_tag_resolves_to_all false tagModeForm);
    reflexivity.
Defined.

(** Counterexample to C4 as worded: in that state the
    audience is silently every opted-in contact, and the submit handler
    has no guard for it: called there, it creates a broadcast whose target
    is the missing tag and one delivery per opted-in contact. *)
Lemma tag_mode_without_tag_launches_to_all :
  Composer.audienceMode tagModeForm = Composer.ModeTag
  /\ Composer.audienceTag tagModeForm = None
  /\ Composer.filteredContacts tagModeForm
     = Composer.optedInContacts tagModeForm
  /\ Composer.optedInContacts tagModeForm = [sampleContact; secondContact]
  /\ map (fun b => (b_target b, b_totalRecipients b))
         (Page.broadcasts
            (snd (Page.handleSubmit 0 sampleIds
                    (tagModeForm, Page.initialStore))))
     = [(TargetTag None, 2%nat)]
  /\ map e_contactId
         (Page.deliveries
            (snd (Page.handleSubmit 0 sampleIds
                    (tagModeForm, Page.initialStore))))
     = ["c1"; "c2"].
Proof. repeat split; reflexivity. Qed.

(* ================================================================== *)
(** * Status aggregation *)
(* ================================================================== *)

Section Aggregation.
Import Page.

Lemma DeliveryStatus_eqb_eq a b : DeliveryStatus_eqb a b = true <-> a = b.
Proof. destruct a, b; simpl; split; congruence. Qed.

Lemma BroadcastStatus_eqb_eq a b : BroadcastStatus_eqb a b = true <-> a = b.
Proof. destruct a, b; simpl; split; congruence. Qed.

Lemma filter_length_le {A} (p : A -> bool) l :
  (List.length (filter p l) <= List.length l)%nat.
Proof.
  induction l as [|x l IH]; simpl; [lia|]. destruct (p x); simpl; lia.
Qed.

(** Every element passes the test exactly when the filter drops none. *)
Lemma filter_keeps_all {A} (p : A -> bool) l :
  (List.length (filter p l) =? List.length l)%nat = forallb p l.
Proof.
  induction l as [|x l IH]; simpl; [reflexivity|].
  destruct (p x); simpl; [exact IH|].
  pose proof (filter_length_le p l).
  apply Nat.eqb_neq. lia.
Qed.

(** Deliveries that are neither pending nor sending are delivered or
    failed, so the two counts add up to their number. *)
Lemma terminal_counts l :
  inFlight l = false ->
  (countStatus Delivered l + countStatus Failed l)%nat = List.length l.
Proof.
  unfold inFlight, countStatus, hasStatus.
  induction l as [|e l IH]; simpl; [reflexivity|].
  intros H. apply orb_false_iff in H. destruct H as [He Hl].
  specialize (IH Hl).
  destruct (e_status e); simpl in *; try discriminate; lia.
Qed.

Lemma counts_le l :
  (countStatus Delivered l + countStatus Failed l <= List.length l)%nat.
Proof.
  unfold countStatus, hasStatus.
  induction l as [|e l IH]; simpl; [lia|].
  destruct (e_status e); simpl; lia.
Qed.

(** The status the effect computes is the precedence of the
    specification with the number of related deliveries as [total]. *)
Lemma nextStatus_spec related broadcast :
  related <> [] ->
  nextStatus related broadcast
  = Spec.aggregatedStatus (List.length related) related broadcast.
Proof.
  intros Hne. unfold nextStatus, Spec.aggregatedStatus, countStatus.
  change (fun task => DeliveryStatus_eqb (e_status task) Failed)
    with (hasStatus Failed).
  change (fun task => DeliveryStatus_eqb (e_status task) Delivered)
    with (hasStatus Delivered).
  rewrite filter_keeps_all.
  assert (Hlen : (List.length related =? 0)%nat = false)
    by (destruct related; [congruence | reflexivity]).
  rewrite Hlen. simpl. rewrite andb_true_r. reflexivity.
Qed.

(** What [aggregate] returns for a broadcast that has deliveries, field
    by field; returning the broadcast itself is the case in which the
    three recomputed fields are the stored ones. *)
Lemma aggregate_fields ds broadcast :
  relatedEntries ds broadcast <> [] ->
  aggregate ds broadcast
  = {| b_id := b_id broadcast;
       b_label := b_label broadcast;
       b_templateId := b_templateId broadcast;
       b_target := b_target broadcast;
       b_scheduledFor := b_scheduledFor broadcast;
       b_createdAt := b_createdAt broadcast;
       b_status := nextStatus (relatedEntries ds broadcast) broadcast;
       b_totalRecipients := b_totalRecipients broadcast;
       b_delivered := countStatus Delivered (relatedEntries ds broadcast);
       b_failed := countStatus Failed (relatedEntries ds broadcast) |}.
Proof.
  intros Hne. unfold aggregate.
  destruct (relatedEntries ds broadcast) as [|e related] eqn:E;
    [congruence|].
  destruct (BroadcastStatus_eqb _ _ && _ && _) eqn:Hsame; [|reflexivity].
  apply andb_true_iff in Hsame. destruct Hsame as [Hsame Hf].
  apply andb_true_iff in Hsame. destruct Hsame as [Hs Hd].
  apply BroadcastStatus_eqb_eq in Hs.
  apply Nat.eqb_eq in Hd, Hf.
  rewrite Hs, Hd, Hf. destruct broadcast; reflexivity.
Qed.

Lemma aggregate_unrelated ds broadcast :
  relatedEntries ds broadcast = [] -> aggregate ds broadcast = broadcast.
Proof. unfold aggregate. intros ->. reflexivity. Qed.

End Aggregation.

(** For a broadcast with at least one delivery the aggregation effect
    leaves every other field alone, sets [delivered] and [failed] to the
    numbers of deliveries in those states and sets the status by the
    precedence of the specification, in which it compares the terminal
    deliveries with the number of deliveries of the broadcast. *)
Lemma aggregate_by_related_count ds broadcast :
  Page.relatedEntries ds broadcast <> [] ->
  Page.aggregate ds broadcast
  = {| b_id := b_id broadcast;
       b_label := b_label broadcast;
       b_templateId := b_templateId broadcast;
       b_target := b_target broadcast;
       b_scheduledFor := b_scheduledFor broadcast;
       b_createdAt := b_createdAt broadcast;
       b_status :=
         Spec.aggregatedStatus
           (List.length (Page.relatedEntries ds broadcast))
           (Page.relatedEntries ds broadcast) broadcast;
       b_totalRecipients := b_totalRecipients broadcast;
       b_delivered :=
         List.length
           (filter (fun e => DeliveryStatus_eqb (e_status e) Delivered)
                   (Page.relatedEntries ds broadcast));
       b_failed :=
         List.length
           (filter (fun e => DeliveryStatus_eqb (e_status e) Failed)
                   (Page.relatedEntries ds broadcast)) |}.
Proof.
  intros Hne.
  rewrite (aggregate_fields ds broadcast Hne).
  rewrite (nextStatus_spec _ broadcast Hne). reflexivity.
Qed.

(* ================================================================== *)
(** * Dispatch and the reachable stores *)
(* ================================================================== *)

Section Dispatch.
Import Composer Page Invariant.

Lemma filter_map_commute {A} (p : A -> bool) (g : A -> A) l :
  (forall x, p (g x) = p x) ->
  filter p (map g l) = map g (filter p l).
Proof.
  intros Hp. induction l as [|x l IH]; simpl; [reflexivity|].
  rewrite Hp. destruct (p x); simpl; now rewrite IH.
Qed.

Lemma markSending_id id t e : e_id (markSending id t e) = e_id e.
Proof. unfold markSending. destruct (String.eqb _ _); reflexivity. Qed.

Lemma markSending_broadcastId id t e :
  e_broadcastId (markSending id t e) = e_broadcastId e.
Proof. unfold markSending. destruct (String.eqb _ _); reflexivity. Qed.

Lemma markDone_id id fl t e : e_id (markDone id fl t e) = e_id e.
Proof. unfold markDone. destruct (String.eqb _ _); reflexivity. Qed.

Lemma markDone_broadcastId id fl t e :
  e_broadcastId (markDone id fl t e) = e_broadcastId e.
Proof. unfold markDone. destruct (String.eqb _ _); reflexivity. Qed.

(** The timeout leaves a delivery as it was or in a terminal state. *)
Lemma markDone_terminal id fl t e :
  terminal e -> terminal (markDone id fl t e).
Proof.
  unfold markDone, terminal. intros H.
  destruct (String.eqb _ _); [|exact H].
  destruct fl; simpl; auto.
Qed.

Lemma relatedEntries_map g ds b :
  (forall e, e_broadcastId (g e) = e_broadcastId e) ->
  relatedEntries (map g ds) b = map g (relatedEntries ds b).
Proof.
  intros Hg. unfold relatedEntries. apply filter_map_commute.
  intros e. now rewrite Hg.
Qed.

Lemma relatedEntries_app ds1 ds2 b :
  relatedEntries (ds1 ++ ds2) b
  = (relatedEntries ds1 b ++ relatedEntries ds2 b)%list.
Proof. unfold relatedEntries. apply filter_app. Qed.

Lemma relatedEntries_none ds b :
  ~ In (b_id b) (map e_broadcastId ds) -> relatedEntries ds b = [].
Proof.
  unfold relatedEntries. induction ds as [|e ds IH]; simpl; intros H;
    [reflexivity|].
  destruct (String.eqb (e_broadcastId e) (b_id b)) eqn:E.
  - apply String.eqb_eq in E. exfalso. apply H. now left.
  - apply IH. intros Hin. apply H. now right.
Qed.

Lemma relatedEntries_all ds b :
  Forall (fun e => e_broadcastId e = b_id b) ds ->
  relatedEntries ds b = ds.
Proof.
  unfold relatedEntries. induction 1 as [|e ds He _ IH]; simpl;
    [reflexivity|].
  rewrite He, String.eqb_refl. now rewrite IH.
Qed.

Lemma relatedEntries_other ds b id :
  Forall (fun e => e_broadcastId e = id) ds -> b_id b <> id ->
  relatedEntries ds b = [].
Proof.
  unfold relatedEntries. induction 1 as [|e ds He _ IH]; simpl; intros Hne;
    [reflexivity|].
  rewrite He. destruct (String.eqb id (b_id b)) eqn:E.
  - apply String.eqb_eq in E. congruence.
  - now apply IH.
Qed.

Lemma relatedEntries_In ds b e :
  In e (relatedEntries ds b) <-> In e ds /\ e_broadcastId e = b_id b.
Proof.
  unfold relatedEntries. rewrite filter_In, String.eqb_eq. tauto.
Qed.

(** Two deliveries of a store with the same identifier are one. *)
Lemma same_id_same_entry ds e1 e2 :
  NoDup (map e_id ds) -> In e1 ds -> In e2 ds -> e_id e1 = e_id e2 ->
  e1 = e2.
Proof.
  induction ds as [|e ds IH]; simpl; intros Hnd H1 H2 Heq; [tauto|].
  apply NoDup_cons_iff in Hnd. destruct Hnd as [Hnot Hnd].
  destruct H1 as [-> | H1], H2 as [-> | H2]; auto.
  - exfalso. apply Hnot. rewrite Heq. now apply in_map.
  - exfalso. apply Hnot. rewrite <- Heq. now apply in_map.
Qed.

Lemma mkDelivery_ids nanoid b f xs :
  forall i, map e_id (mapIndexed (mkDelivery nanoid b f) i xs)
            = map nanoid (seq (S i) (List.length xs)).
Proof.
  induction xs as [|x xs IH]; intros i; simpl; [reflexivity|].
  now rewrite IH.
Qed.

(** The status computed for a broadcast with deliveries is never one of
    the last two rules: deliveries out of flight are all counted. *)
Lemma nextStatus_cases related b :
  (nextStatus related b = BFailed /\
   countStatus Failed related = List.length related /\
   countStatus Delivered related = 0%nat)
  \/ (nextStatus related b = BInProgress /\ inFlight related = true)
  \/ (nextStatus related b = BCompleted /\ inFlight related = false).
Proof.
  unfold nextStatus.
  destruct ((countStatus Failed related =? List.length related)%nat
            && (countStatus Delivered related =? 0)%nat) eqn:E1.
  - left. apply andb_true_iff in E1. destruct E1 as [E1 E2].
    apply Nat.eqb_eq in E1, E2. auto.
  - destruct (inFlight related) eqn:E2; [right; left; auto|].
    right; right. pose proof (terminal_counts related E2) as Hc.
    rewrite Hc, Nat.leb_refl. auto.
Qed.

Lemma not_inFlight_terminal related e :
  inFlight related = false -> In e related -> terminal e.
Proof.
  unfold inFlight, hasStatus, terminal. intros H Hin.
  destruct (e_status e) eqn:E; auto; exfalso;
    assert (existsb
              (fun entry =>
                 DeliveryStatus_eqb (e_status entry) Pending
                 || DeliveryStatus_eqb (e_status entry) Sending) related
            = true)
      by (apply existsb_exists; exists e; rewrite E; auto);
    congruence.
Qed.

Lemma Inv_initial : Inv initialStore.
Proof.
  constructor; simpl; try (intros; tauto). constructor.
Qed.

Lemma aggregate_id ds b : b_id (aggregate ds b) = b_id b.
Proof.
  destruct (relatedEntries ds b) eqn:E.
  - now rewrite aggregate_unrelated.
  - rewrite aggregate_fields; [reflexivity | congruence].
Qed.

Lemma aggregate_total ds b :
  b_totalRecipients (aggregate ds b) = b_totalRecipients b.
Proof.
  destruct (relatedEntries ds b) eqn:E.
  - now rewrite aggregate_unrelated.
  - rewrite aggregate_fields; [reflexivity | congruence].
Qed.

Lemma relatedEntries_aggregate ds ds' b :
  relatedEntries ds (aggregate ds' b) = relatedEntries ds b.
Proof. unfold relatedEntries. now rewrite aggregate_id. Qed.

Lemma Inv_Restored st : Inv st -> Restored st.
Proof. intros [H1 H2 H3 H4 H5]. now constructor. Qed.

Lemma Restored_ext st st' :
  broadcasts st' = broadcasts st -> deliveries st' = deliveries st ->
  Restored st -> Restored st'.
Proof.
  intros Hb Hd [H1 H2 H3 H4].
  constructor; rewrite ?Hb, ?Hd; assumption.
Qed.

(** A broadcast that has deliveries has as many as it records
    recipients. *)
Lemma whole_related ds b :
  whole ds b -> relatedEntries ds b <> [] ->
  List.length (relatedEntries ds b) = b_totalRecipients b.
Proof.
  intros [H | H] Hne; [|exact H].
  destruct (relatedEntries ds b); [congruence | discriminate].
Qed.

(** The aggregation effect sets right what a reload has read: it needs
    nothing of the status it finds. *)
Lemma Restored_aggregation st : Restored st -> Inv (aggregationEffect st).
Proof.
  intros [H1 H2 H3 H5]. constructor; simpl; [assumption| | | |];
    intros b' Hin; apply in_map_iff in Hin;
    destruct Hin as (b & <- & Hin); unfold whole;
    rewrite ?relatedEntries_aggregate, ?aggregate_total.
  - now apply H2.
  - destruct (relatedEntries (deliveries st) b) as [|d l] eqn:E.
    + rewrite aggregate_unrelated by assumption. now apply H3.
    + rewrite aggregate_fields by congruence. simpl.
      rewrite <- (whole_related _ _ (H2 b Hin)) by congruence.
      rewrite E. apply counts_le.
  - destruct (relatedEntries (deliveries st) b) as [|d l] eqn:E.
    + intros _ e [].
    + rewrite aggregate_fields by congruence. simpl. rewrite E.
      intros Hs e He.
      destruct (nextStatus_cases (d :: l) b)
        as [(Hn & _) | [(Hn & _) | (_ & Hfl)]]; try congruence.
      now apply (not_inFlight_terminal (d :: l)).
  - destruct (relatedEntries (deliveries st) b) as [|d l] eqn:E.
    + rewrite aggregate_unrelated by assumption. now apply H5.
    + rewrite aggregate_fields by congruence. simpl. rewrite E.
      intros Hs.
      destruct (nextStatus_cases (d :: l) b)
        as [(_ & Hf & Hd) | [(Hn & _) | (Hn & _)]]; try congruence.
      rewrite Hd, Hf. rewrite <- (whole_related _ _ (H2 b Hin))
        by congruence.
      rewrite E. auto.
Qed.

(** Rewriting deliveries in place, keeping their identifiers and their
    broadcasts and leaving the terminal ones terminal, keeps the
    invariant. *)
Lemma Inv_map g st st' :
  (forall e, e_id (g e) = e_id e) ->
  (forall e, e_broadcastId (g e) = e_broadcastId e) ->
  (forall e, In e (deliveries st) -> terminal e -> terminal (g e)) ->
  broadcasts st' = broadcasts st ->
  deliveries st' = map g (deliveries st) ->
  Inv st -> Inv st'.
Proof.
  intros Hid Hbid Hterm Hb Hd [H1 H2 H3 H4 H5].
  constructor; rewrite ?Hb, ?Hd; try assumption.
  - rewrite map_map.
    rewrite (map_ext (fun x => e_id (g x)) e_id) by exact Hid.
    assumption.
  - intros b Hin. unfold whole. rewrite relatedEntries_map by exact Hbid.
    rewrite length_map. now apply H2.
  - intros b Hin Hs e' He'.
    rewrite relatedEntries_map in He' by exact Hbid.
    apply in_map_iff in He'. destruct He' as (e & <- & He).
    apply Hterm.
    + apply relatedEntries_In in He. tauto.
    + now apply (H4 b Hin Hs).
Qed.

Lemma eligible_pending now e : eligible now e = true -> e_status e = Pending.
Proof.
  unfold eligible, hasStatus. intros H.
  apply andb_true_iff in H. destruct H as [H _].
  now apply DeliveryStatus_eqb_eq.
Qed.

Lemma Inv_dispatch now startIso shouldFail st :
  Inv st -> Inv (dispatchEffect now startIso shouldFail st).
Proof.
  intros HI. unfold dispatchEffect.
  destruct (processingRef st); [assumption|].
  destruct (find (eligible now) (deliveries st)) as [next|] eqn:E;
    [|assumption].
  apply find_some in E. destruct E as [Hnext Hel].
  apply eligible_pending in Hel.
  eapply (Inv_map (markSending (e_id next) startIso) st);
    [apply markSending_id | apply markSending_broadcastId | |
     reflexivity | reflexivity | assumption].
  intros e He Ht. unfold markSending.
  destruct (String.eqb (e_id e) (e_id next)) eqn:Eid; [|assumption].
  apply String.eqb_eq in Eid.
  assert (e = next)
    by (eapply same_id_same_entry; eauto using inv_ids).
  subst e. destruct Ht; congruence.
Qed.

Lemma Inv_timeout completedAt st : Inv st -> Inv (timeoutFires completedAt st).
Proof.
  intros HI. unfold timeoutFires.
  destruct (timeout st) as [[id shouldFail]|]; [|assumption].
  eapply (Inv_map (markDone id shouldFail completedAt) st);
    [apply markDone_id | apply markDone_broadcastId | |
     reflexivity | reflexivity | assumption].
  intros e _. apply markDone_terminal.
Qed.

Lemma Restored_effects now startIso shouldFail st :
  Restored st -> Inv (runEffects now startIso shouldFail st).
Proof.
  intros HR. unfold runEffects. apply Inv_dispatch, Restored_aggregation.
  simpl. destruct (cleanup st); eapply Restored_ext; try eassumption;
    reflexivity.
Qed.

Lemma Inv_effects now startIso shouldFail st :
  Inv st -> Inv (runEffects now startIso shouldFail st).
Proof. intros HI. now apply Restored_effects, Inv_Restored. Qed.

Lemma mkDelivery_broadcastId nanoid b f xs :
  forall i, Forall (fun e => e_broadcastId e = b_id b)
                   (mapIndexed (mkDelivery nanoid b f) i xs).
Proof. apply mapIndexed_Forall. reflexivity. Qed.

(** What a launch adds: a broadcast of the new identifier that records
    as many recipients as there are new deliveries, all of them its
    own, none of them of a broadcast that was there. *)
Lemma launch_shape isoNow nanoid f nb es :
  buildLaunch isoNow nanoid f = Some (nb, es) ->
  b_id nb = nanoid 0%nat /\
  Forall (fun e => e_broadcastId e = b_id nb) es /\
  List.length es = b_totalRecipients nb /\
  map e_id es
  = map nanoid (seq 1 (List.length (filteredContacts f))) /\
  (b_delivered nb + b_failed nb <= b_totalRecipients nb)%nat /\
  b_status nb <> BCompleted /\ b_status nb <> BFailed.
Proof.
  intros E.
  assert (G : buildLaunch isoNow nanoid f <> None) by congruence.
  apply buildLaunch_guards in G. destruct G as (Hl & Hm & Ha & Hc).
  assert (Hk : (1 <= List.length (filteredContacts f))%nat)
    by (destruct (filteredContacts f); [congruence | simpl; lia]).
  destruct (buildLaunch_accepted isoNow nanoid f Hl Hm Ha Hk)
    as (nb' & es' & E' & Hid & Hes & Ht & Hd & Hf & Hs).
  rewrite E in E'. injection E' as <- <-.
  split; [exact Hid|].
  split; [subst es; apply mkDelivery_broadcastId|].
  split; [subst es; rewrite mapIndexed_length; congruence|].
  split; [subst es; apply mkDelivery_ids|].
  split; [lia|].
  rewrite Hs. split; destruct (scheduledFor f); discriminate.
Qed.

(** A launch with identifiers of its own keeps the invariant. *)
Lemma Inv_submit isoNow nanoid f st :
  freshIds nanoid (List.length (filteredContacts f)) st ->
  Inv st -> Inv (snd (handleSubmit isoNow nanoid (f, st))).
Proof.
  intros (Fb & Fd & Fnd & Fe) HI.
  destruct (buildLaunch isoNow nanoid f) as [[nb es]|] eqn:E.
  2:{ rewrite handleSubmit_rejected by exact E. exact HI. }
  rewrite (handleSubmit_launched _ _ _ st _ _ E). simpl.
  destruct (launch_shape _ _ _ _ _ E)
    as (Hid & Hall & Hlen & Hids & Hcount & Hnc & Hnf).
  assert (Hrel : relatedEntries es nb = es)
    by (now apply relatedEntries_all).
  assert (Hold : forall b, In b (broadcasts st) ->
                           relatedEntries es b = []).
  { intros b Hin. apply (relatedEntries_other es b (b_id nb)).
    - exact Hall.
    - intros Heq. apply Fb. rewrite <- Hid, <- Heq. now apply in_map. }
  destruct HI as [H1 H2 H3 H4 H5].
  constructor; simpl.
  - rewrite map_app. apply NoDup_app; [assumption | |].
    + now rewrite Hids.
    + intros id Hin1 Hin2. rewrite Hids in Hin2.
      apply in_map_iff in Hin2. destruct Hin2 as (i & <- & Hi).
      apply in_seq in Hi. apply (Fe i); [lia | assumption].
  - intros b [<- | Hin]; unfold whole; rewrite relatedEntries_app.
    + rewrite relatedEntries_none by (now rewrite Hid).
      simpl. rewrite Hrel. now right.
    + rewrite (Hold b Hin), app_nil_r. now apply H2.
  - intros b [<- | Hin]; [exact Hcount | now apply H3].
  - intros b [<- | Hin] Hst; [congruence|].
    rewrite relatedEntries_app, (Hold b Hin), app_nil_r.
    now apply H4.
  - intros b [<- | Hin] Hst; [congruence | now apply H5].
Qed.

Lemma step_Inv a a' : step a a' -> Inv (snd a) -> Inv (snd a').
Proof.
  destruct 1; simpl; intros HI.
  - assumption.
  - destruct a as [f st]. now apply Inv_submit.
  - now apply Inv_effects.
  - now apply Inv_timeout.
Qed.

(** ** The storage *)

Lemma dispatchEffect_broadcasts now startIso shouldFail st :
  broadcasts (dispatchEffect now startIso shouldFail st) = broadcasts st.
Proof.
  unfold dispatchEffect. destruct (processingRef st); [reflexivity|].
  destruct (find (eligible now) (deliveries st)); reflexivity.
Qed.

Lemma runEffects_broadcasts now startIso shouldFail st :
  broadcasts (runEffects now startIso shouldFail st)
  = map (aggregate (deliveries st)) (broadcasts st).
Proof.
  unfold runEffects. rewrite dispatchEffect_broadcasts. simpl.
  destruct (cleanup st); reflexivity.
Qed.

(** The effects leave every delivery with its broadcast. *)
Lemma runEffects_broadcastIds now startIso shouldFail st :
  map e_broadcastId (deliveries (runEffects now startIso shouldFail st))
  = map e_broadcastId (deliveries st).
Proof.
  unfold runEffects, dispatchEffect. simpl.
  destruct (cleanup st); simpl;
    [|destruct (processingRef st); simpl; [reflexivity|]];
    (destruct (find (eligible now) (deliveries st)); simpl;
     [|reflexivity]);
    rewrite map_map; apply map_ext; intros e;
    apply markSending_broadcastId.
Qed.

(** How many deliveries a broadcast has depends on its identifier and
    on the broadcasts the deliveries name. *)
Lemma related_length_keys ds :
  forall ds' b b',
    map e_broadcastId ds' = map e_broadcastId ds -> b_id b' = b_id b ->
    List.length (relatedEntries ds' b') = List.length (relatedEntries ds b).
Proof.
  unfold relatedEntries.
  induction ds as [|e ds IH]; intros [|e' ds'] b b' Hm Hb;
    try discriminate; [reflexivity|].
  simpl in Hm. injection Hm as He Hm. simpl. rewrite He, Hb.
  destruct (String.eqb (e_broadcastId e) (b_id b)); simpl;
    now rewrite (IH ds' b b Hm eq_refl).
Qed.

Lemma whole_keys ds ds' b b' :
  map e_broadcastId ds' = map e_broadcastId ds -> b_id b' = b_id b ->
  b_totalRecipients b' = b_totalRecipients b ->
  whole ds b -> whole ds' b'.
Proof.
  intros Hm Hb Ht. unfold whole.
  now rewrite (related_length_keys ds ds' b b' Hm Hb), Ht.
Qed.

(** What holds of the storage depends on the store only through the
    identifiers and the recipients of its broadcasts and through the
    broadcasts its deliveries name. *)
Lemma Stored_keys st st' disk :
  map b_id (broadcasts st') = map b_id (broadcasts st) ->
  (forall b', In b' (broadcasts st') ->
     exists b, In b (broadcasts st) /\ b_id b' = b_id b
               /\ b_totalRecipients b' = b_totalRecipients b) ->
  map e_broadcastId (deliveries st') = map e_broadcastId (deliveries st) ->
  Stored st disk -> Stored st' disk.
Proof.
  intros Hb Hbs Hd [S1 S2 S3 S4 S5 S6 S7].
  constructor; try assumption.
  - intros bs E. rewrite Hb. now apply S1.
  - intros ds E. rewrite Hd. now apply S2.
  - intros bs E b Hin.
    apply (whole_keys (deliveries st) _ b b Hd eq_refl eq_refl).
    now apply (S6 bs).
  - intros ds E b' Hin. destruct (Hbs b' Hin) as (b & Hin' & Hid & Ht).
    apply (whole_keys ds ds b b' eq_refl Hid Ht). now apply (S7 ds).
Qed.

Lemma Stored_effects now startIso shouldFail st disk :
  Stored st disk -> Stored (runEffects now startIso shouldFail st) disk.
Proof.
  apply Stored_keys.
  - rewrite runEffects_broadcasts, map_map. apply map_ext. intros b.
    apply aggregate_id.
  - intros b' Hin. rewrite runEffects_broadcasts in Hin.
    apply in_map_iff in Hin. destruct Hin as (b & <- & Hin).
    exists b. split; [exact Hin|].
    split; [apply aggregate_id | apply aggregate_total].
  - apply runEffects_broadcastIds.
Qed.

Lemma Stored_timeout completedAt st disk :
  Stored st disk -> Stored (timeoutFires completedAt st) disk.
Proof.
  unfold timeoutFires.
  destruct (timeout st) as [[id shouldFail]|]; [|auto].
  apply Stored_keys; simpl.
  - reflexivity.
  - intros b Hin. exists b. auto.
  - rewrite map_map. apply map_ext. intros e. apply markDone_broadcastId.
Qed.

(** The identifier of a launch is new to the store, hence to the
    storage. *)
Lemma Stored_submit isoNow nanoid f st disk :
  freshIds nanoid (List.length (filteredContacts f)) st ->
  Stored st disk -> Stored (snd (handleSubmit isoNow nanoid (f, st))) disk.
Proof.
  intros (Fb & Fd & _) HS.
  destruct (buildLaunch isoNow nanoid f) as [[nb es]|] eqn:E.
  2:{ rewrite handleSubmit_rejected by exact E. exact HS. }
  rewrite (handleSubmit_launched _ _ _ st _ _ E). simpl.
  destruct (launch_shape _ _ _ _ _ E) as (Hid & Hall & _).
  destruct HS as [S1 S2 S3 S4 S5 S6 S7].
  constructor; simpl; try assumption.
  - intros bs Ebs id Hin. right. now apply (S1 bs).
  - intros ds Eds id Hin. rewrite map_app. apply in_or_app. left.
    now apply (S2 ds).
  - intros bs Ebs b Hin. unfold whole. rewrite relatedEntries_app.
    rewrite (relatedEntries_other es b (b_id nb)), app_nil_r.
    + now apply (S6 bs).
    + exact Hall.
    + intros Heq. apply Fb. rewrite <- Hid, <- Heq.
      apply (S1 bs Ebs). now apply in_map.
  - intros ds Eds b [<- | Hin]; [|now apply (S7 ds)].
    left. rewrite relatedEntries_none; [reflexivity|].
    rewrite Hid. intros Hin. apply Fd. now apply (S2 ds).
Qed.

Lemma step_Stored a a' disk :
  step a a' -> Stored (snd a) disk -> Stored (snd a') disk.
Proof.
  destruct 1; simpl; intros HS.
  - assumption.
  - destruct a as [f st]. now apply Stored_submit.
  - now apply Stored_effects.
  - now apply Stored_timeout.
Qed.

(** A write stores collections of which the invariant holds. *)
Lemma Stored_persist storesBroadcasts storesDeliveries st disk :
  Inv st -> Stored st disk ->
  Stored st (persist storesBroadcasts storesDeliveries st disk).
Proof.
  intros [H1 H2 H3 H4 H5] [S1 S2 S3 S4 S5 S6 S7].
  constructor; unfold persist; simpl.
  - intros bs E. destruct storesBroadcasts; [|now apply S1].
    injection E as <-. apply incl_refl.
  - intros ds E. destruct storesDeliveries; [|now apply S2].
    injection E as <-. apply incl_refl.
  - intros ds E. destruct storesDeliveries; [|now apply S3].
    now injection E as <-.
  - intros bs E b Hin. destruct storesBroadcasts; [|now apply (S4 bs)].
    injection E as <-. split; [now apply H3 | now apply H5].
  - intros bs ds Eb Ed b Hin.
    destruct storesBroadcasts, storesDeliveries.
    + injection Eb as <-. injection Ed as <-. now apply H2.
    + injection Eb as <-. now apply (S7 ds).
    + injection Ed as <-. now apply (S6 bs).
    + now apply (S5 bs ds).
  - intros bs E b Hin. destruct storesBroadcasts; [|now apply (S6 bs)].
    injection E as <-. now apply H2.
  - intros ds E b Hin. destruct storesDeliveries; [|now apply (S7 ds)].
    injection E as <-. now apply H2.
Qed.

Lemma Stored_forget losesBroadcasts losesDeliveries st disk :
  Stored st disk -> Stored st (forget losesBroadcasts losesDeliveries disk).
Proof.
  intros [S1 S2 S3 S4 S5 S6 S7].
  constructor; unfold forget; simpl.
  - intros bs E. destruct losesBroadcasts; [discriminate | now apply S1].
  - intros ds E. destruct losesDeliveries; [discriminate | now apply S2].
  - intros ds E. destruct losesDeliveries; [discriminate | now apply S3].
  - intros bs E. destruct losesBroadcasts; [discriminate | now apply S4].
  - intros bs ds Eb Ed.
    destruct losesBroadcasts; [discriminate|].
    destruct losesDeliveries; [discriminate | now apply S5].
  - intros bs E. destruct losesBroadcasts; [discriminate | now apply S6].
  - intros ds E. destruct losesDeliveries; [discriminate | now apply S7].
Qed.

(** What a reload reads. *)
Lemma Stored_remount st disk : Stored st disk -> Stored (remount disk) disk.
Proof.
  intros [S1 S2 S3 S4 S5 S6 S7].
  constructor; try assumption; unfold remount; simpl.
  - intros bs E. rewrite E. apply incl_refl.
  - intros ds E. rewrite E. apply incl_refl.
  - intros bs E b Hin.
    destruct (storedDeliveries disk) as [ds|] eqn:Ed; simpl.
    + now apply (S5 bs ds).
    + now left.
  - intros ds E b Hin.
    destruct (storedBroadcasts disk) as [bs|] eqn:Eb; simpl in Hin;
      [now apply (S5 bs ds) | destruct Hin].
Qed.

Lemma Restored_remount st disk : Stored st disk -> Restored (remount disk).
Proof.
  intros [S1 S2 S3 S4 S5 S6 S7].
  constructor; unfold remount; simpl.
  - destruct (storedDeliveries disk) as [ds|]; simpl;
      [now apply S3 | constructor].
  - intros b Hin.
    destruct (storedBroadcasts disk) as [bs|] eqn:Eb; simpl in Hin;
      [|destruct Hin].
    destruct (storedDeliveries disk) as [ds|] eqn:Ed; simpl.
    + now apply (S5 bs ds).
    + now left.
  - intros b Hin.
    destruct (storedBroadcasts disk) as [bs|] eqn:Eb; simpl in Hin;
      [|destruct Hin].
    now apply (S4 bs).
  - intros b Hin.
    destruct (storedBroadcasts disk) as [bs|] eqn:Eb; simpl in Hin;
      [|destruct Hin].
    now apply (S4 bs).
Qed.

Lemma Stored_initial : Stored initialStore emptyDisk.
Proof. constructor; simpl; intros; discriminate. Qed.

(** ** The reachable stores *)

Lemma running_Inv a disk :
  running a disk -> Inv (snd a) /\ Stored (snd a) disk.
Proof.
  induction 1 as [f | a a' disk _ [HI HS] Hstep
                  | a disk wb wd _ [HI HS]
                  | a disk lb ld _ [HI HS]
                  | a disk f' now startIso shouldFail _ [HI HS]]; simpl.
  - split; [apply Inv_initial | apply Stored_initial].
  - split; [eapply step_Inv | eapply step_Stored]; eassumption.
  - split; [assumption | now apply Stored_persist].
  - split; [assumption | now apply Stored_forget].
  - split.
    + eapply Restored_effects, Restored_remount. eassumption.
    + eapply Stored_effects, Stored_remount. eassumption.
Qed.

Lemma reach_init f : reachable (f, initialStore).
Proof. exists emptyDisk. constructor. Qed.

Lemma reach_step a a' : reachable a -> step a a' -> reachable a'.
Proof. intros (disk & Hr) Hstep. exists disk. now apply (run_step a). Qed.

Lemma reachable_Inv a : reachable a -> Inv (snd a).
Proof. intros (disk & Hr). now apply (running_Inv a disk). Qed.

(** On the page as it runs a broadcast that has deliveries has as many
    as it records recipients, so the effect and the wording of the
    specification, which compares with [totalRecipients], agree there. *)
Lemma aggregate_status_reachable a broadcast :
  reachable a -> In broadcast (broadcasts (snd a)) ->
  relatedEntries (deliveries (snd a)) broadcast <> [] ->
  b_status (aggregate (deliveries (snd a)) broadcast)
  = Spec.aggregatedStatus (b_totalRecipients broadcast)
      (relatedEntries (deliveries (snd a)) broadcast) broadcast.
Proof.
  intros Hr Hin Hne.
  rewrite aggregate_fields by exact Hne. simpl.
  rewrite nextStatus_spec by exact Hne.
  now rewrite (whole_related _ _
                 (inv_total _ (reachable_Inv a Hr) broadcast Hin) Hne).
Qed.

(** The busy flag does not hold the effect back: the cleanup of the
    previous run has lowered it, whatever is being sent. *)
Lemma dispatch_after_cleanup now startIso shouldFail st next :
  cleanup st = true ->
  find (eligible now) (deliveries st) = Some next ->
  deliveries (runEffects now startIso shouldFail st)
  = map (markSending (e_id next) startIso) (deliveries st).
Proof.
  intros Hc Hnext. unfold runEffects. simpl. rewrite Hc.
  unfold dispatchEffect. simpl. rewrite Hnext. reflexivity.
Qed.

End Dispatch.

(** C7: in every store the page can reach, every broadcast has
    [delivered + failed <= totalRecipients]; if its status is [completed],
    every delivery that refers to it is delivered or failed; if its status
    is [failed], it has [delivered = 0] and [failed = totalRecipients]. *)
Theorem aggregated_broadcast_invariant :
  forall a,
    Page.reachable a ->
    forall b,
      In b (Page.broadcasts (snd a)) ->
      (b_delivered b + b_failed b <= b_totalRecipients b)%nat
      /\ (b_status b = BCompleted ->
          forall e, In e (Page.deliveries (snd a)) ->
                    e_broadcastId e = b_id b ->
                    e_status e = Delivered \/ e_status e = Failed)
      /\ (b_status b = BFailed ->
          b_delivered b = 0%nat /\ b_failed b = b_totalRecipients b).
Proof.
  intros a Hr b Hin.
  destruct (reachable_Inv a Hr) as [_ _ H3 H4 H5].
  split; [now apply H3 | split].
  - intros Hs e He Hb. apply (H4 b Hin Hs). apply relatedEntries_In. auto.
  - now apply H5.
Qed.

Section Traces.
Import Page.

Lemma sampleIds_fresh k st :
  (k <= 2)%nat -> broadcasts st = [] -> deliveries st = [] ->
  freshIds sampleIds k st.
Proof.
  intros Hk Hb Hd. unfold freshIds. rewrite Hb, Hd.
  repeat split; simpl; try tauto.
  destruct k as [|[|[|k]]]; simpl; try lia;
    repeat constructor; simpl; intuition discriminate.
Qed.

Lemma mounted_reachable f : reachable (mounted f).
Proof.
  eapply reach_step; [apply (reach_init f)|].
  apply step_effects. reflexivity.
Qed.

Lemma launched_reachable : reachable launched.
Proof.
  eapply reach_step; [apply (mounted_reachable twoForm)|].
  apply step_submit. apply sampleIds_fresh; [simpl; lia | reflexivity ..].
Qed.

Lemma secondCommit_reachable : reachable secondCommit.
Proof.
  assert (R1 : reachable (fst launched, snd launched))
    by (rewrite <- surjective_pairing; apply launched_reachable).
  assert (R2 : reachable firstCommit)
    by (eapply reach_step; [exact R1|]; apply step_effects; reflexivity).
  eapply reach_step; [exact R2|].
  apply (step_effects 20 20 false (fst firstCommit) (snd firstCommit)).
  reflexivity.
Qed.

Lemma relaunched_reachable : reachable relaunched.
Proof.
  unfold relaunched, inFlightRun.
  set (a1 := handleSubmit 5 sampleIds (mounted (sampleForm true))).
  set (st2 := runEffects 10 10 false (snd a1)).
  set (st3 := runEffects 20 20 false st2).
  assert (R1 : reachable (fst a1, snd a1)).
  { rewrite <- surjective_pairing. eapply reach_step;
      [apply (mounted_reachable (sampleForm true))|].
    apply step_submit.
    apply sampleIds_fresh; [simpl; lia | reflexivity ..]. }
  assert (R2 : reachable (fst a1, st2)).
  { eapply reach_step; [exact R1|]. apply step_effects. reflexivity. }
  assert (R3 : reachable (fst a1, st3)).
  { eapply reach_step; [exact R2|]. apply step_effects. reflexivity. }
  assert (R4 : reachable (sampleForm true, st3)).
  { eapply reach_step; [exact R3|]. apply step_edit. }
  set (a := handleSubmit 30 secondIds (sampleForm true, st3)).
  assert (R5 : reachable (fst a, snd a)).
  { rewrite <- surjective_pairing. eapply reach_step; [exact R4|].
    apply step_submit. unfold freshIds. simpl.
    repeat split; try (intros [H | []]; discriminate).
    - repeat constructor. simpl. tauto.
    - intros i Hi [H | []]. destruct i as [|[|i]]; try lia; discriminate. }
  eapply reach_step; [exact R5|]. apply step_effects. reflexivity.
Qed.

Lemma singleRun_reachable shouldFail : reachable (singleRun shouldFail).
Proof.
  unfold singleRun.
  set (a1 := handleSubmit 5 sampleIds (mounted (sampleForm true))).
  set (st2 := runEffects 10 10 shouldFail (snd a1)).
  set (st3 := timeoutFires 1500 st2).
  assert (R1 : reachable (fst a1, snd a1)).
  { rewrite <- surjective_pairing. eapply reach_step;
      [apply (mounted_reachable (sampleForm true))|].
    apply step_submit.
    apply sampleIds_fresh; [simpl; lia | reflexivity ..]. }
  assert (R2 : reachable (fst a1, st2)).
  { eapply reach_step; [exact R1|]. apply step_effects. reflexivity. }
  assert (R3 : reachable (fst a1, st3)).
  { eapply reach_step; [exact R2|].
    apply (step_timeout 1500 (fst a1) st2 "d1" shouldFail). reflexivity. }
  eapply reach_step; [exact R3|]. apply step_effects. reflexivity.
Qed.

Lemma reloaded_reachable : reachable reloaded.
Proof.
  exists halfStored. unfold reloaded, halfStored.
  apply (run_reload
           (Page.handleSubmit 5 sampleIds (mounted (sampleForm true)))).
  apply run_persist.
  apply (run_step (mounted (sampleForm true))).
  - apply (run_step (sampleForm true, initialStore));
      [apply run_init|].
    apply (step_effects 0 0 false). reflexivity.
  - apply step_submit.
    apply sampleIds_fresh; [simpl; lia | reflexivity ..].
Qed.

(** A reload can bring a broadcast back without its deliveries. *)
Example reload_without_deliveries :
  broadcasts (snd reloaded)
  = [mkBroadcast "b1" "Spring news" "custom" (TargetContacts ["c1"]) None 5
                 BInProgress 1 0 0]
  /\ deliveries (snd reloaded) = [].
Proof. split; reflexivity. Qed.

End Traces.

(** C3: on the page as it runs, for every broadcast that has at least
    one delivery, the aggregation effect leaves every other field alone,
    sets [delivered] and [failed] to the numbers of its deliveries in those
    states and sets the status by the precedence of the specification: all
    deliveries failed and none delivered gives [failed]; else one pending
    or sending gives [in_progress]; else [delivered + failed >=
    totalRecipients] gives [completed]; else a set [scheduledFor] gives
    [scheduled]; else the status stays.  The effect compares with the
    number of deliveries of the broadcast, which on the page is
    [totalRecipients] whenever the broadcast has deliveries at all. *)
Theorem aggregate_precedence :
  forall a broadcast,
    Page.reachable a ->
    In broadcast (Page.broadcasts (snd a)) ->
    Page.relatedEntries (Page.deliveries (snd a)) broadcast <> [] ->
    Page.aggregate (Page.deliveries (snd a)) broadcast
    = {| b_id := b_id broadcast;
         b_label := b_label broadcast;
         b_templateId := b_templateId broadcast;
         b_target := b_target broadcast;
         b_scheduledFor := b_scheduledFor broadcast;
         b_createdAt := b_createdAt broadcast;
         b_status :=
           Spec.aggregatedStatus
             (b_totalRecipients broadcast)
             (Page.relatedEntries (Page.deliveries (snd a)) broadcast)
             broadcast;
         b_totalRecipients := b_totalRecipients broadcast;
         b_delivered :=
           List.length
             (filter (fun e => DeliveryStatus_eqb (e_status e) Delivered)
                     (Page.relatedEntries (Page.deliveries (snd a))
                                          broadcast));
         b_failed :=
           List.length
             (filter (fun e => DeliveryStatus_eqb (e_status e) Failed)
                     (Page.relatedEntries (Page.deliveries (snd a))
                                          broadcast)) |}.
Proof.
  intros a broadcast Hr Hin Hne.
  rewrite (aggregate_by_related_count _ broadcast Hne).
  now rewrite (whole_related _ _
                 (Invariant.inv_total _ (reachable_Inv a Hr) broadcast Hin)
                 Hne).
Qed.

Lemma aggregate_precedence_witness :
  Page.aggregate (Page.deliveries (snd secondCommit))
    (mkBroadcast "b1" "Spring news" "custom" (TargetContacts ["c1"; "c2"])
                 None 5 BInProgress 2 0 0)
  = mkBroadcast "b1" "Spring news" "custom" (TargetContacts ["c1"; "c2"])
                None 5 BInProgress 2 0 0
  /\ Page.aggregate (Page.deliveries (snd (singleRun true)))
       (singleBroadcast true)
     = mkBroadcast "b1" "Spring news" "custom" (TargetContacts ["c1"])
                   None 5 BFailed 1 0 1.
Proof.
  split.
  - apply (aggregate_precedence secondCommit
             (mkBroadcast "b1" "Spring news" "custom"
                          (TargetContacts ["c1"; "c2"]) None 5 BInProgress
                          2 0 0)).
    + exact secondCommit_reachable.
    + left. reflexivity.
    + discriminate.
  - apply (aggregate_precedence (singleRun true) (singleBroadcast true)).
    + exact (singleRun_reachable true).
    + left. reflexivity.
    + discriminate.
Defined.

Lemma aggregated_broadcast_invariant_witness :
  (Page.broadcasts (snd (singleRun true)) = [singleBroadcast true]
   /\ (b_delivered (singleBroadcast true) + b_failed (singleBroadcast true)
        <= b_totalRecipients (singleBroadcast true))%nat
   /\ b_delivered (singleBroadcast true) = 0%nat
   /\ b_failed (singleBroadcast true)
      = b_totalRecipients (singleBroadcast true))
  /\ (Page.broadcasts (snd (singleRun false)) = [singleBroadcast false]
      /\ Forall (fun e => e_broadcastId e = b_id (singleBroadcast false) ->
                          e_status e = Delivered \/ e_status e = Failed)
                (Page.deliveries (snd (singleRun false)))).
Proof.
  split.
  - destruct (aggregated_broadcast_invariant (singleRun true)
                (singleRun_reachable true) (singleBroadcast true)
                (or_introl eq_refl)) as (H1 & _ & H3).
    split; [reflexivity|]. split; [exact H1|]. apply H3. reflexivity.
  - destruct (aggregated_broadcast_invariant (singleRun false)
                (singleRun_reachable false) (singleBroadcast false)
                (or_introl eq_refl)) as (_ & H2 & _).
    split; [reflexivity|]. apply Forall_forall. intros e He.
    apply (H2 eq_refl e He).
Defined.

(** C2 on the code.  First a launch to two contacts on a fresh page and
    the two commits that follow: the first marks the first delivery as
    sending and arms its timeout; the array it wrote makes the effect run
    again, its cleanup cancels that timeout and lowers the busy flag, and
    the body marks the second delivery as sending, so that two deliveries
    are sending at once.  Then a launch while a delivery is sending: the
    delivery of the new broadcast is marked as sending next to it. *)
Theorem two_deliveries_sending_at_once :
  (Page.reachable secondCommit
   /\ map e_status (Page.deliveries (snd launched)) = [Pending; Pending]
   /\ map e_status (Page.deliveries (snd firstCommit)) = [Sending; Pending]
   /\ Page.timeout (snd firstCommit) = Some ("d1", false)
   /\ Page.processingRef (snd firstCommit) = true
   /\ map e_status (Page.deliveries (snd secondCommit)) = [Sending; Sending]
   /\ Page.countStatus Sending (Page.deliveries (snd secondCommit)) = 2%nat
   /\ Page.timeout (snd secondCommit) = Some ("d2", false))
  /\ (Page.reachable relaunched
      /\ map (fun e => (e_broadcastId e, e_status e))
             (Page.deliveries (snd inFlightRun))
         = [("b1", Sending)]
      /\ map (fun e => (e_broadcastId e, e_status e))
             (Page.deliveries (snd relaunched))
         = [("b1", Sending); ("b2", Sending)]).
Proof.
  split.
  - split; [exact secondCommit_reachable|]. repeat split; reflexivity.
  - split; [exact relaunched_reachable|]. split; reflexivity.
Qed.

(* ================================================================== *)
(** * Personalisation *)
(* ================================================================== *)

Section Strings.
Import JsString.

Lemma append_nil_r s : s ++ "" = s.
Proof. induction s as [|c s IH]; simpl; [reflexivity | now rewrite IH]. Qed.

Lemma append_assoc s1 s2 s3 : (s1 ++ s2) ++ s3 = s1 ++ s2 ++ s3.
Proof.
  induction s1 as [|c s1 IH]; simpl; [reflexivity | now rewrite IH].
Qed.

Lemma length_append s1 s2 :
  String.length (s1 ++ s2) = (String.length s1 + String.length s2)%nat.
Proof.
  induction s1 as [|c s1 IH]; simpl; [reflexivity | now rewrite IH].
Qed.

Lemma toLowerCase_append s1 s2 :
  toLowerCase (s1 ++ s2) = toLowerCase s1 ++ toLowerCase s2.
Proof.
  induction s1 as [|c s1 IH]; simpl; [reflexivity | now rewrite IH].
Qed.

Lemma hasChar_append c s1 s2 :
  hasChar c (s1 ++ s2) = hasChar c s1 || hasChar c s2.
Proof.
  induction s1 as [|a s1 IH]; simpl; [reflexivity|].
  now rewrite IH, orb_assoc.
Qed.

Lemma take_append s rest : take (String.length s) (s ++ rest) = s.
Proof. induction s as [|c s IH]; simpl; [reflexivity | now rewrite IH]. Qed.

Lemma drop_append s rest : drop (String.length s) (s ++ rest) = rest.
Proof. induction s as [|c s IH]; simpl; [reflexivity | exact IH]. Qed.

Lemma toLowerChar_idempotent c :
  toLowerChar (toLowerChar c) = toLowerChar c.
Proof. each_ascii c. Qed.

Lemma toLowerChar_whiteSpace c :
  isWhiteSpace (toLowerChar c) = isWhiteSpace c.
Proof. each_ascii c. Qed.

Lemma toLowerChar_brace c :
  Ascii.eqb (toLowerChar c) "{" = Ascii.eqb c "{".
Proof. each_ascii c. Qed.

Lemma whiteSpace_not_brace c :
  isWhiteSpace c = true -> Ascii.eqb c "{" = false.
Proof. each_ascii c. Qed.

Lemma toLowerCase_hasBrace s :
  hasChar "{" (toLowerCase s) = hasChar "{" s.
Proof.
  induction s as [|c s IH]; simpl; [reflexivity|].
  now rewrite toLowerChar_brace, IH.
Qed.

Lemma allWhiteSpace_hasBrace s :
  allWhiteSpace s = true -> hasChar "{" s = false.
Proof.
  induction s as [|c s IH]; simpl; [reflexivity|]. intros H.
  apply andb_true_iff in H. destruct H as [Hc Hs].
  now rewrite (whiteSpace_not_brace c Hc), IH.
Qed.

End Strings.

Section Matching.
Import JsString Replace Composer Template.

Lemma skipWhiteSpace_append ws t :
  allWhiteSpace ws = true ->
  skipWhiteSpace (ws ++ t) = skipWhiteSpace t.
Proof.
  induction ws as [|c ws IH]; simpl; [reflexivity|]. intros H.
  apply andb_true_iff in H. destruct H as [Hc Hws].
  rewrite Hc. now apply IH.
Qed.

(** A name written in any letter case is matched, and what follows it
    is left. *)
Lemma matchNameCI_written name :
  forall written t,
    toLowerCase written = toLowerCase name ->
    matchNameCI name (written ++ t) = Some t.
Proof.
  induction name as [|a name IH]; intros [|b written] t H; simpl in *;
    try discriminate; [reflexivity|].
  injection H as Hc Hs. rewrite Hc, Ascii.eqb_refl. now apply IH.
Qed.

(** Only the lower case of the subject matters to the match. *)
Lemma matchNameCI_lower name :
  forall s, matchNameCI name (toLowerCase s) = None <->
            matchNameCI name s = None.
Proof.
  induction name as [|a name IH]; intros [|b s]; simpl;
    try tauto; try (split; discriminate).
  rewrite toLowerChar_idempotent.
  destruct (Ascii.eqb (toLowerChar a) (toLowerChar b)); [apply IH | tauto].
Qed.

(** The six names differ within their common length: the name of one
    token never matches where another one is written. *)
Lemma matchNameCI_other k k' written t :
  k <> k' ->
  toLowerCase written = toLowerCase (tokenName k') ->
  matchNameCI (tokenName k) (written ++ t) = None.
Proof.
  intros Hne Hw. apply matchNameCI_lower.
  rewrite toLowerCase_append, Hw.
  destruct k, k'; try congruence; reflexivity.
Qed.

(** A written name does not start with white space, so [\s*] stops in
    front of it. *)
Lemma skipWhiteSpace_written k written t :
  toLowerCase written = toLowerCase (tokenName k) ->
  skipWhiteSpace (written ++ t) = written ++ t.
Proof.
  intros Hw. destruct written as [|c written].
  - destruct k; discriminate.
  - simpl in *.
    assert (Hc : isWhiteSpace c = false).
    { rewrite <- toLowerChar_whiteSpace.
      destruct k; injection Hw as -> _; reflexivity. }
    now rewrite Hc.
Qed.

Lemma written_hasBrace k written :
  toLowerCase written = toLowerCase (tokenName k) ->
  hasChar "{" written = false.
Proof.
  intros Hw. rewrite <- toLowerCase_hasBrace, Hw.
  destruct k; reflexivity.
Qed.

(** The pattern of a token matches the placeholder as it is written,
    and all of it. *)
Lemma matchTokenRest_placeholder k written before after rest :
  wellFormed (Placeholder k written before after) = true ->
  matchTokenRest (tokenName k)
    (segmentText (Placeholder k written before after) ++ rest)
  = Some rest.
Proof.
  simpl. intros H.
  apply andb_true_iff in H. destruct H as [H Ha].
  apply andb_true_iff in H. destruct H as [Hw Hb].
  apply String.eqb_eq in Hw.
  unfold matchTokenRest. simpl.
  rewrite !append_assoc.
  rewrite (skipWhiteSpace_append before _ Hb).
  rewrite (skipWhiteSpace_written k written _ Hw).
  rewrite (matchNameCI_written _ written _ Hw).
  rewrite (skipWhiteSpace_append after _ Ha).
  reflexivity.
Qed.

Lemma matchToken_placeholder k written before after rest :
  wellFormed (Placeholder k written before after) = true ->
  matchToken (tokenName k)
    (segmentText (Placeholder k written before after) ++ rest)
  = Some (String.length (segmentText (Placeholder k written before after))).
Proof.
  intros H. unfold matchToken.
  rewrite (matchTokenRest_placeholder _ _ _ _ _ H).
  rewrite length_append. f_equal. lia.
Qed.

(** The pattern of another token does not match it. *)
Lemma matchToken_other k k' written before after rest :
  k <> k' ->
  wellFormed (Placeholder k' written before after) = true ->
  matchToken (tokenName k)
    (segmentText (Placeholder k' written before after) ++ rest)
  = None.
Proof.
  simpl. intros Hne H.
  apply andb_true_iff in H. destruct H as [H Ha].
  apply andb_true_iff in H. destruct H as [Hw Hb].
  apply String.eqb_eq in Hw.
  unfold matchToken, matchTokenRest. simpl.
  rewrite !append_assoc.
  rewrite (skipWhiteSpace_append before _ Hb).
  rewrite (skipWhiteSpace_written k' written _ Hw).
  now rewrite (matchNameCI_other k k' written _ Hne Hw).
Qed.

(** A match starts with two opening braces. *)
Lemma matchToken_needs_brace name c s :
  Ascii.eqb c "{" = false -> matchToken name (String c s) = None.
Proof.
  intros H. unfold matchToken, matchTokenRest, matchBraces.
  destruct s as [|d s]; [reflexivity|]. now rewrite H.
Qed.

Lemma matchToken_needs_two_braces name c d s :
  Ascii.eqb d "{" = false -> matchToken name (String c (String d s)) = None.
Proof.
  intros H. unfold matchToken, matchTokenRest, matchBraces.
  now rewrite H, andb_false_r.
Qed.

Lemma noMatchIn_plain name a rest :
  hasChar "{" a = false -> noMatchIn name a rest.
Proof.
  induction a as [|c a IH]; simpl; [tauto|]. intros H.
  apply orb_false_iff in H. destruct H as [Hc Ha]. split.
  - now apply matchToken_needs_brace.
  - now apply IH.
Qed.

End Matching.

Section Scanning.
Import JsString Replace Composer Template.

(** What is inserted for a replacement that does not refer to the match
    is the same at every match. *)
Lemma getSubstitution_contextFree matched before after repl :
  contextFree repl = true ->
  getSubstitution matched before after repl = insertedText repl.
Proof.
  unfold insertedText.
  assert (G : forall n repl,
             (String.length repl <= n)%nat -> contextFree repl = true ->
             getSubstitution matched before after repl
             = getSubstitution "" "" "" repl).
  { induction n as [|n IH]; intros [|c tl] Hn H; try reflexivity;
      simpl in Hn; [lia|].
    simpl in H |- *. destruct (Ascii.eqb c "$").
    - destruct tl as [|d rest]; [reflexivity|].
      destruct (Ascii.eqb d "$").
      + f_equal. apply IH; [simpl in Hn; lia | exact H].
      + destruct (Ascii.eqb d "&"); [discriminate|].
        destruct (Ascii.eqb d "`"); [discriminate|].
        destruct (Ascii.eqb d "'"); [discriminate|].
        f_equal. apply IH; [lia | exact H].
    - f_equal. apply IH; [lia | exact H]. }
  apply (G (String.length repl)). lia.
Qed.

Lemma getSubstitution_other matched before after c tl :
  Ascii.eqb c "$" = false ->
  getSubstitution matched before after (String c tl)
  = String c (getSubstitution matched before after tl).
Proof. intros H. simpl. now rewrite H. Qed.

Lemma getSubstitution_dollar matched before after d rest :
  Ascii.eqb d "$" || Ascii.eqb d "&" || Ascii.eqb d "`" || Ascii.eqb d "'"
  = false ->
  getSubstitution matched before after (String "$" (String d rest))
  = String "$" (getSubstitution matched before after (String d rest)).
Proof.
  intros H. repeat (apply orb_false_iff in H; destruct H as [H ?]).
  change (getSubstitution matched before after (String "$" (String d rest)))
    with (if Ascii.eqb d "$" then
            String "$" (getSubstitution matched before after rest)
          else if Ascii.eqb d "&" then
            matched ++ getSubstitution matched before after rest
          else if Ascii.eqb d "`" then
            before ++ getSubstitution matched before after rest
          else if Ascii.eqb d "'" then
            after ++ getSubstitution matched before after rest
          else String "$" (getSubstitution matched before after
                             (String d rest))).
  now rewrite H, H2, H1, H0.
Qed.

Lemma contextFree_other c tl :
  Ascii.eqb c "$" = false -> contextFree (String c tl) = contextFree tl.
Proof. intros H. simpl. now rewrite H. Qed.

Lemma contextFree_dollar d rest :
  Ascii.eqb d "$" || Ascii.eqb d "&" || Ascii.eqb d "`" || Ascii.eqb d "'"
  = false ->
  contextFree (String "$" (String d rest)) = contextFree (String d rest).
Proof.
  intros H. repeat (apply orb_false_iff in H; destruct H as [H ?]).
  change (contextFree (String "$" (String d rest)))
    with (if Ascii.eqb d "$" then contextFree rest
          else if Ascii.eqb d "&" || Ascii.eqb d "`" || Ascii.eqb d "'"
               then false
               else contextFree (String d rest)).
  now rewrite H, H2, H1, H0.
Qed.

(** A value in which no dollar sign is followed by one of the four signs
    does not refer to the match, and is inserted as it is. *)
Lemma verbatim_inserted v :
  verbatim v = true -> contextFree v = true /\ insertedText v = v.
Proof.
  unfold insertedText.
  induction v as [|c tl IH]; [auto|]. intros H.
  change (verbatim (String c tl))
    with (negb (Ascii.eqb c "$"
                && match tl with
                   | String d _ =>
                       Ascii.eqb d "$" || Ascii.eqb d "&"
                       || Ascii.eqb d "`" || Ascii.eqb d "'"
                   | EmptyString => false
                   end)
          && verbatim tl) in H.
  apply andb_true_iff in H. destruct H as [Hc Htl].
  destruct (IH Htl) as [IH1 IH2]. apply negb_true_iff in Hc.
  destruct (Ascii.eqb c "$") eqn:Ec.
  - apply Ascii.eqb_eq in Ec. subst c.
    destruct tl as [|d rest]; [auto|]. simpl in Hc.
    rewrite contextFree_dollar, getSubstitution_dollar by exact Hc.
    split; [exact IH1 | now rewrite IH2].
  - rewrite contextFree_other, getSubstitution_other by exact Ec.
    split; [exact IH1 | now rewrite IH2].
Qed.

Variables (name repl : string).

(** The characters of a match are passed over. *)
Lemma replaceFrom_skip a :
  forall before rest,
    replaceFrom name repl before (String.length a) (a ++ rest)
    = replaceFrom name repl (before ++ a) 0 rest.
Proof.
  induction a as [|c a IH]; intros before rest; simpl.
  - now rewrite append_nil_r.
  - rewrite IH, append_assoc. reflexivity.
Qed.

(** Where the pattern matches a whole piece, the piece is replaced. *)
Lemma replaceFrom_match a before rest :
  a <> "" ->
  contextFree repl = true ->
  matchToken name (a ++ rest) = Some (String.length a) ->
  replaceFrom name repl before 0 (a ++ rest)
  = insertedText repl ++ replaceFrom name repl (before ++ a) 0 rest.
Proof.
  destruct a as [|c a]; [congruence|]. intros _ Hfree Hm.
  change (replaceFrom name repl before 0 (String c a ++ rest))
    with (match matchToken name (String c a ++ rest) with
          | Some n =>
              getSubstitution (take n (String c a ++ rest)) before
                              (drop n (String c a ++ rest)) repl
              ++ replaceFrom name repl (before ++ String c "") (Nat.pred n)
                   (a ++ rest)
          | None =>
              String c (replaceFrom name repl (before ++ String c "") 0
                          (a ++ rest))
          end).
  rewrite Hm. rewrite getSubstitution_contextFree by exact Hfree.
  simpl Nat.pred. now rewrite replaceFrom_skip, append_assoc.
Qed.

(** Where it matches nowhere inside a piece, the piece is copied. *)
Lemma replaceFrom_copy a :
  forall before rest,
    noMatchIn name a rest ->
    replaceFrom name repl before 0 (a ++ rest)
    = a ++ replaceFrom name repl (before ++ a) 0 rest.
Proof.
  induction a as [|c a IH]; intros before rest; simpl.
  - now rewrite append_nil_r.
  - intros [Hm Ha]. simpl in Hm. rewrite Hm.
    now rewrite IH, append_assoc.
Qed.

End Scanning.

Section Locality.
Import JsString Replace Composer Template.

Lemma matchToken_None name s :
  matchToken name s = None <-> matchTokenRest name s = None.
Proof.
  unfold matchToken. destruct (matchTokenRest name s); split; congruence.
Qed.

(** [\s*] stops in front of what is no white space. *)
Lemma skipWhiteSpace_stop u c w :
  isWhiteSpace c = false ->
  skipWhiteSpace (u ++ String c w) = skipWhiteSpace u ++ String c w.
Proof.
  intros Hc. induction u as [|a u IH]; simpl; [now rewrite Hc|].
  destruct (isWhiteSpace a); [exact IH | reflexivity].
Qed.

(** Where it stops inside a text, what follows the text plays no part. *)
Lemma skipWhiteSpace_inside u w :
  skipWhiteSpace u <> "" ->
  skipWhiteSpace (u ++ w) = skipWhiteSpace u ++ w.
Proof.
  induction u as [|a u IH]; simpl; [congruence|].
  destruct (isWhiteSpace a); [exact IH | reflexivity].
Qed.

(** None of the six names has a letter that a brace could stand for. *)
Lemma tokenName_brace k :
  hasChar "{" (toLowerCase (tokenName k)) = false.
Proof. destruct k; reflexivity. Qed.

(** A name that is matched in front of an opening brace is matched
    inside the text in front of it. *)
Lemma matchNameCI_inside name :
  hasChar "{" (toLowerCase name) = false ->
  forall u w s2,
    matchNameCI name (u ++ String "{" w) = Some s2 ->
    exists u2,
      s2 = u2 ++ String "{" w /\
      forall w', matchNameCI name (u ++ w') = Some (u2 ++ w').
Proof.
  induction name as [|a name IH]; intros Hname u w s2 H.
  - simpl in H. injection H as <-. exists u. split; [reflexivity|].
    intros w'. reflexivity.
  - change (hasChar "{" (toLowerCase (String a name)))
      with (Ascii.eqb (toLowerChar a) "{"
            || hasChar "{" (toLowerCase name)) in Hname.
    apply orb_false_iff in Hname. destruct Hname as [Ha Hname].
    destruct u as [|b u].
    + change (matchNameCI (String a name) ("" ++ String "{" w))
        with (if Ascii.eqb (toLowerChar a) (toLowerChar "{")
              then matchNameCI name w else None) in H.
      change (toLowerChar "{") with "{"%char in H.
      rewrite Ha in H. discriminate.
    + change (matchNameCI (String a name) (String b u ++ String "{" w))
        with (if Ascii.eqb (toLowerChar a) (toLowerChar b)
              then matchNameCI name (u ++ String "{" w) else None) in H.
      destruct (Ascii.eqb (toLowerChar a) (toLowerChar b)) eqn:E;
        [|discriminate].
      destruct (IH Hname u w s2 H) as (u2 & Hs2 & Hall).
      exists u2. split; [exact Hs2|]. intros w'.
      change (matchNameCI (String a name) (String b u ++ w'))
        with (if Ascii.eqb (toLowerChar a) (toLowerChar b)
              then matchNameCI name (u ++ w') else None).
      rewrite E. apply Hall.
Qed.

Lemma matchNameCI_empty k w :
  matchNameCI (tokenName k) (String "{" w) = None.
Proof. destruct k; reflexivity. Qed.

(** A match that starts in a text in front of two opening braces ends
    in that text: what follows the text plays no part in it. *)
Lemma match_stops_at_braces k y z r :
  y <> "" ->
  matchTokenRest (tokenName k) (y ++ String "{" (String "{" z)) = Some r ->
  exists y', forall z',
    matchTokenRest (tokenName k) (y ++ z') = Some (y' ++ z').
Proof.
  intros Hy H. unfold matchTokenRest in H.
  destruct y as [|c1 [|c2 y2]]; [congruence | |].
  - (* one character in front: the opening braces would be it and the
       first of the two, and no name starts with the second *)
    exfalso. simpl in H.
    destruct (Ascii.eqb c1 "{"); simpl in H; [|discriminate].
    now rewrite matchNameCI_empty in H.
  - simpl in H.
    destruct (Ascii.eqb c1 "{" && Ascii.eqb c2 "{") eqn:Eb;
      [|discriminate].
    rewrite skipWhiteSpace_stop in H by reflexivity.
    destruct (matchNameCI (tokenName k)
                (skipWhiteSpace y2 ++ String "{" (String "{" z)))
      as [s2|] eqn:En; [|discriminate].
    destruct (matchNameCI_inside (tokenName k) (tokenName_brace k)
                _ _ _ En) as (u2 & -> & Hname).
    rewrite skipWhiteSpace_stop in H by reflexivity.
    assert (Hu1 : skipWhiteSpace y2 <> "").
    { intros E0. rewrite E0 in En. simpl in En.
      now rewrite matchNameCI_empty in En. }
    destruct (skipWhiteSpace u2) as [|d1 [|d2 u4]] eqn:Eu; simpl in H.
    + discriminate.
    + rewrite andb_false_r in H. discriminate.
    + destruct (Ascii.eqb d1 "}" && Ascii.eqb d2 "}") eqn:Ed;
        [|discriminate].
      exists u4. intros z'. unfold matchTokenRest. simpl. rewrite Eb.
      rewrite (skipWhiteSpace_inside y2 z' Hu1), Hname.
      rewrite skipWhiteSpace_inside by (rewrite Eu; discriminate).
      rewrite Eu. simpl. now rewrite Ed.
Qed.

Lemma matchesAnywhere_suffix name a b :
  matchesAnywhere name (a ++ b) = false -> matchesAnywhere name b = false.
Proof.
  induction a as [|c a IH]; simpl; [auto|].
  destruct (matchToken name (String c (a ++ b))); [discriminate | exact IH].
Qed.

Lemma matchesAnywhere_noMatchIn name a b :
  matchesAnywhere name (a ++ b) = false -> noMatchIn name a b.
Proof.
  induction a as [|c a IH]; simpl; [auto|].
  destruct (matchToken name (String c (a ++ b)));
    [discriminate | auto].
Qed.

Lemma hasToken_none s k :
  hasToken s = false -> matchesAnywhere (tokenName k) s = false.
Proof.
  unfold hasToken, allTokens. simpl. intros H.
  repeat (apply orb_false_iff in H; destruct H as [? H]).
  destruct k; assumption.
Qed.

End Locality.

Section Passes.
Import JsString Replace Composer Template.

Lemma Token_eqb_eq a b : Token_eqb a b = true <-> a = b.
Proof. destruct a, b; simpl; split; congruence. Qed.

Lemma Token_eqb_neq a b : Token_eqb a b = false <-> a <> b.
Proof. destruct a, b; simpl; split; congruence. Qed.

Lemma placeholder_nonempty k written before after :
  segmentText (Placeholder k written before after) <> "".
Proof. simpl. discriminate. Qed.

(** Inside a placeholder of another token the pattern matches nowhere:
    not at its start, and past it there is no second opening brace. *)
Lemma noMatchIn_other k k' written before after rest :
  k <> k' ->
  wellFormed (Placeholder k' written before after) = true ->
  noMatchIn (tokenName k)
    (segmentText (Placeholder k' written before after)) rest.
Proof.
  intros Hne Hwf.
  pose proof (matchToken_other k k' written before after rest Hne Hwf)
    as Hstart.
  simpl in Hwf.
  apply andb_true_iff in Hwf. destruct Hwf as [Hwf Ha].
  apply andb_true_iff in Hwf. destruct Hwf as [Hw Hb].
  apply String.eqb_eq in Hw.
  assert (Hbody : hasChar "{" (before ++ written ++ after ++ "}}") = false).
  { rewrite !hasChar_append.
    rewrite (allWhiteSpace_hasBrace before Hb).
    rewrite (written_hasBrace k' written Hw).
    now rewrite (allWhiteSpace_hasBrace after Ha). }
  simpl. split; [exact Hstart|]. split.
  - destruct (before ++ written ++ after ++ "}}") as [|d body] eqn:E.
    + destruct before; [|discriminate].
      destruct written; [destruct k'; discriminate | discriminate].
    + simpl in Hbody. apply orb_false_iff in Hbody.
      simpl. now apply matchToken_needs_two_braces.
  - now apply noMatchIn_plain.
Qed.

Lemma occurs_cons k seg segs :
  occurs k segs = true -> occurs k (seg :: segs) = true.
Proof. unfold occurs. simpl. intros ->. apply orb_true_r. Qed.

Lemma occurs_head k written before after segs :
  occurs k (Placeholder k written before after :: segs) = true.
Proof. unfold occurs. simpl. now destruct k. Qed.

(** A match that starts in a text and is there when the placeholders
    that follow are written out is there as well when they are replaced
    by the values: it ends before the first of them. *)
Lemma match_in_template contact k rest :
  Forall (fun seg => wellFormed seg = true) rest ->
  forall y,
    y <> "" ->
    matchToken (tokenName k) (y ++ expanded contact rest) = None ->
    matchToken (tokenName k) (y ++ templateText rest) = None.
Proof.
  induction 1 as [|seg rest Hseg _ IH]; intros y Hy H; [exact H|].
  destruct seg as [t | k' written bef aft]; simpl in H |- *.
  - rewrite <- append_assoc in H |- *. apply IH; [|exact H].
    destruct y; [congruence | discriminate].
  - apply matchToken_None. apply matchToken_None in H.
    destruct (matchTokenRest (tokenName k)
                (y ++ String "{" (String "{"
                   ((bef ++ written ++ aft ++ "}}")
                    ++ templateText rest)))) as [r|] eqn:E;
      [|reflexivity].
    destruct (match_stops_at_braces k y _ r Hy E) as (y' & Hall).
    now rewrite Hall in H.
Qed.

Lemma noMatchIn_template contact k rest t :
  Forall (fun seg => wellFormed seg = true) rest ->
  noMatchIn (tokenName k) t (expanded contact rest) ->
  noMatchIn (tokenName k) t (templateText rest).
Proof.
  intros Hwf. induction t as [|c t IH]; simpl; [auto|].
  intros [Hm Ht]. split; [|now apply IH].
  apply (match_in_template contact k rest Hwf (String c t));
    [discriminate | exact Hm].
Qed.

(** One [replace] call on a template whose placeholders are well formed,
    when the template with every value in place has no match of the
    pattern: the placeholders of the token are replaced and nothing
    else. *)
Lemma replaceFrom_segments contact k segs :
  Forall (fun seg => wellFormed seg = true) segs ->
  (occurs k segs = true -> contextFree (valueOf contact k) = true) ->
  matchesAnywhere (tokenName k) (expanded contact segs) = false ->
  forall before,
    replaceFrom (tokenName k) (valueOf contact k) before 0
                (templateText segs)
    = templateText
        (map (substitute k (insertedText (valueOf contact k))) segs).
Proof.
  induction 1 as [|seg segs Hseg Hsegs IH]; intros Hv Hfree before; simpl;
    [reflexivity|].
  assert (Hv' : occurs k segs = true ->
                contextFree (valueOf contact k) = true)
    by (intros Ho; apply Hv; now apply occurs_cons).
  simpl in Hfree.
  pose proof (matchesAnywhere_suffix _ _ _ Hfree) as Hrest.
  destruct seg as [t | k' written bef aft].
  - rewrite replaceFrom_copy.
    + now rewrite IH.
    + apply (noMatchIn_template contact); [exact Hsegs|].
      now apply matchesAnywhere_noMatchIn.
  - simpl substitute. destruct (Token_eqb k k') eqn:Ek.
    + apply Token_eqb_eq in Ek. subst k'.
      rewrite replaceFrom_match;
        [now rewrite IH | apply placeholder_nonempty |
         apply Hv, occurs_head | now apply matchToken_placeholder].
    + apply Token_eqb_neq in Ek.
      rewrite replaceFrom_copy by now apply noMatchIn_other.
      now rewrite IH.
Qed.

Lemma replaceAll_segments contact k segs :
  Forall (fun seg => wellFormed seg = true) segs ->
  (occurs k segs = true -> contextFree (valueOf contact k) = true) ->
  matchesAnywhere (tokenName k) (expanded contact segs) = false ->
  replaceToken contact k (templateText segs)
  = templateText
      (map (substitute k (insertedText (valueOf contact k))) segs).
Proof. intros Hwf Hv Hfree. now apply replaceFrom_segments. Qed.

Lemma substitute_wellFormed k v segs :
  Forall (fun seg => wellFormed seg = true) segs ->
  Forall (fun seg => wellFormed seg = true) (map (substitute k v) segs).
Proof.
  induction 1 as [|seg segs Hseg _ IH]; simpl; constructor; [|exact IH].
  destruct seg as [t | k' written bef aft]; simpl; [reflexivity|].
  destruct (Token_eqb k k'); [reflexivity | exact Hseg].
Qed.

(** A pass writes no placeholder. *)
Lemma occurs_substitute k k' v segs :
  occurs k' (map (substitute k v) segs) = true -> occurs k' segs = true.
Proof.
  unfold occurs. induction segs as [|seg segs IH]; simpl; [auto|].
  intros H. apply orb_true_iff in H. apply orb_true_iff.
  destruct H as [H | H]; [left | right; now apply IH].
  destruct seg as [t | k'' written bef aft]; simpl in H |- *; [exact H|].
  destruct (Token_eqb k k''); [discriminate | exact H].
Qed.

(** A pass puts the text in place that stands there in the end. *)
Lemma expanded_substitute contact k segs :
  expanded contact
    (map (substitute k (insertedText (valueOf contact k))) segs)
  = expanded contact segs.
Proof.
  induction segs as [|seg segs IH]; simpl; [reflexivity|].
  rewrite IH. f_equal.
  destruct seg as [t | k' written bef aft]; simpl; [reflexivity|].
  destruct (Token_eqb k k') eqn:Ek; [|reflexivity].
  apply Token_eqb_eq in Ek. now subst k'.
Qed.

Lemma substituteAll_text contact seg :
  segmentText (substituteAll contact seg) = expandSegment contact seg.
Proof.
  destruct seg as [t | k written bef aft]; [|destruct k]; reflexivity.
Qed.

Lemma templateText_substituteAll contact segs :
  templateText (map (substituteAll contact) segs) = expanded contact segs.
Proof.
  induction segs as [|seg segs IH]; simpl; [reflexivity|].
  now rewrite substituteAll_text, IH.
Qed.

(** The state of the template between two passes. *)
Lemma pass_keeps contact k segs segs0 :
  Forall (fun seg => wellFormed seg = true) segs ->
  (forall k', occurs k' segs = true -> occurs k' segs0 = true) ->
  expanded contact segs = expanded contact segs0 ->
  let segs' :=
    map (substitute k (insertedText (valueOf contact k))) segs in
  Forall (fun seg => wellFormed seg = true) segs'
  /\ (forall k', occurs k' segs' = true -> occurs k' segs0 = true)
  /\ expanded contact segs' = expanded contact segs0.
Proof.
  intros Hwf Hsub Hexp segs'. subst segs'. split; [|split].
  - now apply substitute_wellFormed.
  - intros k' Ho. apply Hsub. now apply occurs_substitute in Ho.
  - now rewrite expanded_substitute.
Qed.

(** Where no value of a placeholder that occurs refers to the match, and
    the template with every value in place holds none of the six
    placeholders, [personaliseMessage] returns that text: each pass
    replaces the placeholders of its token and nothing else. *)
Lemma personaliseMessage_expanded contact segs :
  Forall (fun seg => wellFormed seg = true) segs ->
  (forall k, occurs k segs = true ->
             contextFree (valueOf contact k) = true) ->
  hasToken (expanded contact segs) = false ->
  personaliseMessage (templateText segs) contact = expanded contact segs.
Proof.
  intros Hwf Hv Hfree. unfold personaliseMessage.
  assert (H0 : forall k', occurs k' segs = true -> occurs k' segs = true)
    by auto.
  destruct (pass_keeps contact FirstName _ segs Hwf H0 eq_refl)
    as (W1 & O1 & E1).
  destruct (pass_keeps contact FullName _ segs W1 O1 E1) as (W2 & O2 & E2).
  destruct (pass_keeps contact Company _ segs W2 O2 E2) as (W3 & O3 & E3).
  destruct (pass_keeps contact Notes _ segs W3 O3 E3) as (W4 & O4 & E4).
  destruct (pass_keeps contact Tag _ segs W4 O4 E4) as (W5 & O5 & E5).
  rewrite (replaceAll_segments contact FirstName)
    by (auto using hasToken_none).
  rewrite (replaceAll_segments contact FullName)
    by (auto; rewrite E1; now apply hasToken_none).
  rewrite (replaceAll_segments contact Company)
    by (auto; rewrite E2; now apply hasToken_none).
  rewrite (replaceAll_segments contact Notes)
    by (auto; rewrite E3; now apply hasToken_none).
  rewrite (replaceAll_segments contact Tag)
    by (auto; rewrite E4; now apply hasToken_none).
  rewrite (replaceAll_segments contact Phone)
    by (auto; rewrite E5; now apply hasToken_none).
  rewrite !map_map. apply templateText_substituteAll.
Qed.

(** With values that are inserted as they are, this is the template with
    each placeholder replaced by its value. *)
Lemma expanded_rendered contact segs :
  (forall k, occurs k segs = true -> verbatim (valueOf contact k) = true) ->
  expanded contact segs = rendered contact segs.
Proof.
  induction segs as [|seg segs IH]; intros Hv; simpl; [reflexivity|].
  rewrite IH by (intros k Ho; apply Hv; now apply occurs_cons).
  f_equal. destruct seg as [t | k written bef aft]; simpl; [reflexivity|].
  apply verbatim_inserted, Hv, occurs_head.
Qed.

Lemma personaliseMessage_rendered contact segs :
  Forall (fun seg => wellFormed seg = true) segs ->
  (forall k, occurs k segs = true -> verbatim (valueOf contact k) = true) ->
  hasToken (rendered contact segs) = false ->
  personaliseMessage (templateText segs) contact = rendered contact segs.
Proof.
  intros Hwf Hv Hfree.
  rewrite <- (expanded_rendered contact segs Hv) in Hfree |- *.
  apply personaliseMessage_expanded; [exact Hwf | | exact Hfree].
  intros k Ho. now apply verbatim_inserted, Hv.
Qed.

End Passes.

Section Values.
Import JsString Composer.

(** The first piece of a split is what stands before the first
    separator. *)
Lemma split_first sep s :
  exists w ws,
    split sep s = w :: ws /\ hasChar sep w = false /\
    (s = w \/ exists r, s = w ++ String sep r).
Proof.
  induction s as [|c s (w & ws & Hs & Hw & Hr)]; simpl.
  - exists "", []. auto.
  - destruct (Ascii.eqb c sep) eqn:E.
    + apply Ascii.eqb_eq in E. subst c.
      exists "", (split sep s). repeat split.
      right. exists s. reflexivity.
    + rewrite Hs. exists (String c w), ws. simpl. rewrite E, Hw.
      repeat split.
      destruct Hr as [-> | (r & ->)]; [left | right; exists r];
        reflexivity.
Qed.

(** [firstName] is the part of the trimmed name before its first space;
    the fall-back to the whole name is never taken. *)
Lemma firstNameOf_spec contact :
  hasChar " " (firstNameOf contact) = false /\
  (trim (contact_name contact) = firstNameOf contact \/
   exists r, trim (contact_name contact)
             = firstNameOf contact ++ String " " r).
Proof.
  unfold firstNameOf.
  destruct (split_first " " (trim (contact_name contact)))
    as (w & ws & Hs & Hw & Hr).
  rewrite Hs. simpl. auto.
Qed.

Lemma split_cons_head sep c s :
  Ascii.eqb c sep = false ->
  hd_error (split sep (String c s))
  = option_map (String c) (hd_error (split sep s)).
Proof.
  intros H. simpl. rewrite H.
  destruct (split_first sep s) as (w & ws & -> & _). reflexivity.
Qed.

Lemma split_trimEnd s :
  spacesOnly s = true ->
  hd_error (split " " (trimEnd s)) = Some (Spec.untilWhiteSpace s).
Proof.
  induction s as [|c s IH]; simpl; [reflexivity|]. intros H.
  apply andb_true_iff in H. destruct H as [Hc Hs].
  specialize (IH Hs).
  destruct (isWhiteSpace c) eqn:Ews; simpl in Hc.
  - apply Ascii.eqb_eq in Hc. subst c.
    destruct (trimEnd s); reflexivity.
  - assert (Hsp : Ascii.eqb c " " = false).
    { destruct (Ascii.eqb c " ") eqn:E; [|reflexivity].
      apply Ascii.eqb_eq in E. subst c. discriminate. }
    destruct (trimEnd s) as [|d t] eqn:Et.
    + simpl in IH. injection IH as <-. simpl. now rewrite Hsp.
    + rewrite (split_cons_head " " c _ Hsp), IH. reflexivity.
Qed.

Lemma spacesOnly_trimStart s :
  spacesOnly s = true -> spacesOnly (trimStart s) = true.
Proof.
  induction s as [|c s IH]; simpl; [reflexivity|]. intros H.
  destruct (isWhiteSpace c) eqn:E.
  - apply andb_true_iff in H. now apply IH.
  - simpl. rewrite E. exact H.
Qed.

(** When the white space of the name is made of spaces, this is the
    first whitespace-delimited segment of the name. *)
Lemma firstNameOf_firstSegment contact :
  spacesOnly (contact_name contact) = true ->
  firstNameOf contact = Spec.firstSegment (contact_name contact).
Proof.
  intros H. unfold firstNameOf, trim, Spec.firstSegment.
  rewrite split_trimEnd by now apply spacesOnly_trimStart.
  reflexivity.
Qed.

End Values.

(** C8 (amended): a template is text and placeholders, each placeholder
    being one of the six names written in any letter case with any white
    space inside its braces; the text is any text, other names in braces
    and braces on their own included.  For a contact whose values for the
    placeholders that occur have no dollar sign followed by [$], [&], [`]
    or ['], and when the template with each placeholder replaced by its
    value holds none of the six placeholders, [personaliseMessage] returns
    exactly that: each value where its placeholder stands, the text as it
    is.  The
    values: [firstName] is the part of the trimmed name before its first
    space (the first whitespace-delimited segment when the white space of
    the name is made of spaces), [fullName] the name, [company] the first
    tag whose lower case contains "company", else the first tag, else
    "your team", [notes] the notes or the empty string, [tag] the first
    tag or the empty string, [phone] the phone.  In particular
    "Hi {{firstName}} from {{company}}" for Dana Lee with the tags
    acme-company and vip gives "Hi Dana from acme-company". *)
Theorem personalise_substitutes_placeholders :
  (forall contact segs,
      Forall (fun seg => Template.wellFormed seg = true) segs ->
      (forall k, Template.occurs k segs = true ->
                 Template.verbatim (Composer.valueOf contact k) = true) ->
      Composer.hasToken (Template.rendered contact segs) = false ->
      Composer.personaliseMessage (Template.templateText segs) contact
      = Template.rendered contact segs)
  /\ (forall contact,
         let first := Composer.valueOf contact Composer.FirstName in
         JsString.hasChar " " first = false
         /\ (JsString.trim (contact_name contact) = first
             \/ exists r, JsString.trim (contact_name contact)
                          = first ++ String " " r)
         /\ (JsString.spacesOnly (contact_name contact) = true ->
             first = Spec.firstSegment (contact_name contact))
         /\ Composer.valueOf contact Composer.FullName = contact_name contact
         /\ Composer.valueOf contact Composer.Company
            = match find (fun tag => JsString.includes "company"
                                       (JsString.toLowerCase tag))
                         (contact_tags contact), contact_tags contact with
              | Some tag, _ => tag
              | None, tag :: _ => tag
              | None, [] => "your team"
              end
         /\ Composer.valueOf contact Composer.Notes
            = match contact_notes contact with
              | Some notes => notes
              | None => ""
              end
         /\ Composer.valueOf contact Composer.Tag
            = match contact_tags contact with
              | tag :: _ => tag
              | [] => ""
              end
         /\ Composer.valueOf contact Composer.Phone = contact_phone contact)
  /\ Composer.personaliseMessage "Hi {{firstName}} from {{company}}"
       (mkContact "c1" "Dana Lee" "+14155550138" ["acme-company"; "vip"]
                  None true 0)
     = "Hi Dana from acme-company".
Proof.
  split; [exact personaliseMessage_rendered | split].
  - intros contact first. subst first. simpl.
    destruct (firstNameOf_spec contact) as [H1 H2].
    split; [exact H1|]. split; [exact H2|].
    split; [apply firstNameOf_firstSegment|].
    split; [reflexivity|]. split; [|split; [|split; [|reflexivity]]].
    + unfold Composer.companyOf.
      destruct (find _ (contact_tags contact)); [reflexivity|].
      destruct (contact_tags contact); reflexivity.
    + destruct (contact_notes contact); reflexivity.
    + destruct (contact_tags contact); reflexivity.
  - vm_compute. reflexivity.
Qed.

Lemma personalise_substitutes_placeholders_witness :
  Composer.personaliseMessage "Hi {{firstName}} from {{ COMPANY }}"
    sampleContact
  = "Hi Dana from acme-company"
  /\ Composer.personaliseMessage
       "Hi {{firstName}}, see you at {{meetingTime}} {{{ Notes}}"
       (noted "costs $5 {x}")
     = "Hi Dana, see you at {{meetingTime}} {costs $5 {x}".
Proof.
  split.
  - apply (proj1 personalise_substitutes_placeholders sampleContact
             greeting).
    + repeat constructor.
    + intros k _. destruct k; reflexivity.
    + reflexivity.
  - apply (proj1 personalise_substitutes_placeholders
             (noted "costs $5 {x}") invitation).
    + repeat constructor.
    + intros k _. destruct k; reflexivity.
    + reflexivity.
Defined.

(** Counterexample to C8 as worded, in four ways: a name whose
    words are separated by a tab is not cut at the tab; a dollar pair in
    the name comes out as one dollar sign; a name that is itself a
    placeholder is replaced again by a later pass; and where the empty
    notes leave braces and a name side by side, a later pass takes them
    for its placeholder. *)
Lemma personalise_not_as_specified :
  (Composer.personaliseMessage "{{firstName}}" (named tabbedName)
   = tabbedName
   /\ Spec.firstSegment tabbedName = "Dana")
  /\ Composer.personaliseMessage "{{fullName}}" (named "Ca$$h Ltd")
     = "Ca$h Ltd"
  /\ Composer.personaliseMessage "{{fullName}}" (named "{{phone}}")
     = "+14155550138"
  /\ (Composer.personaliseMessage ("{{" ++ "{{notes}}" ++ "phone}}")
        sampleContact
      = "+14155550138"
      /\ "{{" ++ Composer.valueOf sampleContact Composer.Notes ++ "phone}}"
         = "{{phone}}").
Proof. repeat split; vm_compute; reflexivity. Qed.

(** C6 (amended): the result of [personaliseMessage] is determined by
    the template and by the name, the tags, the notes and the phone of the
    contact.  And for a contact whose values for the placeholders that
    occur have no [$&], [$`] or [$'], when the template with each
    placeholder replaced by its value, a [$$] of the value counting for one
    dollar sign, holds none of the six placeholders, the result is exactly
    that text: no recognised placeholder is left in it.  The text of the
    template is any text, other names in braces and braces on their own
    included. *)
Theorem personalise_leaves_no_placeholder :
  (forall template c1 c2,
      contact_name c1 = contact_name c2 ->
      contact_tags c1 = contact_tags c2 ->
      contact_notes c1 = contact_notes c2 ->
      contact_phone c1 = contact_phone c2 ->
      Composer.personaliseMessage template c1
      = Composer.personaliseMessage template c2)
  /\ (forall contact segs,
         Forall (fun seg => Template.wellFormed seg = true) segs ->
         (forall k, Template.occurs k segs = true ->
                    Template.contextFree (Composer.valueOf contact k)
                    = true) ->
         Composer.hasToken (Template.expanded contact segs) = false ->
         Composer.personaliseMessage (Template.templateText segs) contact
         = Template.expanded contact segs
         /\ Composer.hasToken
              (Composer.personaliseMessage (Template.templateText segs)
                                           contact)
            = false).
Proof.
  split.
  - intros template c1 c2 Hn Ht Ho Hp.
    assert (Hv : forall k, Composer.valueOf c1 k = Composer.valueOf c2 k).
    { intros k. destruct k; simpl;
        unfold Composer.firstNameOf, Composer.companyOf;
        now rewrite ?Hn, ?Ht, ?Ho, ?Hp. }
    unfold Composer.personaliseMessage, Composer.replaceToken.
    now rewrite !Hv.
  - intros contact segs Hwf Hv Hfree.
    rewrite (personaliseMessage_expanded contact segs Hwf Hv Hfree).
    split; [reflexivity | exact Hfree].
Qed.

Lemma personalise_leaves_no_placeholder_witness :
  Composer.personaliseMessage
    "Hi {{firstName}}, see you at {{meetingTime}} {{{ Notes}}"
    (noted "pay $$5 {x}")
  = "Hi Dana, see you at {{meetingTime}} {pay $5 {x}"
  /\ Composer.hasToken
       (Composer.personaliseMessage
          "Hi {{firstName}}, see you at {{meetingTime}} {{{ Notes}}"
          (noted "pay $$5 {x}"))
     = false.
Proof.
  apply (proj2 personalise_leaves_no_placeholder (noted "pay $$5 {x}")
           invitation).
  - repeat constructor.
  - intros k _. destruct k; reflexivity.
  - reflexivity.
Defined.

(** Counterexample to C6 as worded: notes that hold a placeholder
    of an earlier pass keep it; notes that hold [$&] bring the placeholder
    back; and on a benign contact without notes, a placeholder for the
    notes wedged between braces leaves a [{{firstName}}] behind. *)
Lemma personalise_can_leave_placeholders :
  (Composer.personaliseMessage "{{notes}}" (noted "ask for {{firstName}}")
   = "ask for {{firstName}}"
   /\ Composer.hasToken "ask for {{firstName}}" = true)
  /\ (Composer.personaliseMessage "{{notes}}" (noted "see $&")
      = "see {{notes}}"
      /\ Composer.hasToken "see {{notes}}" = true)
  /\ (Composer.personaliseMessage "{{{notes}}{firstName}}" sampleContact
      = "{{firstName}}"
      /\ Composer.hasToken "{{firstName}}" = true).
Proof. repeat split; vm_compute; reflexivity. Qed.

(* ================================================================== *)
(** * More about the launch *)
(* ================================================================== *)

Section LaunchMore.
Import JsString Composer Page.

Lemma mapIndexed_In {A B} (f : nat -> A -> B) y xs :
  forall i, In y (mapIndexed f i xs) -> exists j x, In x xs /\ y = f j x.
Proof.
  induction xs as [|x xs IH]; simpl; intros i H; [tauto|].
  destruct H as [<- | H].
  - exists i, x. auto.
  - destruct (IH _ H) as (j & x' & Hin & ->). exists j, x'. auto.
Qed.

Lemma truthy_length s : truthy s = negb (String.length s =? 0)%nat.
Proof. destruct s; reflexivity. Qed.

(** Whether the guards let a submission through does not depend on the
    clock or on the identifiers. *)
Lemma buildLaunch_none_any isoNow nanoid isoNow' nanoid' f :
  buildLaunch isoNow nanoid f = None -> buildLaunch isoNow' nanoid' f = None.
Proof.
  intros H. destruct (buildLaunch isoNow' nanoid' f) eqn:E; [|reflexivity].
  assert (G : buildLaunch isoNow' nanoid' f <> None) by congruence.
  apply buildLaunch_guards in G.
  apply (buildLaunch_guards isoNow nanoid) in G. congruence.
Qed.

(** A resolved recipient is a contact of the list that has opted in. *)
Lemma filteredContacts_In f c :
  In c (filteredContacts f) ->
  In c (Composer.contacts f) /\ contact_optIn c = true.
Proof.
  unfold filteredContacts, optedInContacts. intros H.
  assert (G : In c (filter (fun contact => contact_optIn contact)
                           (Composer.contacts f))).
  { destruct (audienceMode f), (audienceTag f) as [tag|]; try exact H.
    destruct (truthy tag); [|exact H].
    apply filter_In in H. tauto. }
  apply filter_In in G. exact G.
Qed.

Lemma buildLaunch_not_acknowledged isoNow nanoid f :
  acknowledgedCompliance f = false -> buildLaunch isoNow nanoid f = None.
Proof.
  intros Ha. destruct (buildLaunch isoNow nanoid f) eqn:E; [|reflexivity].
  assert (G : buildLaunch isoNow nanoid f <> None) by congruence.
  apply buildLaunch_guards in G. destruct G as (_ & _ & G & _). congruence.
Qed.

End LaunchMore.

(** X1: submitting twice is submitting once.  A submission that is turned
    away changes nothing, and one that launches leaves an empty message
    and an unticked box behind, so that the next one is turned away. *)
Theorem handleSubmit_twice :
  forall isoNow nanoid isoNow' nanoid' a,
    Page.handleSubmit isoNow' nanoid' (Page.handleSubmit isoNow nanoid a)
    = Page.handleSubmit isoNow nanoid a.
Proof.
  intros isoNow nanoid isoNow' nanoid' [f st].
  destruct (Composer.buildLaunch isoNow nanoid f) as [[b es]|] eqn:E.
  - rewrite (handleSubmit_launched _ _ _ st _ _ E).
    apply handleSubmit_rejected. reflexivity.
  - rewrite (handleSubmit_rejected isoNow nanoid (f, st) E).
    apply handleSubmit_rejected. simpl.
    now apply (buildLaunch_none_any isoNow nanoid).
Qed.

(** X2: whatever the form holds, every delivery in the store after a
    submission was there before or was built for a contact of the list
    that has opted in, whose id, name and phone it carries together with
    the message personalised for it. *)
Theorem deliveries_only_for_opted_in :
  forall isoNow nanoid f st e,
    In e (Page.deliveries (snd (Page.handleSubmit isoNow nanoid (f, st)))) ->
    In e (Page.deliveries st)
    \/ exists c,
         In c (Composer.contacts f) /\ contact_optIn c = true
         /\ Page.snapshot e = Page.snapshotOf (Composer.message f) c
         /\ e_status e = Pending.
Proof.
  intros isoNow nanoid f st e.
  destruct (Composer.buildLaunch isoNow nanoid f) as [[b es]|] eqn:E.
  - rewrite (handleSubmit_launched _ _ _ st _ _ E). simpl.
    intros H. apply in_app_or in H. destruct H as [H | H]; [now left|].
    right. unfold Composer.buildLaunch in E.
    repeat match type of E with
           | (if ?c then None else _) = Some _ =>
               destruct c; [discriminate|]
           end.
    injection E as <- <-.
    apply mapIndexed_In in H. destruct H as (j & c & Hc & ->).
    exists c. destruct (filteredContacts_In f c Hc) as [Hin Hopt].
    repeat split; auto.
  - rewrite (handleSubmit_rejected isoNow nanoid (f, st) E). now left.
Qed.

Lemma deliveries_only_for_opted_in_witness :
  In (mkEntry "d1" "b1" "c1" "Dana Lee" "+14155550138" None Pending
              "Hi Dana" None None None)
     (Page.deliveries Page.initialStore)
  \/ exists c,
       In c (Composer.contacts vipForm) /\ contact_optIn c = true
       /\ Page.snapshot
            (mkEntry "d1" "b1" "c1" "Dana Lee" "+14155550138" None Pending
                     "Hi Dana" None None None)
          = Page.snapshotOf (Composer.message vipForm) c
       /\ Pending = Pending.
Proof.
  apply (deliveries_only_for_opted_in 0 sampleIds vipForm Page.initialStore
           (mkEntry "d1" "b1" "c1" "Dana Lee" "+14155550138" None Pending
                    "Hi Dana" None None None)).
  left. reflexivity.
Defined.

(** X3: the submit button is enabled exactly when nothing is being sent,
    the guards of the submit handler would let the submission through
    and, in "tag" mode, a tag is selected: an enabled button always
    launches, and the handler checks everything the button checks except
    the sending in progress and the missing tag. *)
Theorem button_and_guards :
  forall isProcessing isoNow nanoid f,
    Composer.submitDisabled isProcessing f = false <->
    isProcessing = false
    /\ Composer.buildLaunch isoNow nanoid f <> None
    /\ (Composer.audienceMode f = Composer.ModeTag ->
        JsString.truthyOpt (Composer.audienceTag f) = true).
Proof.
  intros isProcessing isoNow nanoid f.
  rewrite buildLaunch_guards. unfold Composer.submitDisabled.
  rewrite !truthy_length.
  destruct isProcessing, (Composer.acknowledgedCompliance f),
    (Composer.filteredContacts f) as [|c cs],
    (String.length (JsString.trim (Composer.message f)) =? 0)%nat,
    (String.length (JsString.trim (Composer.broadcastLabel f)) =? 0)%nat,
    (Composer.audienceMode f),
    (JsString.truthyOpt (Composer.audienceTag f)); simpl;
    split; intros H; try discriminate; try reflexivity;
    try (destruct H as (H1 & (H2 & H3 & H4 & H5) & H6);
         try discriminate; try congruence;
         try (specialize (H6 eq_refl); discriminate));
    repeat split; try discriminate; try reflexivity; auto.
Qed.

(** X4: what the composer shows as preview is what a launch stores as
    the preview of its first delivery. *)
Theorem preview_is_first_stored_preview :
  forall isoNow nanoid f st,
    JsString.truthy (JsString.trim (Composer.broadcastLabel f)) = true ->
    JsString.truthy (JsString.trim (Composer.message f)) = true ->
    Composer.acknowledgedCompliance f = true ->
    Composer.filteredContacts f <> [] ->
    exists e,
      nth_error
        (Page.deliveries (snd (Page.handleSubmit isoNow nanoid (f, st))))
        (List.length (Page.deliveries st)) = Some e
      /\ e_preview e = Composer.previewMessage f.
Proof.
  intros isoNow nanoid f st Hl Hm Ha Hc.
  assert (Hk : (1 <= List.length (Composer.filteredContacts f))%nat)
    by (destruct (Composer.filteredContacts f); [congruence | simpl; lia]).
  destruct (buildLaunch_accepted isoNow nanoid f Hl Hm Ha Hk)
    as (b & es & Hb & _ & Hes & _).
  rewrite (handleSubmit_launched _ _ _ st _ _ Hb). simpl.
  unfold Composer.previewMessage. rewrite Hm.
  destruct (Composer.filteredContacts f) as [|c cs]; [congruence|].
  subst es. simpl. eexists. split.
  - rewrite nth_error_app2 by lia. rewrite Nat.sub_diag. reflexivity.
  - reflexivity.
Qed.

Lemma preview_is_first_stored_preview_witness :
  exists e,
    nth_error
      (Page.deliveries
         (snd (Page.handleSubmit 0 sampleIds
                 (sampleForm true, Page.initialStore)))) 0
    = Some e
    /\ e_preview e = "Hi Dana".
Proof.
  apply (preview_is_first_stored_preview 0 sampleIds (sampleForm true)
           Page.initialStore); [reflexivity .. | discriminate].
Defined.

Section Verbatim.
Import JsString Replace Composer.

Lemma replaceFrom_no_match name repl s :
  matchesAnywhere name s = false ->
  forall before, replaceFrom name repl before 0 s = s.
Proof.
  induction s as [|c s IH]; intros H before; [reflexivity|].
  simpl in H. simpl.
  destruct (matchToken name (String c s)); [discriminate|].
  now rewrite IH.
Qed.

End Verbatim.

(** X5: a template in which none of the six placeholders is written, in
    any letter case or spacing, is sent as it is, whatever the contact:
    other text in double braces included. *)
Theorem personalise_without_placeholder :
  forall template contact,
    Composer.hasToken template = false ->
    Composer.personaliseMessage template contact = template.
Proof.
  intros template contact H.
  unfold Composer.hasToken, Composer.allTokens in H. simpl in H.
  repeat (apply orb_false_iff in H; destruct H as [? H]).
  unfold Composer.personaliseMessage, Composer.replaceToken,
    Replace.replaceAll.
  rewrite (replaceFrom_no_match "firstName") by assumption.
  rewrite (replaceFrom_no_match "fullName") by assumption.
  rewrite (replaceFrom_no_match "company") by assumption.
  rewrite (replaceFrom_no_match "notes") by assumption.
  rewrite (replaceFrom_no_match "tag") by assumption.
  rewrite (replaceFrom_no_match "phone") by assumption.
  reflexivity.
Qed.

Lemma personalise_without_placeholder_witness :
  Composer.personaliseMessage
    "See you at {{meetingTime}} in {{eventLocation}}" (noted "ask $& {{tag}}")
  = "See you at {{meetingTime}} in {{eventLocation}}".
Proof.
  apply (personalise_without_placeholder
           "See you at {{meetingTime}} in {{eventLocation}}"
           (noted "ask $& {{tag}}")).
  reflexivity.
Defined.

Lemma button_and_guards_witness :
  Composer.submitDisabled false (sampleForm true) = false
  /\ Composer.submitDisabled false tagModeForm = true.
Proof.
  split.
  - apply (proj2 (button_and_guards false 0 sampleIds (sampleForm true))).
    repeat split; discriminate.
  - destruct (Composer.submitDisabled false tagModeForm) eqn:E;
      [reflexivity|].
    apply (proj1 (button_and_guards false 0 sampleIds tagModeForm)) in E.
    destruct E as (_ & _ & E). discriminate (E eq_refl).
Defined.

(* ================================================================== *)
(** * More about the status aggregation *)
(* ================================================================== *)

Section AggregationMore.
Import Composer Page.

(** With deliveries to look at, the stored status plays no part. *)
Lemma nextStatus_any related b b' :
  nextStatus related b = nextStatus related b'.
Proof.
  destruct (nextStatus_cases related b)
    as [(H & Hf & Hd) | [(H & Hfl) | (H & Hfl)]]; rewrite H;
    unfold nextStatus.
  - now rewrite Hf, Hd, !Nat.eqb_refl.
  - unfold nextStatus in H. rewrite Hfl in *.
    destruct ((countStatus Failed related =? List.length related)%nat
              && (countStatus Delivered related =? 0)%nat);
      [discriminate | reflexivity].
  - unfold nextStatus in H. rewrite Hfl in *.
    rewrite (terminal_counts related Hfl), Nat.leb_refl in *.
    destruct ((countStatus Failed related =? List.length related)%nat
              && (countStatus Delivered related =? 0)%nat);
      [discriminate | reflexivity].
Qed.

Lemma all_pending_inFlight es b :
  es <> [] -> Forall (fun e => e_status e = Pending) es ->
  nextStatus es b = BInProgress.
Proof.
  intros Hne Hall.
  destruct es as [|e es]; [congruence|].
  inversion Hall as [|? ? He Hes]; subst.
  assert (Hf : (countStatus Failed (e :: es)
                =? List.length (e :: es))%nat = false).
  { apply Nat.eqb_neq. unfold countStatus, hasStatus. simpl. rewrite He.
    simpl. pose proof (filter_length_le
      (fun entry => DeliveryStatus_eqb (e_status entry) Failed) es). lia. }
  assert (Hfl : inFlight (e :: es) = true)
    by (unfold inFlight, hasStatus; simpl; now rewrite He).
  unfold nextStatus. now rewrite Hf, Hfl.
Qed.

End AggregationMore.

(** X6: aggregating twice over the same deliveries is aggregating once. *)
Theorem aggregate_idempotent :
  forall ds broadcast,
    Page.aggregate ds (Page.aggregate ds broadcast)
    = Page.aggregate ds broadcast.
Proof.
  intros ds b.
  destruct (Page.relatedEntries ds b) as [|e l] eqn:E.
  - rewrite (aggregate_unrelated ds b E). now apply aggregate_unrelated.
  - assert (Hne : Page.relatedEntries ds b <> []) by congruence.
    assert (Hne' : Page.relatedEntries ds (Page.aggregate ds b) <> [])
      by now rewrite relatedEntries_aggregate.
    rewrite (aggregate_fields ds (Page.aggregate ds b) Hne').
    rewrite relatedEntries_aggregate.
    rewrite (nextStatus_any _ (Page.aggregate ds b) b).
    rewrite (aggregate_fields ds b Hne). reflexivity.
Qed.

(** X7: the status the effect gives to a broadcast with deliveries is
    read off the deliveries alone: [failed] when all have failed,
    [in_progress] while one is pending or sending, [completed] otherwise.
    It is never [scheduled], and never the status the broadcast had
    because it had it. *)
Theorem aggregated_status_from_deliveries :
  forall ds broadcast,
    Page.relatedEntries ds broadcast <> [] ->
    b_status (Page.aggregate ds broadcast)
    = if forallb (Page.hasStatus Failed) (Page.relatedEntries ds broadcast)
      then BFailed
      else if Page.inFlight (Page.relatedEntries ds broadcast)
           then BInProgress
           else BCompleted.
Proof.
  intros ds b Hne. rewrite (aggregate_fields ds b Hne). simpl.
  set (related := Page.relatedEntries ds b) in *.
  rewrite <- filter_keeps_all.
  destruct (nextStatus_cases related b)
    as [(H & Hf & Hd) | [(H & Hfl) | (H & Hfl)]]; rewrite H.
  - unfold Page.countStatus in Hf. now rewrite Hf, Nat.eqb_refl.
  - rewrite Hfl.
    destruct (List.length (filter (Page.hasStatus Failed) related)
              =? List.length related)%nat eqn:E; [|reflexivity].
    exfalso. rewrite filter_keeps_all in E.
    unfold Page.inFlight in Hfl. apply existsb_exists in Hfl.
    destruct Hfl as (e & He & Hs).
    rewrite forallb_forall in E. specialize (E e He).
    unfold Page.hasStatus in *. destruct (e_status e); discriminate.
  - rewrite Hfl.
    destruct (List.length (filter (Page.hasStatus Failed) related)
              =? List.length related)%nat eqn:E; [|reflexivity].
    exfalso. apply Nat.eqb_eq in E.
    unfold Page.nextStatus in H. fold related in H.
    unfold Page.countStatus in H. rewrite E, Nat.eqb_refl in H.
    pose proof (terminal_counts related Hfl) as Hc.
    unfold Page.countStatus in Hc. rewrite E in Hc.
    assert (Hd : List.length (filter (Page.hasStatus Delivered) related)
                 = 0%nat) by lia.
    rewrite Hd in H. simpl in H. discriminate.
Qed.

Lemma aggregated_status_from_deliveries_witness :
  b_status (Page.aggregate [deliveredEntry] shortBroadcast) = BCompleted.
Proof.
  apply (aggregated_status_from_deliveries [deliveredEntry] shortBroadcast).
  discriminate.
Defined.

(** X8: the [scheduled] status of a launch does not outlive the first
    commit.  Whatever [scheduledFor] is, once the effects have run on the
    new deliveries, all of them pending, the new broadcast is
    [in_progress]. *)
Theorem launched_broadcast_in_progress :
  forall isoNow nanoid f st now startIso shouldFail,
    JsString.truthy (JsString.trim (Composer.broadcastLabel f)) = true ->
    JsString.truthy (JsString.trim (Composer.message f)) = true ->
    Composer.acknowledgedCompliance f = true ->
    Composer.filteredContacts f <> [] ->
    Page.freshIds nanoid (List.length (Composer.filteredContacts f)) st ->
    exists broadcast,
      hd_error
        (Page.broadcasts
           (Page.runEffects now startIso shouldFail
              (snd (Page.handleSubmit isoNow nanoid (f, st)))))
      = Some broadcast
      /\ b_id broadcast = nanoid 0%nat
      /\ b_scheduledFor broadcast = Composer.scheduledFor f
      /\ b_status broadcast = BInProgress.
Proof.
  intros isoNow nanoid f st now startIso shouldFail Hl Hm Ha Hc
         (_ & Fd & _).
  assert (Hk : (1 <= List.length (Composer.filteredContacts f))%nat)
    by (destruct (Composer.filteredContacts f); [congruence | simpl; lia]).
  destruct (buildLaunch_accepted isoNow nanoid f Hl Hm Ha Hk)
    as (b & es & Hb & Hid & Hes & _).
  rewrite (handleSubmit_launched _ _ _ st _ _ Hb).
  rewrite runEffects_broadcasts. simpl.
  assert (Hrel : Page.relatedEntries (Page.deliveries st ++ es) b = es).
  { rewrite relatedEntries_app.
    rewrite relatedEntries_none by (now rewrite Hid).
    apply relatedEntries_all. subst es. apply mkDelivery_broadcastId. }
  assert (Hne : es <> []).
  { subst es. destruct (Composer.filteredContacts f); [congruence|].
    discriminate. }
  assert (Hpend : Forall (fun e => e_status e = Pending) es)
    by (subst es; apply mapIndexed_Forall; reflexivity).
  eexists. split; [reflexivity|].
  rewrite aggregate_fields by (rewrite Hrel; exact Hne). simpl.
  rewrite Hrel. repeat split; auto.
  - unfold Composer.buildLaunch in Hb.
    repeat match type of Hb with
           | (if ?c then None else _) = Some _ =>
               destruct c; [discriminate|]
           end.
    injection Hb as <- _. reflexivity.
  - now apply all_pending_inFlight.
Qed.

Lemma launched_broadcast_in_progress_witness :
  exists broadcast,
    hd_error
      (Page.broadcasts
         (Page.runEffects 10 10 false
            (snd (Page.handleSubmit 0 sampleIds
                    (laterForm, Page.initialStore)))))
    = Some broadcast
    /\ b_id broadcast = "b1"
    /\ b_scheduledFor broadcast = Some 86400000%Z
    /\ b_status broadcast = BInProgress.
Proof.
  apply (launched_broadcast_in_progress 0 sampleIds laterForm
           Page.initialStore 10 10 false);
    [reflexivity | reflexivity | reflexivity | discriminate |].
  apply sampleIds_fresh; [simpl; lia | reflexivity ..].
Defined.

(* ================================================================== *)
(** * The life of a delivery *)
(* ================================================================== *)

Section Life.
Import Composer Page Invariant Lifecycle.

Lemma Engine_initial : Engine initialStore.
Proof. constructor; simpl; intros; congruence. Qed.

Lemma Engine_dispatch now startIso shouldFail st :
  Engine st -> Engine (dispatchEffect now startIso shouldFail st).
Proof.
  intros HE. unfold dispatchEffect.
  destruct (processingRef st); [assumption|].
  destruct (find (eligible now) (deliveries st)) as [next|] eqn:E;
    [|assumption].
  apply find_some in E. destruct E as [Hin _].
  constructor; simpl; auto.
  intros id fl H. injection H as <- <-.
  exists (markSending (e_id next) startIso next). split; [|split].
  - now apply in_map.
  - apply markSending_id.
  - unfold markSending. now rewrite String.eqb_refl.
Qed.

Lemma Engine_effects now startIso shouldFail st :
  Engine st -> Engine (runEffects now startIso shouldFail st).
Proof.
  intros [H1 H2 H3]. unfold runEffects. apply Engine_dispatch. simpl.
  destruct (cleanup st) eqn:Ec; constructor; simpl; intros;
    try congruence; auto.
  eapply H3; eauto.
Qed.

Lemma Engine_timeout completedAt st :
  Engine st -> Engine (timeoutFires completedAt st).
Proof.
  intros HE. unfold timeoutFires.
  destruct (timeout st) as [[id fl]|] eqn:E; [|assumption].
  destruct HE as [H1 H2 H3].
  constructor; simpl; intros; try congruence.
Qed.

Lemma Engine_submit isoNow nanoid f st :
  Engine st -> Engine (snd (handleSubmit isoNow nanoid (f, st))).
Proof.
  intros HE. destruct (buildLaunch isoNow nanoid f) as [[b es]|] eqn:E.
  - rewrite (handleSubmit_launched _ _ _ st _ _ E). simpl.
    destruct HE as [H1 H2 H3]. constructor; simpl; auto.
    intros id fl H. destruct (H3 id fl H) as (e & He & Hid & Hs).
    exists e. repeat split; auto. apply in_or_app. now left.
  - now rewrite (handleSubmit_rejected isoNow nanoid (f, st) E).
Qed.

Lemma step_Engine a a' : step a a' -> Engine (snd a) -> Engine (snd a').
Proof.
  destruct 1; simpl; intros HE.
  - assumption.
  - destruct a as [f st]. now apply Engine_submit.
  - now apply Engine_effects.
  - now apply Engine_timeout.
Qed.

Lemma Engine_remount disk : Engine (remount disk).
Proof. constructor; simpl; intros; congruence. Qed.

Lemma running_Engine a disk : running a disk -> Engine (snd a).
Proof.
  induction 1 as [f | a a' disk _ IH Hstep | | |]; simpl;
    try assumption.
  - apply Engine_initial.
  - eapply step_Engine; eassumption.
  - apply Engine_effects, Engine_remount.
Qed.

Lemma reachable_Engine a : reachable a -> Engine (snd a).
Proof. intros (disk & Hr). now apply (running_Engine a disk). Qed.

Lemma steps_reachable a a' : reachable a -> steps a a' -> reachable a'.
Proof.
  intros Hr. induction 1 as [|a a' a'' _ IH Hstep]; [assumption|].
  eapply reach_step; [now apply IH | eassumption].
Qed.

Lemma nth_error_map_some {A B} (g : A -> B) l i x :
  nth_error l i = Some x -> nth_error (map g l) i = Some (g x).
Proof. intros H. rewrite nth_error_map, H. reflexivity. Qed.

Lemma moves_then s s' s'' : advances s s' -> moves s' s'' -> advances s s''.
Proof.
  unfold advances, moves.
  intros [-> | [-> | (-> & H)]] [-> | [(-> & ->) | (-> & H')]]; auto;
    destruct H; subst; try discriminate; auto.
Qed.

(** What a commit does to the deliveries: with the cleanup of the
    previous run registered or the busy flag down, the first eligible
    delivery is marked as sending; otherwise nothing. *)
Lemma runEffects_dispatches now startIso shouldFail st :
  cleanup st = true \/ processingRef st = false ->
  deliveries (runEffects now startIso shouldFail st)
  = match find (eligible now) (deliveries st) with
    | Some next => map (markSending (e_id next) startIso) (deliveries st)
    | None => deliveries st
    end.
Proof.
  intros H. unfold runEffects, dispatchEffect. simpl.
  destruct (cleanup st); simpl.
  - destruct (find (eligible now) (deliveries st)); reflexivity.
  - destruct H as [H | ->]; [discriminate|].
    destruct (find (eligible now) (deliveries st)); reflexivity.
Qed.

Lemma runEffects_deliveries_cases now startIso shouldFail st :
  deliveries (runEffects now startIso shouldFail st) = deliveries st
  \/ exists next,
       find (eligible now) (deliveries st) = Some next
       /\ deliveries (runEffects now startIso shouldFail st)
          = map (markSending (e_id next) startIso) (deliveries st).
Proof.
  destruct (cleanup st) eqn:Ec; [|destruct (processingRef st) eqn:Ep].
  - rewrite runEffects_dispatches by auto.
    destruct (find (eligible now) (deliveries st)) as [next|]; eauto.
  - left. unfold runEffects, dispatchEffect. simpl. rewrite Ec. simpl.
    now rewrite Ep.
  - rewrite runEffects_dispatches by auto.
    destruct (find (eligible now) (deliveries st)) as [next|]; eauto.
Qed.

(** One step on one delivery of a reachable store. *)
Lemma step_delivery a a' i e :
  reachable a -> step a a' ->
  nth_error (deliveries (snd a)) i = Some e ->
  exists e',
    nth_error (deliveries (snd a')) i = Some e'
    /\ fixedPart e' = fixedPart e
    /\ moves (e_status e) (e_status e')
    /\ (terminal e -> e' = e).
Proof.
  intros Hr Hstep Hnth.
  pose proof (reachable_Inv a Hr) as HI.
  pose proof (reachable_Engine a Hr) as HE.
  assert (Hin : In e (deliveries (snd a))) by (eapply nth_error_In; eauto).
  assert (Same : exists e', Some e = Some e' /\ fixedPart e' = fixedPart e
                            /\ moves (e_status e) (e_status e')
                            /\ (terminal e -> e' = e))
    by (exists e; unfold moves; auto).
  destruct Hstep as [f f' st | isoNow nanoid [f st] _
                     | now startIso shouldFail f st _
                     | completedAt f st id shouldFail Ht]; simpl in *.
  - now rewrite Hnth.
  - destruct (buildLaunch isoNow nanoid f) as [[b es]|] eqn:E.
    + rewrite (handleSubmit_launched _ _ _ st _ _ E). simpl.
      rewrite nth_error_app1 by (apply nth_error_Some; congruence).
      now rewrite Hnth.
    + rewrite (handleSubmit_rejected isoNow nanoid (f, st) E). simpl.
      now rewrite Hnth.
  - destruct (runEffects_deliveries_cases now startIso shouldFail st)
      as [-> | (next & Ef & ->)]; [now rewrite Hnth|].
    apply find_some in Ef. destruct Ef as [Hnext Hel].
    apply eligible_pending in Hel.
    rewrite (nth_error_map_some _ _ _ _ Hnth).
    eexists. split; [reflexivity|]. unfold markSending.
    destruct (String.eqb (e_id e) (e_id next)) eqn:Eid.
    + apply String.eqb_eq in Eid.
      assert (e = next)
        by (eapply same_id_same_entry; eauto using inv_ids).
      subst e. repeat split.
      * unfold moves. simpl. auto.
      * unfold terminal. intros [H | H]; congruence.
    + unfold moves. auto.
  - unfold timeoutFires. rewrite Ht. simpl.
    rewrite (nth_error_map_some _ _ _ _ Hnth).
    eexists. split; [reflexivity|]. unfold markDone.
    destruct (String.eqb (e_id e) id) eqn:Eid; [|unfold moves; auto].
    apply String.eqb_eq in Eid.
    destruct (eng_timeout _ HE id shouldFail Ht) as (e0 & He0 & Hid0 & Hs0).
    assert (e = e0)
      by (eapply same_id_same_entry; eauto using inv_ids; congruence).
    subst e0. repeat split.
    + unfold moves. simpl. rewrite Hs0. destruct shouldFail; auto.
    + unfold terminal. intros [H | H]; congruence.
Qed.

End Life.

Section LifeMore.
Import Composer Page Invariant Lifecycle.

Lemma steps_delivery a a' :
  reachable a -> steps a a' ->
  forall i e,
    nth_error (deliveries (snd a)) i = Some e ->
    exists e',
      nth_error (deliveries (snd a')) i = Some e'
      /\ fixedPart e' = fixedPart e
      /\ advances (e_status e) (e_status e')
      /\ (terminal e -> e' = e).
Proof.
  intros Hr. induction 1 as [a | a a' a'' Hsteps IH Hstep]; intros i e Hnth.
  - exists e. unfold advances. auto.
  - destruct (IH Hr i e Hnth) as (e' & Hn' & Hf' & Ha' & Ht').
    destruct (step_delivery a' a'' i e' (steps_reachable a a' Hr Hsteps)
                Hstep Hn') as (e'' & Hn'' & Hf'' & Hm'' & Ht'').
    exists e''. repeat split.
    + exact Hn''.
    + congruence.
    + eapply moves_then; eassumption.
    + intros Ht. specialize (Ht' Ht). subst e'. now apply Ht''.
Qed.

(** A delivery that is sending and that the armed timeout is not for
    stays as it is through a step. *)
Lemma step_keeps_cancelled a a' e :
  reachable a -> step a a' ->
  In e (deliveries (snd a)) -> e_status e = Sending ->
  ~ targets (snd a) (e_id e) ->
  In e (deliveries (snd a')) /\ ~ targets (snd a') (e_id e).
Proof.
  intros Hr Hstep Hin Hs Hnt.
  pose proof (reachable_Inv a Hr) as HI.
  destruct Hstep as [f f' st | isoNow nanoid [f st] _
                     | now startIso shouldFail f st _
                     | completedAt f st id shouldFail Ht]; simpl in *.
  - auto.
  - destruct (buildLaunch isoNow nanoid f) as [[b es]|] eqn:E.
    + rewrite (handleSubmit_launched _ _ _ st _ _ E). simpl. split.
      * apply in_or_app. now left.
      * exact Hnt.
    + rewrite (handleSubmit_rejected isoNow nanoid (f, st) E). auto.
  - assert (Hmark : forall next,
              In next (deliveries st) -> e_status next = Pending ->
              In e (map (markSending (e_id next) startIso) (deliveries st))
              /\ e_id next <> e_id e).
    { intros next Hnext Hpend.
      assert (Hid : e_id e <> e_id next).
      { intros Heq. assert (e = next)
          by (eapply same_id_same_entry; eauto using inv_ids).
        subst e. congruence. }
      split; [|congruence].
      apply in_map_iff. exists e. split; [|assumption].
      unfold markSending. apply String.eqb_neq in Hid. now rewrite Hid. }
    unfold targets in *. unfold runEffects, dispatchEffect. simpl.
    destruct (cleanup st) eqn:Ec; simpl.
    + destruct (find (eligible now) (deliveries st)) as [next|] eqn:Ef;
        simpl.
      * apply find_some in Ef. destruct Ef as [Hnext Hel].
        apply eligible_pending in Hel.
        destruct (Hmark next Hnext Hel) as [H1 H2].
        split; [exact H1|]. intros (fl & H). injection H as H _.
        congruence.
      * split; [assumption|]. intros (fl & H). discriminate.
    + destruct (processingRef st); simpl; [split; assumption|].
      destruct (find (eligible now) (deliveries st)) as [next|] eqn:Ef;
        simpl.
      * apply find_some in Ef. destruct Ef as [Hnext Hel].
        apply eligible_pending in Hel.
        destruct (Hmark next Hnext Hel) as [H1 H2].
        split; [exact H1|]. intros (fl & H). injection H as H _.
        congruence.
      * split; assumption.
  - unfold timeoutFires, targets. rewrite Ht. simpl. split.
    + apply in_map_iff. exists e. split; [|assumption].
      unfold markDone.
      destruct (String.eqb (e_id e) id) eqn:Eid; [|reflexivity].
      apply String.eqb_eq in Eid. exfalso. apply Hnt.
      exists shouldFail. now rewrite Eid.
    + intros (fl & H). discriminate.
Qed.

Lemma find_first {A} (p : A -> bool) l1 x l2 :
  (forall y, In y l1 -> p y = false) -> p x = true ->
  find p (l1 ++ x :: l2) = Some x.
Proof.
  intros H1 Hx. induction l1 as [|y l1 IH]; simpl.
  - now rewrite Hx.
  - rewrite (H1 y) by now left. apply IH. intros z Hz. apply H1. now right.
Qed.

Lemma map_unchanged {A} (g : A -> A) l :
  (forall x, In x l -> g x = x) -> map g l = l.
Proof.
  induction l as [|x l IH]; simpl; intros H; [reflexivity|].
  rewrite H by now left. f_equal. apply IH. intros y Hy. apply H.
  now right.
Qed.

Lemma fold_total bs :
  forall n,
    fold_left (fun count b => (count + b_totalRecipients b)%nat) bs n
    = (n + totalDeliveriesScheduled bs)%nat.
Proof.
  unfold totalDeliveriesScheduled.
  induction bs as [|b bs IH]; intros n; simpl; [lia|].
  rewrite IH, (IH (b_totalRecipients b)). lia.
Qed.

Lemma total_map_aggregate ds bs :
  totalDeliveriesScheduled (map (aggregate ds) bs)
  = totalDeliveriesScheduled bs.
Proof.
  induction bs as [|b bs IH]; [reflexivity|].
  unfold totalDeliveriesScheduled in *. simpl.
  rewrite !fold_total, aggregate_total. unfold totalDeliveriesScheduled.
  now rewrite IH.
Qed.

End LifeMore.

Section TracesMore.
Import Page Lifecycle.

Lemma launched_to_secondCommit : steps launched secondCommit.
Proof.
  eapply steps_step; [eapply steps_step; [apply steps_refl|]|].
  - rewrite (surjective_pairing launched) at 1.
    apply (step_effects 10 10 false (fst launched) (snd launched)).
    reflexivity.
  - apply (step_effects 20 20 false (fst firstCommit) (snd firstCommit)).
    reflexivity.
Qed.

Lemma secondCommit_to_thirdCommit : steps secondCommit thirdCommit.
Proof.
  eapply steps_step; [eapply steps_step; [apply steps_refl|]|].
  - rewrite (surjective_pairing secondCommit) at 1.
    apply (step_timeout 1900 (fst secondCommit) (snd secondCommit)
             "d2" false).
    reflexivity.
  - apply step_effects. reflexivity.
Qed.

Lemma laterCommit_reachable : reachable laterCommit.
Proof.
  unfold laterCommit.
  set (a := handleSubmit 5 sampleIds (mounted laterForm)).
  assert (R1 : reachable (fst a, snd a)).
  { rewrite <- surjective_pairing. eapply reach_step;
      [apply (mounted_reachable laterForm)|].
    apply step_submit.
    apply sampleIds_fresh; [simpl; lia | reflexivity ..]. }
  eapply reach_step; [exact R1|]. apply step_effects. reflexivity.
Qed.

End TracesMore.

(** X9: the deliveries are a log that only grows at its end.  Through
    any number of steps a delivery keeps its place in the list, its
    identifier, its broadcast, its contact id, name and phone, its
    schedule and its preview. *)
Theorem delivery_keeps_place_and_snapshot :
  forall a a' i e,
    Page.reachable a -> Lifecycle.steps a a' ->
    nth_error (Page.deliveries (snd a)) i = Some e ->
    exists e',
      nth_error (Page.deliveries (snd a')) i = Some e'
      /\ Lifecycle.fixedPart e' = Lifecycle.fixedPart e.
Proof.
  intros a a' i e Hr Hs Hn.
  destruct (steps_delivery a a' Hr Hs i e Hn) as (e' & H1 & H2 & _).
  eauto.
Qed.

Lemma delivery_keeps_place_and_snapshot_witness :
  exists e',
    nth_error (Page.deliveries (snd secondCommit)) 0 = Some e'
    /\ Lifecycle.fixedPart e'
       = ("d1", "b1", "c1", "Dana Lee", "+14155550138", None, "Hi Dana").
Proof.
  apply (delivery_keeps_place_and_snapshot launched secondCommit 0
           (mkEntry "d1" "b1" "c1" "Dana Lee" "+14155550138" None Pending
                    "Hi Dana" None None None)).
  - exact launched_reachable.
  - exact launched_to_secondCommit.
  - reflexivity.
Defined.

(** X10: the status of a delivery only moves forward, from pending to
    sending and from sending to delivered or failed, and a delivery that
    is delivered or failed is never touched again: nothing is retried. *)
Theorem delivery_status_only_advances :
  forall a a' i e,
    Page.reachable a -> Lifecycle.steps a a' ->
    nth_error (Page.deliveries (snd a)) i = Some e ->
    exists e',
      nth_error (Page.deliveries (snd a')) i = Some e'
      /\ (e_status e' = e_status e
          \/ e_status e = Pending
          \/ (e_status e = Sending
              /\ (e_status e' = Delivered \/ e_status e' = Failed)))
      /\ (e_status e = Delivered \/ e_status e = Failed -> e' = e).
Proof.
  intros a a' i e Hr Hs Hn.
  destruct (steps_delivery a a' Hr Hs i e Hn) as (e' & H1 & _ & H3 & H4).
  exists e'. auto.
Qed.

Lemma delivery_status_only_advances_witness :
  exists e',
    nth_error (Page.deliveries (snd thirdCommit)) 1 = Some e'
    /\ (e_status e' = Sending
        \/ Sending = Pending
        \/ (Sending = Sending
            /\ (e_status e' = Delivered \/ e_status e' = Failed)))
    /\ (Sending = Delivered \/ Sending = Failed ->
        e' = mkEntry "d2" "b1" "c2" "Bo Chen" "+14155550139" None Sending
                     "Hi Bo" (Some 20%Z) None None).
Proof.
  apply (delivery_status_only_advances secondCommit thirdCommit 1
           (mkEntry "d2" "b1" "c2" "Bo Chen" "+14155550139" None Sending
                    "Hi Bo" (Some 20%Z) None None)).
  - exact secondCommit_reachable.
  - exact secondCommit_to_thirdCommit.
  - reflexivity.
Defined.

(** X11: a delivery that is sending while the armed timeout, if there is
    one, belongs to another delivery stays sending for ever: its own
    timeout was cancelled by the cleanup of the dispatch effect, and no
    step of the page completes it. *)
Theorem cancelled_send_stays_sending :
  forall a a' e,
    Page.reachable a ->
    In e (Page.deliveries (snd a)) -> e_status e = Sending ->
    ~ Lifecycle.targets (snd a) (e_id e) ->
    Lifecycle.steps a a' ->
    In e (Page.deliveries (snd a'))
    /\ ~ Lifecycle.targets (snd a') (e_id e).
Proof.
  intros a a' e Hr Hin Hs Hnt Hsteps.
  induction Hsteps as [a | a a' a'' Hsteps IH Hstep]; [auto|].
  destruct (IH Hr Hin Hnt) as [Hin' Hnt'].
  apply (step_keeps_cancelled a' a'' e); try assumption.
  now apply (steps_reachable a a').
Qed.

Lemma cancelled_send_stays_sending_witness :
  In firstSending (Page.deliveries (snd thirdCommit))
  /\ ~ Lifecycle.targets (snd thirdCommit) (e_id firstSending).
Proof.
  apply (cancelled_send_stays_sending secondCommit thirdCommit firstSending).
  - exact secondCommit_reachable.
  - left. reflexivity.
  - reflexivity.
  - intros (fl & H). discriminate.
  - exact secondCommit_to_thirdCommit.
Defined.

(** X12: every commit of a reachable page dispatches in the order of the
    list.  If a delivery is eligible and none before it is, the commit
    marks that one as sending, stamps its start and leaves every other
    delivery as it is, whatever is being sent already. *)
Theorem commit_dispatches_first_eligible :
  forall f st now startIso shouldFail l1 next l2,
    Page.reachable (f, st) ->
    Page.deliveries st = (l1 ++ next :: l2)%list ->
    (forall e, In e l1 -> Page.eligible now e = false) ->
    Page.eligible now next = true ->
    Page.deliveries (Page.runEffects now startIso shouldFail st)
    = (l1 ++ Page.withStatus next Sending (Some startIso)
                (e_completedAt next) (e_error next) :: l2)%list
    /\ Page.timeout (Page.runEffects now startIso shouldFail st)
       = Some (e_id next, shouldFail).
Proof.
  intros f st now startIso shouldFail l1 next l2 Hr Hds Hl1 Hnext.
  pose proof (reachable_Inv _ Hr) as HI.
  pose proof (reachable_Engine _ Hr) as HE. simpl in HI, HE.
  assert (Hgo : Page.cleanup st = true \/ Page.processingRef st = false).
  { destruct (Page.cleanup st) eqn:Ec; [now left|]. right.
    destruct (Page.processingRef st) eqn:Ep; [|reflexivity].
    rewrite (Lifecycle.eng_flag _ HE Ep) in Ec. discriminate. }
  assert (Hfind : find (Page.eligible now) (Page.deliveries st) = Some next)
    by (rewrite Hds; now apply find_first).
  split.
  - rewrite runEffects_dispatches by exact Hgo. rewrite Hfind.
    pose proof (Invariant.inv_ids _ HI) as Hnd. rewrite Hds in Hnd |- *.
    rewrite map_app in Hnd. simpl in Hnd.
    apply NoDup_remove_2 in Hnd.
    rewrite map_app. simpl. unfold Page.markSending at 2.
    rewrite String.eqb_refl. f_equal; [|f_equal];
      apply map_unchanged; intros x Hx; unfold Page.markSending;
      destruct (String.eqb (e_id x) (e_id next)) eqn:E; try reflexivity;
      apply String.eqb_eq in E; exfalso; apply Hnd; rewrite <- E;
      apply in_or_app; [left | right]; now apply in_map.
  - unfold Page.runEffects, Page.dispatchEffect. simpl.
    destruct (Page.cleanup st); simpl.
    + now rewrite Hfind.
    + destruct Hgo as [? | ->]; [discriminate|]. now rewrite Hfind.
Qed.

Lemma commit_dispatches_first_eligible_witness :
  Page.deliveries (Page.runEffects 20 20 false (snd firstCommit))
  = ([firstSending]
     ++ Page.withStatus
          (mkEntry "d2" "b1" "c2" "Bo Chen" "+14155550139" None Pending
                   "Hi Bo" None None None)
          Sending (Some 20%Z) None None :: [])%list
  /\ Page.timeout (Page.runEffects 20 20 false (snd firstCommit))
     = Some ("d2", false).
Proof.
  apply (commit_dispatches_first_eligible (fst firstCommit)
           (snd firstCommit) 20 20 false [firstSending]
           (mkEntry "d2" "b1" "c2" "Bo Chen" "+14155550139" None Pending
                    "Hi Bo" None None None) []).
  - apply (steps_reachable launched firstCommit launched_reachable).
    eapply Lifecycle.steps_step; [apply Lifecycle.steps_refl|].
    rewrite (surjective_pairing launched) at 1.
    apply (Page.step_effects 10 10 false (fst launched) (snd launched)).
    reflexivity.
  - reflexivity.
  - intros e [<- | []]. reflexivity.
  - reflexivity.
Defined.

(** X13: while the page is loaded, the "total deliveries" of the
    composer, the sum of the recipients the broadcasts record, and the
    number of deliveries in the log grow by the same amount: a launch adds
    its recipients to both, and no other step changes either.  So the two
    are equal for as long as the page stays loaded if they were when it
    was loaded, as on a first visit. *)
Theorem total_deliveries_grow_with_log :
  forall a a',
    Lifecycle.steps a a' ->
    (Lifecycle.totalDeliveriesScheduled (Page.broadcasts (snd a'))
     + List.length (Page.deliveries (snd a))
     = Lifecycle.totalDeliveriesScheduled (Page.broadcasts (snd a))
       + List.length (Page.deliveries (snd a')))%nat.
Proof.
  induction 1 as [a | a a' a'' _ IH Hstep]; [lia|].
  enough (Lifecycle.totalDeliveriesScheduled (Page.broadcasts (snd a''))
          + List.length (Page.deliveries (snd a'))
          = Lifecycle.totalDeliveriesScheduled (Page.broadcasts (snd a'))
            + List.length (Page.deliveries (snd a'')))%nat by lia.
  clear IH.
  destruct Hstep as [f f' st | isoNow nanoid [f st] _
                     | now startIso shouldFail f st _
                     | completedAt f st id shouldFail Ht]; simpl.
  - reflexivity.
  - destruct (Composer.buildLaunch isoNow nanoid f) as [[b es]|] eqn:E.
    + rewrite (handleSubmit_launched _ _ _ st _ _ E). simpl.
      unfold Lifecycle.totalDeliveriesScheduled at 1. simpl.
      rewrite fold_total, length_app.
      unfold Composer.buildLaunch in E.
      repeat match type of E with
             | (if ?c then None else _) = Some _ =>
                 destruct c; [discriminate|]
             end.
      injection E as <- <-. simpl. rewrite mapIndexed_length. lia.
    + rewrite (handleSubmit_rejected isoNow nanoid (f, st) E). reflexivity.
  - rewrite runEffects_broadcasts, total_map_aggregate.
    destruct (runEffects_deliveries_cases now startIso shouldFail st)
      as [-> | (next & _ & ->)]; [reflexivity|].
    now rewrite length_map.
  - unfold Page.timeoutFires. rewrite Ht. simpl.
    now rewrite length_map.
Qed.

Lemma total_deliveries_grow_with_log_witness :
  (Lifecycle.totalDeliveriesScheduled (Page.broadcasts (snd launched))
   + List.length (Page.deliveries (snd (mounted twoForm)))
   = Lifecycle.totalDeliveriesScheduled
       (Page.broadcasts (snd (mounted twoForm)))
     + List.length (Page.deliveries (snd launched)))%nat
  /\ Lifecycle.totalDeliveriesScheduled (Page.broadcasts (snd launched))
     = 2%nat.
Proof.
  split; [|reflexivity].
  apply (total_deliveries_grow_with_log (mounted twoForm) launched).
  eapply Lifecycle.steps_step; [apply Lifecycle.steps_refl|].
  apply Page.step_submit.
  apply sampleIds_fresh; [simpl; lia | reflexivity ..].
Defined.

(** X14: a commit that finds no delivery eligible leaves the page at
    rest: no timeout is armed and the effects will not run again before
    [deliveries] is a new array.  Whatever step comes next, the
    deliveries that are there stay exactly as they are; a delivery
    scheduled for later is therefore not picked up when its time comes,
    but only after a launch or a reload. *)
Theorem idle_page_dispatches_nothing :
  forall f st now startIso shouldFail a',
    Page.reachable (f, st) ->
    find (Page.eligible now) (Page.deliveries st) = None ->
    Page.step (f, Page.runEffects now startIso shouldFail st) a' ->
    exists added,
      Page.deliveries (snd a') = (Page.deliveries st ++ added)%list.
Proof.
  intros f st now startIso shouldFail a' Hr Hnone Hstep.
  pose proof (reachable_Engine _ Hr) as HE. simpl in HE.
  assert (Hds : Page.deliveries (Page.runEffects now startIso shouldFail st)
                = Page.deliveries st).
  { destruct (runEffects_deliveries_cases now startIso shouldFail st)
      as [H | (next & H & _)]; [exact H | congruence]. }
  assert (Hidle : Page.stale (Page.runEffects now startIso shouldFail st)
                  = false
                  /\ Page.timeout
                       (Page.runEffects now startIso shouldFail st)
                     = if Page.cleanup st then None else Page.timeout st).
  { unfold Page.runEffects, Page.dispatchEffect.
    destruct (Page.cleanup st); simpl;
      destruct (Page.processingRef st); simpl; rewrite ?Hnone; auto. }
  destruct Hidle as [Hstale Htimeout].
  assert (Hnone' : Page.timeout
                     (Page.runEffects now startIso shouldFail st) = None).
  { rewrite Htimeout. destruct (Page.cleanup st) eqn:Ec; [reflexivity|].
    destruct (Page.timeout st) eqn:Et; [|reflexivity].
    assert (Page.timeout st <> None) by congruence.
    rewrite (Lifecycle.eng_armed _ HE) in Ec by assumption.
    discriminate. }
  inversion Hstep as [f1 f2 st1 | isoNow nanoid a Hfresh
                      | now' startIso' shouldFail' f1 st1 Hst
                      | completedAt f1 st1 id fl Ht]; subst; simpl.
  - exists []. now rewrite app_nil_r.
  - destruct (Composer.buildLaunch isoNow nanoid f) as [[b es]|] eqn:E.
    + rewrite (handleSubmit_launched _ _ _ _ _ _ E). simpl.
      exists es. now rewrite Hds.
    + rewrite (handleSubmit_rejected isoNow nanoid
                 (f, Page.runEffects now startIso shouldFail st) E).
      simpl. exists []. now rewrite app_nil_r.
  - congruence.
  - congruence.
Qed.

Lemma idle_page_dispatches_nothing_witness :
  exists added,
    Page.deliveries (snd (tagModeForm, snd laterCommit))
    = (Page.deliveries (snd (Page.handleSubmit 5 sampleIds
                               (mounted laterForm))) ++ added)%list.
Proof.
  apply (idle_page_dispatches_nothing
           (fst (Page.handleSubmit 5 sampleIds (mounted laterForm)))
           (snd (Page.handleSubmit 5 sampleIds (mounted laterForm)))
           10 10 false (tagModeForm, snd laterCommit)).
  - rewrite <- surjective_pairing. eapply reach_step;
      [apply (mounted_reachable laterForm)|].
    apply Page.step_submit.
    apply sampleIds_fresh; [simpl; lia | reflexivity ..].
  - reflexivity.
  - apply Page.step_edit.
Defined.

(** X15: no pending delivery falls between the dispatch and the header.
    When the clock of the header is not more than half a second ahead of
    the clock of the dispatch, a pending delivery is eligible for
    dispatch or counted among the scheduled ones; and what is counted
    there is pending with a time still to come. *)
Theorem pending_is_eligible_or_scheduled :
  forall now dispatchNow ds e,
    (now <= dispatchNow + 500)%Z ->
    In e ds ->
    (e_status e = Pending ->
     Page.eligible dispatchNow e = true
     \/ In e (Lifecycle.scheduledDeliveries now ds))
    /\ (In e (Lifecycle.scheduledDeliveries now ds) ->
        e_status e = Pending
        /\ exists t, e_scheduledFor e = Some t /\ (now < t)%Z).
Proof.
  intros now dispatchNow ds e Hclock Hin. split.
  - intros Hp. unfold Page.eligible, Lifecycle.scheduledDeliveries,
      Page.hasStatus. rewrite filter_In, Hp. simpl.
    destruct (e_scheduledFor e) as [t|]; [|now left].
    destruct (Z.leb_spec t (dispatchNow + 500)); [now left|].
    right. split; [assumption|]. apply Z.ltb_lt. lia.
  - unfold Lifecycle.scheduledDeliveries, Page.hasStatus.
    rewrite filter_In. intros [_ H].
    apply andb_true_iff in H. destruct H as [Hs Ht].
    apply DeliveryStatus_eqb_eq in Hs. split; [assumption|].
    destruct (e_scheduledFor e) as [t|]; [|discriminate].
    exists t. split; [reflexivity|]. now apply Z.ltb_lt.
Qed.

Lemma pending_is_eligible_or_scheduled_witness :
  (Pending = Pending ->
   Page.eligible 10 (mkEntry "d1" "b1" "c1" "Dana Lee" "+14155550138"
                             (Some 86400000%Z) Pending "Hi Dana"
                             None None None) = true
   \/ In (mkEntry "d1" "b1" "c1" "Dana Lee" "+14155550138"
                  (Some 86400000%Z) Pending "Hi Dana" None None None)
         (Lifecycle.scheduledDeliveries 0
            (Page.deliveries (snd laterCommit))))
  /\ (In (mkEntry "d1" "b1" "c1" "Dana Lee" "+14155550138"
                  (Some 86400000%Z) Pending "Hi Dana" None None None)
         (Lifecycle.scheduledDeliveries 0
            (Page.deliveries (snd laterCommit))) ->
      Pending = Pending
      /\ exists t, Some 86400000%Z = Some t /\ (0 < t)%Z).
Proof.
  apply (pending_is_eligible_or_scheduled 0 10
           (Page.deliveries (snd laterCommit))
           (mkEntry "d1" "b1" "c1" "Dana Lee" "+14155550138"
                    (Some 86400000%Z) Pending "Hi Dana" None None None)).
  - lia.
  - left. reflexivity.
Defined.

(** X16: after a launch the composer's effect fills the emptied message
    with the body of the selected template, if one is selected; the
    compliance box stays unticked through it, so that a second submission
    still creates nothing. *)
Theorem message_refilled_after_launch :
  forall isoNow nanoid isoNow' nanoid' f st,
    JsString.truthy (JsString.trim (Composer.broadcastLabel f)) = true ->
    JsString.truthy (JsString.trim (Composer.message f)) = true ->
    Composer.acknowledgedCompliance f = true ->
    Composer.filteredContacts f <> [] ->
    let a := Page.handleSubmit isoNow nanoid (f, st) in
    let refilled := (Lifecycle.templateEffect (fst a), snd a) in
    Composer.message (fst refilled)
    = match Composer.selectedTemplate f with
      | Some template => template_body template
      | None => ""
      end
    /\ Page.handleSubmit isoNow' nanoid' refilled = refilled.
Proof.
  intros isoNow nanoid isoNow' nanoid' f st Hl Hm Ha Hc a refilled.
  subst refilled a.
  assert (Hk : (1 <= List.length (Composer.filteredContacts f))%nat)
    by (destruct (Composer.filteredContacts f); [congruence | simpl; lia]).
  destruct (buildLaunch_accepted isoNow nanoid f Hl Hm Ha Hk)
    as (b & es & Hb & _).
  rewrite (handleSubmit_launched _ _ _ st _ _ Hb). simpl.
  unfold Lifecycle.templateEffect, Composer.selectedTemplate. simpl.
  destruct (Composer.selectedTemplateId f) as [id|]; simpl.
  - destruct (find _ (Composer.templates f)) as [t|]; simpl.
    + split; [reflexivity|]. apply handleSubmit_rejected. simpl.
      apply buildLaunch_not_acknowledged. reflexivity.
    + split; [reflexivity|]. apply handleSubmit_rejected. reflexivity.
  - split; [reflexivity|]. apply handleSubmit_rejected. reflexivity.
Qed.

Lemma message_refilled_after_launch_witness :
  Composer.message
    (Lifecycle.templateEffect
       (fst (Page.handleSubmit 0 sampleIds (templateForm, Page.initialStore))))
  = "Welcome {{firstName}}!"
  /\ Page.handleSubmit 1 secondIds
       (Lifecycle.templateEffect
          (fst (Page.handleSubmit 0 sampleIds
                  (templateForm, Page.initialStore))),
        snd (Page.handleSubmit 0 sampleIds (templateForm, Page.initialStore)))
     = (Lifecycle.templateEffect
          (fst (Page.handleSubmit 0 sampleIds
                  (templateForm, Page.initialStore))),
        snd (Page.handleSubmit 0 sampleIds (templateForm, Page.initialStore))).
Proof.
  apply (message_refilled_after_launch 0 sampleIds 1 secondIds templateForm
           Page.initialStore); [reflexivity .. | discriminate].
Defined.

(* ================================================================== *)
(** * The contact list *)
(* ================================================================== *)

Section ContactList.
Import JsString Composer Contacts.

Lemma existsb_eqb_In k (l : list string) :
  existsb (String.eqb k) l = true <-> In k l.
Proof.
  rewrite existsb_exists. split.
  - intros (x & Hx & E). apply String.eqb_eq in E. now subst.
  - intros H. exists k. split; [assumption | apply String.eqb_refl].
Qed.

Lemma existsb_eqb_not_In k (l : list string) :
  existsb (String.eqb k) l = false <-> ~ In k l.
Proof.
  rewrite <- existsb_eqb_In. destruct (existsb _ l); split; intros H;
    congruence.
Qed.

Lemma keepUnseen_Subsequence seen imported :
  Spec.Subsequence (keepUnseen seen imported) imported.
Proof.
  revert seen. induction imported as [|c l IH]; intros seen; simpl.
  - constructor.
  - destruct (existsb _ seen); constructor; apply IH.
Qed.

Lemma keepUnseen_unseen seen imported c :
  In c (keepUnseen seen imported) -> ~ In (phoneKey c) seen.
Proof.
  revert seen. induction imported as [|x l IH]; intros seen; simpl.
  - intros [].
  - destruct (existsb _ seen) eqn:E.
    + apply IH.
    + intros [<- | H].
      * now apply existsb_eqb_not_In.
      * intros Hc. apply (IH _ H). now right.
Qed.

Lemma keepUnseen_NoDup seen imported :
  NoDup (map phoneKey (keepUnseen seen imported)).
Proof.
  revert seen. induction imported as [|x l IH]; intros seen; simpl.
  - constructor.
  - destruct (existsb _ seen) eqn:E; [apply IH|].
    simpl. constructor; [|apply IH].
    intros H. apply in_map_iff in H. destruct H as (c & Hk & Hc).
    apply keepUnseen_unseen in Hc. apply Hc. left. now rewrite Hk.
Qed.

Lemma keepUnseen_covers seen imported c :
  In c imported ->
  In (phoneKey c) seen
  \/ In (phoneKey c) (map phoneKey (keepUnseen seen imported)).
Proof.
  revert seen. induction imported as [|x l IH]; intros seen; simpl.
  - intros [].
  - intros [<- | H].
    + destruct (existsb _ seen) eqn:E.
      * left. now apply existsb_eqb_In.
      * right. now left.
    + destruct (existsb _ seen) eqn:E.
      * apply IH, H.
      * destruct (IH (digitsOnly (contact_phone x) :: seen) H) as [[G | G] | G].
        -- right. left. exact G.
        -- now left.
        -- right. now right.
Qed.

Lemma keepUnseen_all_seen seen imported :
  (forall c, In c imported -> In (phoneKey c) seen) ->
  keepUnseen seen imported = [].
Proof.
  induction imported as [|x l IH]; simpl; [reflexivity|].
  intros H.
  assert (E : existsb (String.eqb (digitsOnly (contact_phone x))) seen = true)
    by (apply existsb_eqb_In, (H x); now left).
  rewrite E. apply IH. intros c Hc. apply H. now right.
Qed.

Lemma handleBulkAdd_unique imported prev :
  handleBulkAdd imported prev
  = (keepUnseen (map phoneKey prev) imported ++ prev)%list.
Proof.
  unfold handleBulkAdd. destruct imported as [|c l]; [reflexivity|].
  change (map (fun contact => digitsOnly (contact_phone contact)) prev)
    with (map phoneKey prev).
  now destruct (keepUnseen (map phoneKey prev) (c :: l)).
Qed.

Lemma filter_comm {A} (p q : A -> bool) l :
  filter p (filter q l) = filter q (filter p l).
Proof.
  rewrite !filter_twice. apply filter_ext. intros a. apply andb_comm.
Qed.

Lemma setOptIn_same c : setOptIn (contact_optIn c) c = c.
Proof. now destruct c. Qed.

Lemma optedIn_toggle_off id cs :
  filter (fun contact => contact_optIn contact)
         (handleToggleOptIn id false cs)
  = filter (fun contact => negb (String.eqb (contact_id contact) id))
           (filter (fun contact => contact_optIn contact) cs).
Proof.
  rewrite filter_twice. unfold handleToggleOptIn.
  induction cs as [|c cs IH]; simpl; [reflexivity|].
  destruct (String.eqb (contact_id c) id) eqn:E; simpl.
  - rewrite andb_false_r. exact IH.
  - rewrite andb_true_r. destruct (contact_optIn c); now rewrite IH.
Qed.

End ContactList.

(** X17: an import puts its new contacts before the old ones, which all
    stay in their order; the new ones are rows of the import in their
    order, no two of them have the same digits in their phone, and none has
    the digits of a contact that was there. So a list without two contacts
    of the same digits stays one. *)
Theorem bulk_add_skips_known_phones :
  forall imported prev,
    exists added,
      Contacts.handleBulkAdd imported prev = (added ++ prev)%list /\
      Spec.Subsequence added imported /\
      NoDup (map Contacts.phoneKey added) /\
      (forall c, In c added ->
         ~ In (Contacts.phoneKey c) (map Contacts.phoneKey prev)) /\
      (NoDup (map Contacts.phoneKey prev) ->
       NoDup (map Contacts.phoneKey (Contacts.handleBulkAdd imported prev))).
Proof.
  intros imported prev.
  exists (Contacts.keepUnseen (map Contacts.phoneKey prev) imported).
  rewrite handleBulkAdd_unique.
  split; [reflexivity|].
  split; [apply keepUnseen_Subsequence|].
  split; [apply keepUnseen_NoDup|].
  split; [intros c; apply keepUnseen_unseen|].
  intros Hprev. rewrite map_app.
  pose proof (keepUnseen_NoDup (map Contacts.phoneKey prev) imported) as Hn.
  pose proof (keepUnseen_unseen (map Contacts.phoneKey prev) imported) as Hu.
  revert Hn Hu.
  generalize (Contacts.keepUnseen (map Contacts.phoneKey prev) imported).
  intros added Hn Hu. induction added as [|x added IH]; [exact Hprev|].
  simpl. inversion Hn as [|? ? Hx Hn']; subst. constructor.
  - rewrite in_app_iff. intros [H | H]; [now apply Hx|].
    apply (Hu x); [now left | exact H].
  - apply IH; [exact Hn'|]. intros c' Hc'. apply Hu. now right.
Qed.

Lemma bulk_add_skips_known_phones_witness :
  exists added,
    Contacts.handleBulkAdd [knownRow; newRow; repeatedRow]
                           [sampleContact; secondContact]
    = (added ++ [sampleContact; secondContact])%list /\
    Spec.Subsequence added [knownRow; newRow; repeatedRow] /\
    NoDup (map Contacts.phoneKey added) /\
    (forall c, In c added ->
       ~ In (Contacts.phoneKey c)
            (map Contacts.phoneKey [sampleContact; secondContact])) /\
    (NoDup (map Contacts.phoneKey [sampleContact; secondContact]) ->
     NoDup (map Contacts.phoneKey
              (Contacts.handleBulkAdd [knownRow; newRow; repeatedRow]
                                      [sampleContact; secondContact]))).
Proof.
  apply (bulk_add_skips_known_phones [knownRow; newRow; repeatedRow]
           [sampleContact; secondContact]).
Defined.

(** X18: after an import every imported phone is on the list, by its
    digits; importing the same rows again changes nothing. *)
Theorem bulk_add_covers_import :
  forall imported prev,
    (forall c, In c imported ->
       In (Contacts.phoneKey c)
          (map Contacts.phoneKey (Contacts.handleBulkAdd imported prev))) /\
    Contacts.handleBulkAdd imported (Contacts.handleBulkAdd imported prev)
    = Contacts.handleBulkAdd imported prev.
Proof.
  intros imported prev.
  assert (Hcov : forall c, In c imported ->
            In (Contacts.phoneKey c)
               (map Contacts.phoneKey
                    (Contacts.handleBulkAdd imported prev))).
  { intros c Hc. rewrite handleBulkAdd_unique, map_app, in_app_iff.
    destruct (keepUnseen_covers (map Contacts.phoneKey prev) imported c Hc);
      auto. }
  split; [exact Hcov|].
  rewrite (handleBulkAdd_unique imported (Contacts.handleBulkAdd _ _)).
  now rewrite (keepUnseen_all_seen _ _ Hcov).
Qed.

Lemma bulk_add_covers_import_witness :
  (forall c, In c [knownRow; newRow; repeatedRow] ->
     In (Contacts.phoneKey c)
        (map Contacts.phoneKey
             (Contacts.handleBulkAdd [knownRow; newRow; repeatedRow]
                                     [sampleContact; secondContact]))) /\
  Contacts.handleBulkAdd [knownRow; newRow; repeatedRow]
    (Contacts.handleBulkAdd [knownRow; newRow; repeatedRow]
                            [sampleContact; secondContact])
  = [newRow; sampleContact; secondContact].
Proof.
  apply (bulk_add_covers_import [knownRow; newRow; repeatedRow]
           [sampleContact; secondContact]).
Defined.

(** X19: removing a contact, or opting it out, takes the contacts of that
    identifier out of the audience of the composer and leaves the rest of
    the audience as it was, whatever the audience mode and tag. *)
Theorem removed_or_opted_out_leaves_audience :
  forall f id,
    let others :=
      filter (fun contact => negb (String.eqb (contact_id contact) id))
             (Composer.filteredContacts f) in
    Composer.filteredContacts
      (Contacts.withContacts f
         (Contacts.handleRemoveContact id (Composer.contacts f)))
    = others
    /\ Composer.filteredContacts
         (Contacts.withContacts f
            (Contacts.handleToggleOptIn id false (Composer.contacts f)))
       = others.
Proof.
  intros f id others. subst others.
  unfold Composer.filteredContacts, Composer.optedInContacts,
    Contacts.handleRemoveContact.
  simpl. rewrite optedIn_toggle_off.
  rewrite (filter_comm (fun contact => contact_optIn contact)).
  destruct (Composer.audienceMode f), (Composer.audienceTag f) as [tag|];
    try (split; reflexivity).
  destruct (JsString.truthy tag); [|split; reflexivity].
  rewrite (filter_comm (Composer.hasTag tag)). split; reflexivity.
Qed.

Lemma removed_or_opted_out_leaves_audience_witness :
  Composer.filteredContacts
    (Contacts.withContacts vipForm
       (Contacts.handleRemoveContact "c1" (Composer.contacts vipForm)))
  = [secondContact]
  /\ Composer.filteredContacts
       (Contacts.withContacts vipForm
          (Contacts.handleToggleOptIn "c1" false (Composer.contacts vipForm)))
     = [secondContact].
Proof. apply (removed_or_opted_out_leaves_audience vipForm "c1"). Defined.

(** X20: the opt-in switch of a contact changes nothing but the flag of
    the contacts with that identifier: the list keeps its length and order
    and every other field, the contacts with another identifier keep their
    flag, and those with the identifier all get the flag asked for. *)
Theorem toggle_changes_only_the_flag :
  forall id optIn cs,
    map (Contacts.setOptIn true) (Contacts.handleToggleOptIn id optIn cs)
    = map (Contacts.setOptIn true) cs
    /\ filter (fun contact => negb (String.eqb (contact_id contact) id))
              (Contacts.handleToggleOptIn id optIn cs)
       = filter (fun contact => negb (String.eqb (contact_id contact) id)) cs
    /\ (forall c, In c (Contacts.handleToggleOptIn id optIn cs) ->
          contact_id c = id -> contact_optIn c = optIn).
Proof.
  intros id optIn cs. unfold Contacts.handleToggleOptIn.
  split; [|split].
  - induction cs as [|c cs IH]; simpl; [reflexivity|].
    rewrite IH. now destruct (String.eqb (contact_id c) id).
  - induction cs as [|c cs IH]; simpl; [reflexivity|].
    destruct (String.eqb (contact_id c) id) eqn:E; simpl; rewrite E; simpl;
      now rewrite IH.
  - intros c Hc Hid. apply in_map_iff in Hc. destruct Hc as (x & Hx & _).
    destruct (String.eqb (contact_id x) id) eqn:E; subst c; [reflexivity|].
    apply String.eqb_neq in E. contradiction.
Qed.

Lemma toggle_changes_only_the_flag_witness :
  map (Contacts.setOptIn true)
      (Contacts.handleToggleOptIn "c3" true
         [sampleContact; secondContact; optedOutContact])
  = map (Contacts.setOptIn true)
        [sampleContact; secondContact; optedOutContact]
  /\ filter (fun contact => negb (String.eqb (contact_id contact) "c3"))
            (Contacts.handleToggleOptIn "c3" true
               [sampleContact; secondContact; optedOutContact])
     = [sampleContact; secondContact]
  /\ (forall c,
        In c (Contacts.handleToggleOptIn "c3" true
                [sampleContact; secondContact; optedOutContact]) ->
        contact_id c = "c3" -> contact_optIn c = true).
Proof.
  apply (toggle_changes_only_the_flag "c3" true
           [sampleContact; secondContact; optedOutContact]).
Defined.

Section Trimming.
Import JsString Composer Contacts.

Lemma trimEnd_cons c s :
  trimEnd (String c s)
  = match trimEnd s with
    | EmptyString => if isWhiteSpace c then EmptyString
                     else String c EmptyString
    | t => String c t
    end.
Proof. reflexivity. Qed.

Lemma trimEnd_idempotent s : trimEnd (trimEnd s) = trimEnd s.
Proof.
  induction s as [|c s IH]; [reflexivity|].
  rewrite trimEnd_cons. destruct (trimEnd s) as [|a t] eqn:E.
  - destruct (isWhiteSpace c) eqn:W; [reflexivity|].
    rewrite trimEnd_cons. simpl. now rewrite W.
  - rewrite trimEnd_cons, IH. reflexivity.
Qed.

(** What starts with no white space keeps its start when it is trimmed at
    its end. *)
Lemma trimStart_trimEnd s :
  trimStart s = s -> trimStart (trimEnd s) = trimEnd s.
Proof.
  destruct s as [|c s]; [reflexivity|].
  intros H. assert (W : isWhiteSpace c = false).
  { destruct (isWhiteSpace c) eqn:W; [|reflexivity]. exfalso.
    simpl in H. rewrite W in H.
    assert (L : (String.length (trimStart s) <= String.length s)%nat).
    { clear. induction s as [|a s IH]; simpl; [lia|].
      destruct (isWhiteSpace a); simpl; lia. }
    rewrite H in L. simpl in L. lia. }
  rewrite trimEnd_cons. destruct (trimEnd s); rewrite ?W; simpl;
    now rewrite W.
Qed.

Lemma trimStart_idempotent s : trimStart (trimStart s) = trimStart s.
Proof.
  induction s as [|c s IH]; [reflexivity|]. simpl.
  destruct (isWhiteSpace c) eqn:W; [exact IH|]. simpl. now rewrite W.
Qed.

Lemma trim_idempotent s : trim (trim s) = trim s.
Proof.
  unfold trim.
  rewrite (trimStart_trimEnd _ (trimStart_idempotent s)).
  apply trimEnd_idempotent.
Qed.

Lemma hasChar_trimStart c s :
  hasChar c (trimStart s) = true -> hasChar c s = true.
Proof.
  induction s as [|a s IH]; simpl; [auto|].
  destruct (isWhiteSpace a); simpl; [|auto].
  intros H. rewrite (IH H). apply orb_true_r.
Qed.

Lemma hasChar_trimEnd c s :
  hasChar c (trimEnd s) = true -> hasChar c s = true.
Proof.
  induction s as [|a s IH]; [auto|].
  rewrite trimEnd_cons. destruct (trimEnd s) as [|b t].
  - destruct (isWhiteSpace a); simpl; [discriminate|].
    rewrite orb_false_r. intros ->. reflexivity.
  - intros H. change (hasChar c (String a (String b t)))
      with (Ascii.eqb a c || hasChar c (String b t)) in H.
    simpl. destruct (Ascii.eqb a c); [reflexivity|]. simpl in H |- *.
    apply IH. exact H.
Qed.

Lemma hasChar_trim c s : hasChar c (trim s) = true -> hasChar c s = true.
Proof. intros H. now apply hasChar_trimStart, hasChar_trimEnd. Qed.

Lemma split_pieces sep s w :
  In w (split sep s) -> hasChar sep w = false.
Proof.
  revert w. induction s as [|c s IH]; simpl; intros w.
  - intros [<- | []]. reflexivity.
  - destruct (Ascii.eqb c sep) eqn:E.
    + intros [<- | H]; [reflexivity | now apply IH].
    + destruct (split sep s) as [|x xs].
      * intros [<- | []]. simpl. now rewrite E.
      * intros [<- | H].
        -- simpl. rewrite E. apply IH. now left.
        -- apply IH. now right.
Qed.

(** The tags kept of a tags field are not empty, have no white space
    around them and no comma in them. *)
Lemma parseTags_clean tags t :
  In t (parseTags tags) ->
  t <> "" /\ trim t = t /\ hasChar "," t = false.
Proof.
  unfold parseTags. intros H. apply filter_In in H. destruct H as [H Ht].
  apply in_map_iff in H. destruct H as (w & <- & Hw).
  split; [intros E; rewrite E in Ht; discriminate|].
  split; [apply trim_idempotent|].
  destruct (hasChar "," (trim w)) eqn:E; [|reflexivity].
  apply hasChar_trim in E. now rewrite (split_pieces _ _ _ Hw) in E.
Qed.

Lemma truthy_nonempty s : truthy s = true <-> s <> "".
Proof. destruct s; simpl; split; congruence. Qed.

End Trimming.

(** X21: the form of the contact manager adds a contact exactly when the
    name has something other than white space and the trimmed phone has
    the shape asked for; the contact goes before the others, opted in, its
    name and phone trimmed, its tags not empty, trimmed and without comma,
    its notes never the empty text, and the form is emptied. Otherwise the
    list stays as it was and the form keeps its fields and shows an
    error. *)
Theorem submitted_contact_is_clean :
  forall id isoNow form prev,
    let result := Contacts.submitContact id isoNow form prev in
    if JsString.truthy (JsString.trim (Contacts.cf_name form))
       && Contacts.phonePattern (JsString.trim (Contacts.cf_phone form))
    then
      exists c,
        result = (Contacts.emptyContactForm, c :: prev) /\
        contact_id c = id /\ contact_optIn c = true /\
        contact_name c <> "" /\
        JsString.trim (contact_name c) = contact_name c /\
        JsString.trim (contact_phone c) = contact_phone c /\
        Contacts.phonePattern (contact_phone c) = true /\
        (forall t, In t (contact_tags c) ->
           t <> "" /\ JsString.trim t = t /\ JsString.hasChar "," t = false) /\
        contact_notes c <> Some ""
    else
      snd result = prev /\
      Contacts.cf_errors (fst result) <> None /\
      (Contacts.cf_name (fst result), Contacts.cf_phone (fst result),
       Contacts.cf_tags (fst result), Contacts.cf_notes (fst result))
      = (Contacts.cf_name form, Contacts.cf_phone form,
         Contacts.cf_tags form, Contacts.cf_notes form).
Proof.
  intros id isoNow form prev result. subst result.
  unfold Contacts.submitContact.
  destruct (JsString.truthy (JsString.trim (Contacts.cf_name form))) eqn:Hn;
    simpl.
  - destruct (Contacts.phonePattern
                (JsString.trim (Contacts.cf_phone form))) eqn:Hp; simpl.
    + eexists. split; [reflexivity|]. simpl.
      split; [reflexivity|]. split; [reflexivity|].
      split; [now apply truthy_nonempty|].
      split; [apply trim_idempotent|].
      split; [apply trim_idempotent|].
      split; [exact Hp|].
      split; [apply parseTags_clean|].
      destruct (JsString.truthy (JsString.trim (Contacts.cf_notes form)))
        eqn:Ho; [|discriminate].
      intros E. injection E as E. rewrite E in Ho. discriminate.
    + repeat split; discriminate.
  - repeat split; discriminate.
Qed.

Lemma submitted_contact_is_clean_witness :
  (exists c,
     Contacts.submitContact "n1" 9 contactForm [sampleContact]
     = (Contacts.emptyContactForm, [c; sampleContact]) /\
     contact_id c = "n1" /\ contact_optIn c = true /\
     contact_name c <> "" /\
     JsString.trim (contact_name c) = contact_name c /\
     JsString.trim (contact_phone c) = contact_phone c /\
     Contacts.phonePattern (contact_phone c) = true /\
     (forall t, In t (contact_tags c) ->
        t <> "" /\ JsString.trim t = t /\ JsString.hasChar "," t = false) /\
     contact_notes c <> Some "")
  /\ Contacts.submitContact "n1" 9 contactForm [sampleContact]
     = (Contacts.emptyContactForm,
        [mkContact "n1" "Ana Ruiz" "+44 20 7946 0958" ["press"; "VIP"] None
                   true 9;
         sampleContact]).
Proof.
  split; [|reflexivity].
  apply (submitted_contact_is_clean "n1" 9 contactForm [sampleContact]).
Defined.

(** X22: the import reads the name of a row before it trims it. A name
    made of white space only, which the form of the contact manager turns
    down, is imported as a contact with the empty name, for which the
    first-name placeholder stands for nothing. *)
Theorem import_keeps_blank_name :
  forall id isoNow row n p form prev,
    Contacts.row_name row = Some n ->
    Contacts.row_phone row = Some p ->
    JsString.truthy n = true -> JsString.trim n = "" ->
    Contacts.phonePattern (JsString.trim p) = true ->
    Contacts.cf_name form = n ->
    (exists c,
       Contacts.importRow id isoNow row = Some c /\
       contact_name c = "" /\ contact_phone c = JsString.trim p /\
       Composer.firstNameOf c = "")
    /\ snd (Contacts.submitContact id isoNow form prev) = prev.
Proof.
  intros id isoNow row n p form prev Hn Hp Ht Hb Hphone Hform. split.
  - unfold Contacts.importRow. rewrite Hn, Hp. simpl.
    rewrite Ht, Hphone. simpl. eexists. split; [reflexivity|]. simpl.
    split; [exact Hb|]. split; [reflexivity|].
    unfold Composer.firstNameOf. simpl. rewrite Hb. reflexivity.
  - unfold Contacts.submitContact. rewrite Hform, Hb. reflexivity.
Qed.

Lemma import_keeps_blank_name_witness :
  (exists c,
     Contacts.importRow "n2" 9 blankNameRow = Some c /\
     contact_name c = "" /\
     contact_phone c = JsString.trim "+44 20 7946 0958" /\
     Composer.firstNameOf c = "")
  /\ snd (Contacts.submitContact "n2" 9 blankNameForm [sampleContact])
     = [sampleContact].
Proof.
  apply (import_keeps_blank_name "n2" 9 blankNameRow "  "
           "+44 20 7946 0958" blankNameForm [sampleContact]);
    reflexivity.
Defined.

(* ================================================================== *)
(** * The template list *)
(* ================================================================== *)

Section TemplateList.
Import JsString Composer JsMap Templates.

Lemma sameTemplate_key item template :
  sameTemplate item template = true
  <-> templateKey item = templateKey template.
Proof.
  unfold sameTemplate, templateKey. rewrite andb_true_iff, !String.eqb_eq.
  split; [intros [-> ->]; reflexivity | intros H; now inversion H].
Qed.

Lemma exists_same_key template ts :
  existsb (fun item => sameTemplate item template) ts = true
  <-> In (templateKey template) (map templateKey ts).
Proof.
  rewrite existsb_exists, in_map_iff.
  split; intros (x & H1 & H2).
  - exists x. split; [now apply sameTemplate_key | exact H1].
  - exists x. split; [exact H2 | now apply sameTemplate_key].
Qed.

(** White space is all that trimming takes away. *)
Lemma hasChar_kept_trimStart c s :
  isWhiteSpace c = false -> hasChar c s = true ->
  hasChar c (trimStart s) = true.
Proof.
  intros W. induction s as [|a s IH]; simpl; [auto|].
  destruct (isWhiteSpace a) eqn:Wa; simpl; [|auto].
  destruct (Ascii.eqb a c) eqn:E; [|exact IH].
  apply Ascii.eqb_eq in E. congruence.
Qed.

Lemma hasChar_kept_trimEnd c s :
  isWhiteSpace c = false -> hasChar c s = true ->
  hasChar c (trimEnd s) = true.
Proof.
  intros W. induction s as [|a s IH]; [auto|].
  rewrite trimEnd_cons. simpl.
  destruct (Ascii.eqb a c) eqn:E; simpl.
  - intros _. apply Ascii.eqb_eq in E. subst a.
    destruct (trimEnd s); [rewrite W|]; simpl;
      now rewrite Ascii.eqb_refl.
  - intros H. specialize (IH H). destruct (trimEnd s) as [|b t].
    + discriminate.
    + change (hasChar c (String a (String b t)))
        with (Ascii.eqb a c || hasChar c (String b t)).
      rewrite IH. apply orb_true_r.
Qed.

Lemma hasChar_truthy c s : hasChar c s = true -> truthy s = true.
Proof. destruct s; [discriminate | reflexivity]. Qed.

(** The label that adding or selecting a template writes is never
    blank. *)
Lemma label_not_blank name : truthy (trim (name ++ " broadcast")) = true.
Proof.
  apply (hasChar_truthy "b"). unfold trim.
  apply hasChar_kept_trimEnd; [reflexivity|].
  apply hasChar_kept_trimStart; [reflexivity|].
  rewrite hasChar_append. apply orb_true_r.
Qed.

Lemma find_by_id id (ts : list MessageTemplate) t :
  find (fun template => String.eqb (template_id template) id) ts = Some t ->
  template_id t = id /\ In t ts.
Proof.
  intros H. apply find_some in H. destruct H as [H E].
  apply String.eqb_eq in E. auto.
Qed.

Lemma find_absent id (ts : list MessageTemplate) :
  ~ In id (map template_id ts) ->
  find (fun template => String.eqb (template_id template) id) ts = None.
Proof.
  intros H.
  destruct (find (fun template => String.eqb (template_id template) id) ts)
    as [t|] eqn:E; [|reflexivity].
  apply find_by_id in E. destruct E as [<- E]. exfalso. apply H.
  now apply in_map.
Qed.

Lemma find_unique (ts : list MessageTemplate) t :
  NoDup (map template_id ts) -> In t ts ->
  find (fun template => String.eqb (template_id template) (template_id t))
       ts = Some t.
Proof.
  induction ts as [|x ts IH]; simpl; [intros _ []|].
  intros Hn Hin. inversion Hn as [|? ? Hx Hn']; subst.
  destruct Hin as [-> | Hin].
  - now rewrite String.eqb_refl.
  - destruct (String.eqb (template_id x) (template_id t)) eqn:E.
    + apply String.eqb_eq in E. exfalso. apply Hx. rewrite E.
      now apply in_map.
    + now apply IH.
Qed.

Lemma find_other id sid (ts : list MessageTemplate) :
  sid <> id ->
  find (fun template => String.eqb (template_id template) sid)
       (filter (fun template => negb (String.eqb (template_id template) id))
               ts)
  = find (fun template => String.eqb (template_id template) sid) ts.
Proof.
  intros Hne. induction ts as [|x ts IH]; simpl; [reflexivity|].
  destruct (String.eqb (template_id x) id) eqn:E; simpl.
  - apply String.eqb_eq in E.
    destruct (String.eqb (template_id x) sid) eqn:E'; [|exact IH].
    apply String.eqb_eq in E'. congruence.
  - now rewrite IH.
Qed.

Lemma mapGet_mapSet {V} id key (value : V) m :
  mapGet id (mapSet key value m)
  = if String.eqb key id then Some value else mapGet id m.
Proof.
  unfold mapGet. induction m as [|[k v] m IH]; simpl.
  - now destruct (String.eqb key id).
  - destruct (String.eqb k key) eqn:E; simpl.
    + apply String.eqb_eq in E. subst k.
      now destruct (String.eqb key id).
    + destruct (String.eqb k id) eqn:E'; simpl.
      * apply String.eqb_eq in E'. subst k. now rewrite String.eqb_sym, E.
      * exact IH.
Qed.

Lemma find_app {A} (p : A -> bool) l1 l2 :
  find p (l1 ++ l2)
  = match find p l1 with Some x => Some x | None => find p l2 end.
Proof.
  induction l1 as [|x l1 IH]; simpl; [reflexivity|].
  now destruct (p x).
Qed.

(** [get] on the map of the templates finds the last template of the
    identifier. *)
Lemma templateLookup_last id ts :
  mapGet id (templateLookup ts)
  = find (fun template => String.eqb (template_id template) id) (rev ts).
Proof.
  unfold templateLookup.
  assert (G : forall m,
    mapGet id (fold_left
                 (fun m template => mapSet (template_id template) template m)
                 ts m)
    = match find (fun template => String.eqb (template_id template) id)
                 (rev ts) with
      | Some t => Some t
      | None => mapGet id m
      end).
  { induction ts as [|t ts IH]; intros m; simpl; [reflexivity|].
    rewrite IH, find_app, mapGet_mapSet. simpl.
    destruct (find _ (rev ts)); [reflexivity|].
    now destruct (String.eqb (template_id t) id). }
  rewrite G. now destruct (find _ (rev ts)).
Qed.

Lemma add_template_key template f :
  In (templateKey template)
     (map templateKey (templates (handleAddTemplate template f))).
Proof.
  simpl.
  destruct (existsb (fun item => sameTemplate item template) (templates f))
    eqn:E; [now apply exists_same_key | now left].
Qed.

End TemplateList.

(** X23: adding a template leaves the templates that were there as they
    were, puts the new one before them unless one of them has its name up
    to case and its body up to the white space around it, and so ends with
    a list that has a template of that name and body; a list without two
    templates alike in this way stays one. *)
Theorem add_template_keeps_templates_distinct :
  forall template f,
    let added := Templates.handleAddTemplate template f in
    (Composer.templates added = Composer.templates f
     \/ Composer.templates added = template :: Composer.templates f) /\
    In (Templates.templateKey template)
       (map Templates.templateKey (Composer.templates added)) /\
    (NoDup (map Templates.templateKey (Composer.templates f)) ->
     NoDup (map Templates.templateKey (Composer.templates added))).
Proof.
  intros template f added. subst added. simpl.
  destruct (existsb (fun item => Templates.sameTemplate item template)
                    (Composer.templates f)) eqn:E.
  - split; [now left|]. split; [now apply exists_same_key|]. auto.
  - split; [now right|]. split; [now left|].
    intros Hn. simpl. constructor; [|exact Hn].
    intros H. apply exists_same_key in H. congruence.
Qed.

Lemma add_template_keeps_templates_distinct_witness :
  (Composer.templates (Templates.handleAddTemplate retypedTemplate
                                                   twoTemplatesForm)
   = Composer.templates twoTemplatesForm
   \/ Composer.templates (Templates.handleAddTemplate retypedTemplate
                                                      twoTemplatesForm)
      = retypedTemplate :: Composer.templates twoTemplatesForm) /\
  In (Templates.templateKey retypedTemplate)
     (map Templates.templateKey
          (Composer.templates (Templates.handleAddTemplate retypedTemplate
                                                           twoTemplatesForm)))
  /\
  (NoDup (map Templates.templateKey (Composer.templates twoTemplatesForm)) ->
   NoDup (map Templates.templateKey
              (Composer.templates (Templates.handleAddTemplate
                                     retypedTemplate twoTemplatesForm)))).
Proof.
  apply (add_template_keeps_templates_distinct retypedTemplate
           twoTemplatesForm).
Defined.

(** X24: a template typed again under a new identifier is not stored, yet
    it is selected and its body becomes the message. The selection then
    names no template of the list, and a launch from this form, which the
    label written by the handler never blocks, is recorded with the
    template "custom". *)
Theorem retyped_template_launches_as_custom :
  forall template f isoNow nanoid,
    In (Templates.templateKey template)
       (map Templates.templateKey (Composer.templates f)) ->
    ~ In (template_id template) (map template_id (Composer.templates f)) ->
    JsString.truthy (JsString.trim (template_body template)) = true ->
    Composer.acknowledgedCompliance f = true ->
    Composer.filteredContacts f <> [] ->
    let added := Templates.handleAddTemplate template f in
    Composer.templates added = Composer.templates f /\
    Composer.selectedTemplateId added = Some (template_id template) /\
    Composer.selectedTemplate added = None /\
    exists broadcast entries,
      Composer.buildLaunch isoNow nanoid added = Some (broadcast, entries) /\
      b_templateId broadcast = "custom" /\
      map e_preview entries
      = map (Composer.personaliseMessage (template_body template))
            (Composer.filteredContacts f).
Proof.
  intros template f isoNow nanoid Hdup Hid Hbody Hack Haud added.
  assert (Ht : Composer.templates added = Composer.templates f).
  { subst added. simpl. apply exists_same_key in Hdup. now rewrite Hdup. }
  assert (Hsel : Composer.selectedTemplate added = None).
  { unfold Composer.selectedTemplate. rewrite Ht. subst added. simpl.
    now apply find_absent. }
  assert (Hf : Composer.filteredContacts added = Composer.filteredContacts f).
  { subst added. unfold Composer.filteredContacts, Composer.optedInContacts.
    reflexivity. }
  split; [exact Ht|]. split; [reflexivity|]. split; [exact Hsel|].
  unfold Composer.buildLaunch. rewrite Hsel, Hf.
  assert (Hl : JsString.truthy
                 (JsString.trim (Composer.broadcastLabel added)) = true)
    by apply label_not_blank.
  rewrite Hl.
  assert (Hm : JsString.truthy (JsString.trim (Composer.message added))
               = true) by exact Hbody.
  rewrite Hm.
  assert (Ha : Composer.acknowledgedCompliance added = true) by exact Hack.
  rewrite Ha. simpl.
  destruct (Composer.filteredContacts f) as [|c cs] eqn:E; [congruence|].
  cbn [List.length Nat.eqb].
  eexists; eexists. split; [reflexivity|]. split; [reflexivity|].
  rewrite <- E. apply mapIndexed_map. reflexivity.
Qed.

Lemma retyped_template_launches_as_custom_witness :
  Composer.templates (Templates.handleAddTemplate retypedTemplate
                                                  twoTemplatesForm)
  = [welcomeTemplate; farewellTemplate] /\
  Composer.selectedTemplateId
    (Templates.handleAddTemplate retypedTemplate twoTemplatesForm)
  = Some "t9" /\
  Composer.selectedTemplate
    (Templates.handleAddTemplate retypedTemplate twoTemplatesForm) = None /\
  exists broadcast entries,
    Composer.buildLaunch 3 sampleIds
      (Templates.handleAddTemplate retypedTemplate twoTemplatesForm)
    = Some (broadcast, entries) /\
    b_templateId broadcast = "custom" /\
    map e_preview entries
    = map (Composer.personaliseMessage (template_body retypedTemplate))
          (Composer.filteredContacts twoTemplatesForm).
Proof.
  apply (retyped_template_launches_as_custom retypedTemplate twoTemplatesForm
           3 sampleIds).
  - left. reflexivity.
  - simpl. intros [H | [H | []]]; discriminate.
  - reflexivity.
  - reflexivity.
  - discriminate.
Defined.

(** X25: deleting a template takes every template of that identifier off
    the list and never leaves the selection on it: the selected template
    is afterwards the one that was selected, or none when that one was
    deleted; only then is the message emptied. *)
Theorem delete_template_keeps_selection_sound :
  forall id f,
    let deleted := Templates.handleDeleteTemplate id f in
    ~ In id (map template_id (Composer.templates deleted)) /\
    Composer.selectedTemplate deleted
    = match Composer.selectedTemplate f with
      | Some t => if String.eqb (template_id t) id then None else Some t
      | None => None
      end /\
    (Composer.selectedTemplateId f = Some id ->
     Composer.selectedTemplateId deleted = None /\
     Composer.message deleted = "") /\
    (Composer.selectedTemplateId f <> Some id ->
     Composer.selectedTemplateId deleted = Composer.selectedTemplateId f /\
     Composer.message deleted = Composer.message f).
Proof.
  intros id f deleted. subst deleted.
  split; [|split; [|split]].
  - simpl. intros H. apply in_map_iff in H. destruct H as (t & Ht & Hin).
    apply filter_In in Hin. destruct Hin as [_ Hin].
    rewrite Ht, String.eqb_refl in Hin. discriminate.
  - unfold Composer.selectedTemplate, Templates.handleDeleteTemplate. simpl.
    destruct (Composer.selectedTemplateId f) as [sid|]; [|reflexivity].
    destruct (String.eqb sid id) eqn:E.
    + apply String.eqb_eq in E. subst sid.
      destruct (find _ (Composer.templates f)) as [t|] eqn:F; [|reflexivity].
      apply find_by_id in F. destruct F as [-> _].
      now rewrite String.eqb_refl.
    + apply String.eqb_neq in E. rewrite (find_other id sid _ E).
      destruct (find _ (Composer.templates f)) as [t|] eqn:F; [|reflexivity].
      apply find_by_id in F. destruct F as [<- _].
      apply String.eqb_neq in E. now rewrite E.
  - intros H. unfold Templates.handleDeleteTemplate. simpl.
    rewrite H, String.eqb_refl. auto.
  - intros H. unfold Templates.handleDeleteTemplate. simpl.
    destruct (Composer.selectedTemplateId f) as [sid|]; [|auto].
    destruct (String.eqb sid id) eqn:E; [|auto].
    apply String.eqb_eq in E. congruence.
Qed.

Lemma delete_template_keeps_selection_sound_witness :
  ~ In "t2" (map template_id
               (Composer.templates
                  (Templates.handleDeleteTemplate "t2" twoTemplatesForm))) /\
  Composer.selectedTemplate
    (Templates.handleDeleteTemplate "t2" twoTemplatesForm)
  = Some welcomeTemplate /\
  (Composer.selectedTemplateId twoTemplatesForm = Some "t2" ->
   Composer.selectedTemplateId
     (Templates.handleDeleteTemplate "t2" twoTemplatesForm) = None /\
   Composer.message (Templates.handleDeleteTemplate "t2" twoTemplatesForm)
   = "") /\
  (Composer.selectedTemplateId twoTemplatesForm <> Some "t2" ->
   Composer.selectedTemplateId
     (Templates.handleDeleteTemplate "t2" twoTemplatesForm)
   = Composer.selectedTemplateId twoTemplatesForm /\
   Composer.message (Templates.handleDeleteTemplate "t2" twoTemplatesForm)
   = Composer.message twoTemplatesForm).
Proof.
  apply (delete_template_keeps_selection_sound "t2" twoTemplatesForm).
Defined.

(** X26: when the templates have identifiers of their own, selecting one
    of them makes it the selected template of the composer and loads its
    body as the message and its name, followed by " broadcast", as the
    label. Selecting an identifier that no template has leaves message and
    label as they were and the composer without a selected template. *)
Theorem select_template_loads_it :
  forall f,
    NoDup (map template_id (Composer.templates f)) ->
    (forall t, In t (Composer.templates f) ->
       let selected := Templates.handleSelectTemplate (template_id t) f in
       Composer.selectedTemplate selected = Some t /\
       Composer.message selected = template_body t /\
       Composer.broadcastLabel selected
       = (template_name t ++ " broadcast")%string) /\
    (forall id, ~ In id (map template_id (Composer.templates f)) ->
       let selected := Templates.handleSelectTemplate id f in
       Composer.selectedTemplate selected = None /\
       Composer.message selected = Composer.message f /\
       Composer.broadcastLabel selected = Composer.broadcastLabel f).
Proof.
  intros f Hn. split.
  - intros t Hin selected. subst selected.
    unfold Templates.handleSelectTemplate, Composer.selectedTemplate. simpl.
    rewrite templateLookup_last.
    assert (Hrev : find (fun template =>
                           String.eqb (template_id template) (template_id t))
                        (rev (Composer.templates f)) = Some t).
    { apply find_unique; [|now apply in_rev in Hin].
      rewrite map_rev. now apply NoDup_rev. }
    rewrite Hrev. rewrite (find_unique _ _ Hn Hin). auto.
  - intros id Hid selected. subst selected.
    unfold Templates.handleSelectTemplate, Composer.selectedTemplate. simpl.
    rewrite templateLookup_last.
    assert (Hrev : find (fun template => String.eqb (template_id template) id)
                        (rev (Composer.templates f)) = None).
    { apply find_absent. rewrite map_rev. intros H. apply Hid.
      now apply in_rev. }
    rewrite Hrev. rewrite (find_absent _ _ Hid). auto.
Qed.

Lemma select_template_loads_it_witness :
  (forall t, In t (Composer.templates twoTemplatesForm) ->
     let selected :=
       Templates.handleSelectTemplate (template_id t) twoTemplatesForm in
     Composer.selectedTemplate selected = Some t /\
     Composer.message selected = template_body t /\
     Composer.broadcastLabel selected
     = (template_name t ++ " broadcast")%string) /\
  (forall id, ~ In id (map template_id (Composer.templates twoTemplatesForm)) ->
     let selected := Templates.handleSelectTemplate id twoTemplatesForm in
     Composer.selectedTemplate selected = None /\
     Composer.message selected = Composer.message twoTemplatesForm /\
     Composer.broadcastLabel selected
     = Composer.broadcastLabel twoTemplatesForm).
Proof.
  apply (select_template_loads_it twoTemplatesForm). simpl.
  constructor.
  - intros [H | []]. discriminate.
  - constructor; [intros [] | constructor].
Defined.

(** X27: the form of the template manager stores a template exactly when
    name and body have something other than white space and the trimmed
    body has at most 1100 characters. The template is then selected with
    its trimmed body as the message, which passes the two text guards of
    the launch, and the list has a template of its name and body.
    Otherwise the page is left as it was and the form keeps its fields
    and shows an error. *)
Theorem submitted_template_is_launchable :
  forall id isoNow form f,
    let result := Templates.submitTemplate id isoNow form f in
    if JsString.truthy (JsString.trim (Templates.tf_name form))
       && JsString.truthy (JsString.trim (Templates.tf_body form))
       && (String.length (JsString.trim (Templates.tf_body form)) <=? 1100)%nat
    then
      fst result = Templates.emptyTemplateForm /\
      Composer.selectedTemplateId (snd result) = Some id /\
      Composer.message (snd result) = JsString.trim (Templates.tf_body form) /\
      (1 <= String.length (Composer.message (snd result)) <= 1100)%nat /\
      JsString.truthy (JsString.trim (Composer.message (snd result))) = true /\
      JsString.truthy (JsString.trim (Composer.broadcastLabel (snd result)))
      = true /\
      In (JsString.toLowerCase (JsString.trim (Templates.tf_name form)),
          JsString.trim (Templates.tf_body form))
         (map Templates.templateKey (Composer.templates (snd result)))
    else
      snd result = f /\
      Templates.tf_error (fst result) <> None /\
      Templates.tf_name (fst result) = Templates.tf_name form /\
      Templates.tf_body (fst result) = Templates.tf_body form.
Proof.
  intros id isoNow form f result. subst result.
  unfold Templates.submitTemplate.
  destruct (JsString.truthy (JsString.trim (Templates.tf_name form))) eqn:Hn;
    simpl; [|repeat split; discriminate].
  destruct (JsString.truthy (JsString.trim (Templates.tf_body form))) eqn:Hb;
    simpl; [|repeat split; discriminate].
  destruct (String.length (JsString.trim (Templates.tf_body form)) <=? 1100)%nat
    eqn:Hlen.
  - apply Nat.leb_le in Hlen.
    assert (Hlt : (1100 <? String.length
                             (JsString.trim (Templates.tf_body form)))%nat
                  = false) by (apply Nat.ltb_ge; exact Hlen).
    rewrite Hlt.
    set (template := {| template_id := id;
                        template_name := JsString.trim (Templates.tf_name form);
                        template_body := JsString.trim (Templates.tf_body form);
                        template_createdAt := isoNow |}).
    split; [reflexivity|]. split; [reflexivity|]. split; [reflexivity|].
    split.
    { simpl. split; [|exact Hlen].
      rewrite truthy_length in Hb. apply negb_true_iff, Nat.eqb_neq in Hb.
      lia. }
    split; [simpl; now rewrite trim_idempotent|].
    split; [apply label_not_blank|].
    pose proof (add_template_key template f) as H.
    unfold Templates.templateKey at 1 in H. simpl template_name in H.
    simpl template_body in H. rewrite trim_idempotent in H. exact H.
  - apply Nat.leb_gt in Hlen.
    assert (Hlt : (1100 <? String.length
                             (JsString.trim (Templates.tf_body form)))%nat
                  = true) by (apply Nat.ltb_lt; exact Hlen).
    rewrite Hlt. repeat split; discriminate.
Qed.

Lemma submitted_template_is_launchable_witness :
  fst (Templates.submitTemplate "t3" 4 templateDraft twoTemplatesForm)
  = Templates.emptyTemplateForm /\
  Composer.selectedTemplateId
    (snd (Templates.submitTemplate "t3" 4 templateDraft twoTemplatesForm))
  = Some "t3" /\
  Composer.message
    (snd (Templates.submitTemplate "t3" 4 templateDraft twoTemplatesForm))
  = "See you {{firstName}}" /\
  (1 <= String.length
          (Composer.message
             (snd (Templates.submitTemplate "t3" 4 templateDraft
                                            twoTemplatesForm)))
   <= 1100)%nat /\
  JsString.truthy
    (JsString.trim
       (Composer.message
          (snd (Templates.submitTemplate "t3" 4 templateDraft
                                         twoTemplatesForm)))) = true /\
  JsString.truthy
    (JsString.trim
       (Composer.broadcastLabel
          (snd (Templates.submitTemplate "t3" 4 templateDraft
                                         twoTemplatesForm)))) = true /\
  In ("reminder", "See you {{firstName}}")
     (map Templates.templateKey
          (Composer.templates
             (snd (Templates.submitTemplate "t3" 4 templateDraft
                                            twoTemplatesForm)))).
Proof.
  apply (submitted_template_is_launchable "t3" 4 templateDraft
           twoTemplatesForm).
Defined.

(* ================================================================== *)
(** * The delivery feed *)
(* ================================================================== *)

Section Feed.
Import Page Invariant Timeline.

Lemma groupOf_pushTo key k delivery acc :
  groupOf key (pushTo k delivery acc)
  = if String.eqb k key then (groupOf key acc ++ [delivery])%list
    else groupOf key acc.
Proof.
  unfold groupOf. induction acc as [|[k' entries] acc IH]; simpl.
  - now destruct (String.eqb k key).
  - destruct (String.eqb k' k) eqn:E; simpl.
    + apply String.eqb_eq in E. subst k'.
      now destruct (String.eqb k key).
    + destruct (String.eqb k' key) eqn:E'; simpl; [|exact IH].
      apply String.eqb_eq in E'. subst k'.
      now rewrite String.eqb_sym, E.
Qed.

Lemma groupFrom_plain deliveries :
  forallb (fun entry => negb (inherited (e_broadcastId entry))) deliveries
  = true ->
  forall acc, exists grouped,
    groupFrom acc deliveries = Some grouped /\
    forall key,
      groupOf key grouped
      = (groupOf key acc
         ++ filter (fun entry => String.eqb (e_broadcastId entry) key)
                   deliveries)%list.
Proof.
  induction deliveries as [|d ds IH]; simpl; intros H acc.
  - exists acc. split; [reflexivity|]. intros key. now rewrite app_nil_r.
  - apply andb_true_iff in H. destruct H as [Hd Hds].
    apply negb_true_iff in Hd. rewrite Hd.
    destruct (IH Hds (pushTo (e_broadcastId d) d acc)) as (g & Hg & Hk).
    exists g. split; [exact Hg|]. intros key.
    rewrite Hk, groupOf_pushTo.
    destruct (String.eqb (e_broadcastId d) key);
      [now rewrite <- app_assoc | reflexivity].
Qed.

(** The entries the feed groups under a broadcast are the ones the
    aggregation effect filters for it. *)
Lemma metrics_related deliveries broadcast :
  forallb (fun entry => negb (inherited (e_broadcastId entry))) deliveries
  = true ->
  inherited (b_id broadcast) = false ->
  metrics deliveries broadcast = Some (relatedEntries deliveries broadcast).
Proof.
  intros Hd Hb. unfold metrics, groupedDeliveries.
  destruct (groupFrom_plain deliveries Hd []) as (g & -> & Hk).
  unfold metricsOf. rewrite Hb. f_equal. apply (Hk (b_id broadcast)).
Qed.

Lemma badges_partition l :
  (countStatus Delivered l + countStatus Failed l
   + List.length (filter (fun entry => hasStatus Pending entry
                                       || hasStatus Sending entry) l))%nat
  = List.length l.
Proof.
  unfold countStatus, hasStatus.
  induction l as [|e l IH]; simpl; [reflexivity|].
  destruct (e_status e); simpl; lia.
Qed.

End Feed.

(** X28: when no broadcast identifier is a name that objects inherit, the
    feed builds its groups without an error, and the deliveries it counts
    on the card of a broadcast are the deliveries of that broadcast in the
    order of the log, the same the aggregation effect counts; each of them
    is counted under exactly one of the three numbers of the card. A
    delivery under an inherited name stops the feed. *)
Theorem feed_groups_by_broadcast :
  forall deliveries broadcast,
    Timeline.inherited (b_id broadcast) = false ->
    if forallb (fun entry => negb (Timeline.inherited (e_broadcastId entry)))
               deliveries
    then
      Timeline.metrics deliveries broadcast
      = Some (Page.relatedEntries deliveries broadcast) /\
      (let '(delivered, failed, pending) :=
         Timeline.badges (Page.relatedEntries deliveries broadcast) in
       (delivered + failed + pending)%nat
       = List.length (Page.relatedEntries deliveries broadcast))
    else Timeline.metrics deliveries broadcast = None.
Proof.
  intros deliveries broadcast Hb.
  destruct (forallb _ deliveries) eqn:Hd.
  - split; [now apply metrics_related|]. apply badges_partition.
  - unfold Timeline.metrics, Timeline.groupedDeliveries.
    generalize (@nil (string * list DeliveryLogEntry)).
    induction deliveries as [|d ds IH]; intros acc; [discriminate|].
    simpl in Hd |- *.
    destruct (Timeline.inherited (e_broadcastId d)); [reflexivity|].
    simpl in Hd. apply IH. exact Hd.
Qed.

Lemma feed_groups_by_broadcast_witness :
  (Timeline.metrics (Page.deliveries (snd relaunched))
                    (mkBroadcast "b2" "" "" (TargetTag None) None 0
                                 BInProgress 0 0 0)
   = Some (Page.relatedEntries (Page.deliveries (snd relaunched))
             (mkBroadcast "b2" "" "" (TargetTag None) None 0
                          BInProgress 0 0 0)) /\
   (let '(delivered, failed, pending) :=
      Timeline.badges
        (Page.relatedEntries (Page.deliveries (snd relaunched))
           (mkBroadcast "b2" "" "" (TargetTag None) None 0
                        BInProgress 0 0 0)) in
    (delivered + failed + pending)%nat
    = List.length
        (Page.relatedEntries (Page.deliveries (snd relaunched))
           (mkBroadcast "b2" "" "" (TargetTag None) None 0
                        BInProgress 0 0 0))))
  /\ Timeline.metrics
       [mkEntry "d1" "toString" "c1" "Dana Lee" "+14155550138" None Pending
                "Hi Dana" None None None]
       (mkBroadcast "b2" "" "" (TargetTag None) None 0 BInProgress 0 0 0)
     = None.
Proof.
  split.
  - apply (feed_groups_by_broadcast (Page.deliveries (snd relaunched))
             (mkBroadcast "b2" "" "" (TargetTag None) None 0
                          BInProgress 0 0 0)).
    reflexivity.
  - apply (feed_groups_by_broadcast
             [mkEntry "d1" "toString" "c1" "Dana Lee" "+14155550138" None
                      Pending "Hi Dana" None None None]
             (mkBroadcast "b2" "" "" (TargetTag None) None 0
                          BInProgress 0 0 0)).
    reflexivity.
Defined.

(** X29: on the page as it runs, reloads with lost or outdated items
    included, the card of a broadcast is in one of two states.  Either the
    log holds none of its deliveries: the card then shows three zeros and
    the aggregation effect leaves the broadcast, counters included, as it
    is.  Or the three numbers add up to the recipients the broadcast
    records, and the delivered and failed numbers are the counters the
    aggregation effect writes into the broadcast from the same
    deliveries. *)
Theorem feed_agrees_with_counters :
  forall a broadcast,
    Page.reachable a ->
    In broadcast (Page.broadcasts (snd a)) ->
    forallb (fun entry => negb (Timeline.inherited (e_broadcastId entry)))
            (Page.deliveries (snd a)) = true ->
    Timeline.inherited (b_id broadcast) = false ->
    exists delivered failed pending,
      option_map Timeline.badges
                 (Timeline.metrics (Page.deliveries (snd a)) broadcast)
      = Some (delivered, failed, pending) /\
      ((Page.relatedEntries (Page.deliveries (snd a)) broadcast = [] /\
        (delivered, failed, pending) = (0, 0, 0)%nat /\
        Page.aggregate (Page.deliveries (snd a)) broadcast = broadcast)
       \/
       ((delivered + failed + pending)%nat = b_totalRecipients broadcast /\
        b_delivered (Page.aggregate (Page.deliveries (snd a)) broadcast)
        = delivered /\
        b_failed (Page.aggregate (Page.deliveries (snd a)) broadcast)
        = failed)).
Proof.
  intros a broadcast Hr Hin Hd Hb.
  pose proof (reachable_Inv a Hr) as HI.
  pose proof (Invariant.inv_total _ HI broadcast Hin) as Htotal.
  rewrite (metrics_related _ _ Hd Hb). simpl.
  do 3 eexists. split; [reflexivity|].
  pose proof (badges_partition
                (Page.relatedEntries (Page.deliveries (snd a)) broadcast))
    as Hp.
  unfold Page.countStatus in Hp.
  destruct (Page.relatedEntries (Page.deliveries (snd a)) broadcast)
    as [|e l] eqn:E.
  - left. split; [reflexivity|]. split; [reflexivity|].
    now apply aggregate_unrelated.
  - right. rewrite <- E in *.
    assert (Hne : Page.relatedEntries (Page.deliveries (snd a)) broadcast
                  <> []) by (rewrite E; discriminate).
    split; [rewrite Hp; now apply whole_related|].
    rewrite aggregate_fields by exact Hne. split; reflexivity.
Qed.

Lemma feed_agrees_with_counters_witness :
  (exists delivered failed pending,
     option_map Timeline.badges
       (Timeline.metrics (Page.deliveries (snd (singleRun true)))
                         (singleBroadcast true))
     = Some (delivered, failed, pending) /\
     ((Page.relatedEntries (Page.deliveries (snd (singleRun true)))
                           (singleBroadcast true) = [] /\
       (delivered, failed, pending) = (0, 0, 0)%nat /\
       Page.aggregate (Page.deliveries (snd (singleRun true)))
                      (singleBroadcast true) = singleBroadcast true)
      \/
      ((delivered + failed + pending)%nat
       = b_totalRecipients (singleBroadcast true) /\
       b_delivered (Page.aggregate (Page.deliveries (snd (singleRun true)))
                                   (singleBroadcast true))
       = delivered /\
       b_failed (Page.aggregate (Page.deliveries (snd (singleRun true)))
                                (singleBroadcast true))
       = failed)))
  /\
  (exists delivered failed pending,
     option_map Timeline.badges
       (Timeline.metrics (Page.deliveries (snd reloaded))
          (mkBroadcast "b1" "Spring news" "custom" (TargetContacts ["c1"])
                       None 5 BInProgress 1 0 0))
     = Some (delivered, failed, pending) /\
     ((Page.relatedEntries (Page.deliveries (snd reloaded))
         (mkBroadcast "b1" "Spring news" "custom" (TargetContacts ["c1"])
                      None 5 BInProgress 1 0 0) = [] /\
       (delivered, failed, pending) = (0, 0, 0)%nat /\
       Page.aggregate (Page.deliveries (snd reloaded))
         (mkBroadcast "b1" "Spring news" "custom" (TargetContacts ["c1"])
                      None 5 BInProgress 1 0 0)
       = mkBroadcast "b1" "Spring news" "custom" (TargetContacts ["c1"])
                     None 5 BInProgress 1 0 0)
      \/
      ((delivered + failed + pending)%nat = 1%nat /\
       b_delivered
         (Page.aggregate (Page.deliveries (snd reloaded))
            (mkBroadcast "b1" "Spring news" "custom"
                         (TargetContacts ["c1"]) None 5 BInProgress 1 0 0))
       = delivered /\
       b_failed
         (Page.aggregate (Page.deliveries (snd reloaded))
            (mkBroadcast "b1" "Spring news" "custom"
                         (TargetContacts ["c1"]) None 5 BInProgress 1 0 0))
       = failed))).
Proof.
  split.
  - apply (feed_agrees_with_counters (singleRun true)
             (singleBroadcast true)).
    + apply singleRun_reachable.
    + left. reflexivity.
    + reflexivity.
    + reflexivity.
  - apply (feed_agrees_with_counters reloaded
             (mkBroadcast "b1" "Spring news" "custom"
                          (TargetContacts ["c1"]) None 5 BInProgress
                          1 0 0)).
    + apply reloaded_reachable.
    + left. reflexivity.
    + reflexivity.
    + reflexivity.
Defined.

(* ================================================================== *)
(** * The tag counts of the contact manager *)
(* ================================================================== *)

Section TagCounts.
Import JsString JsMap Contacts.

Lemma mapGet_In {V} k (v : V) m : mapGet k m = Some v -> In (k, v) m.
Proof.
  unfold mapGet.
  destruct (find (fun entry => String.eqb (fst entry) k) m) as [[k' v']|]
    eqn:E; [|discriminate].
  simpl. intros H. injection H as <-. apply find_some in E.
  destruct E as [Hin E]. simpl in E. apply String.eqb_eq in E. now subst.
Qed.

Lemma In_mapGet {V} k (v : V) m :
  NoDup (map fst m) -> In (k, v) m -> mapGet k m = Some v.
Proof.
  unfold mapGet. induction m as [|[k' v'] m IH]; simpl; [intros _ []|].
  intros Hn Hin. inversion Hn as [|? ? Hk Hn']; subst.
  destruct Hin as [E | Hin].
  - injection E as -> ->. now rewrite String.eqb_refl.
  - destruct (String.eqb k' k) eqn:E.
    + apply String.eqb_eq in E. subst k'. exfalso. apply Hk.
      apply (in_map fst) in Hin. exact Hin.
    + now apply IH.
Qed.

Lemma mapSet_keys {V} k (v : V) m x :
  In x (map fst (mapSet k v m)) <-> x = k \/ In x (map fst m).
Proof.
  induction m as [|[k' v'] m IH]; simpl.
  - intuition.
  - destruct (String.eqb k' k) eqn:E; simpl.
    + apply String.eqb_eq in E. subst k'. intuition.
    + rewrite IH. intuition.
Qed.

Lemma mapSet_NoDup {V} k (v : V) m :
  NoDup (map fst m) -> NoDup (map fst (mapSet k v m)).
Proof.
  induction m as [|[k' v'] m IH]; simpl; intros Hn.
  - constructor; [intros [] | constructor].
  - inversion Hn as [|? ? Hk Hn']; subst.
    destruct (String.eqb k' k) eqn:E; simpl.
    + now constructor.
    + constructor; [|now apply IH].
      rewrite mapSet_keys. intros [-> | H]; [|now apply Hk].
      now rewrite String.eqb_refl in E.
Qed.

Lemma countTag_ok m tag : countsOk m -> countsOk (countTag m tag).
Proof.
  intros [Hn Hp]. unfold countTag. split; [now apply mapSet_NoDup|].
  intros k n Hin.
  apply In_mapGet in Hin; [|now apply mapSet_NoDup].
  rewrite mapGet_mapSet in Hin.
  destruct (String.eqb (toLowerCase tag) k).
  - injection Hin as <-. lia.
  - apply mapGet_In in Hin. now apply (Hp k).
Qed.

Lemma countTag_counted m tag k :
  counted k (countTag m tag)
  = (counted k m + if string_dec (toLowerCase tag) k then 1 else 0)%nat.
Proof.
  unfold counted, countTag. rewrite mapGet_mapSet.
  destruct (string_dec (toLowerCase tag) k) as [E | E].
  - rewrite E, String.eqb_refl. reflexivity.
  - apply String.eqb_neq in E. rewrite E. simpl. lia.
Qed.

Lemma fold_countTag tags :
  forall m, countsOk m ->
    countsOk (fold_left countTag tags m) /\
    forall k, counted k (fold_left countTag tags m)
              = (counted k m
                 + count_occ string_dec (map toLowerCase tags) k)%nat.
Proof.
  induction tags as [|tag tags IH]; simpl; intros m Hm.
  - split; [exact Hm | intros k; lia].
  - destruct (IH _ (countTag_ok m tag Hm)) as [Hok Hc].
    split; [exact Hok|]. intros k. rewrite Hc, countTag_counted.
    destruct (string_dec (toLowerCase tag) k); lia.
Qed.

Lemma fold_contacts contacts :
  forall m,
    fold_left (fun counts contact =>
                 fold_left countTag (contact_tags contact) counts)
              contacts m
    = fold_left countTag (flat_map contact_tags contacts) m.
Proof.
  induction contacts as [|c cs IH]; simpl; intros m; [reflexivity|].
  now rewrite IH, fold_left_app.
Qed.

Lemma insertByCount_In entry sorted x :
  In x (insertByCount entry sorted) <-> x = entry \/ In x sorted.
Proof.
  induction sorted as [|other rest IH]; simpl.
  - intuition.
  - destruct (snd other <=? snd entry)%nat; simpl; [intuition|].
    rewrite IH. intuition.
Qed.

Lemma sortByCount_In entries x :
  In x (sortByCount entries) <-> In x entries.
Proof.
  induction entries as [|e l IH]; simpl; [reflexivity|].
  rewrite insertByCount_In, IH. intuition.
Qed.

Lemma insertByCount_keys entry sorted :
  NoDup (map fst sorted) -> ~ In (fst entry) (map fst sorted) ->
  NoDup (map fst (insertByCount entry sorted)).
Proof.
  induction sorted as [|other rest IH]; simpl; intros Hn Hk.
  - constructor; [intros [] | constructor].
  - destruct (snd other <=? snd entry)%nat; simpl.
    + now constructor.
    + inversion Hn as [|? ? Ho Hn']; subst. constructor.
      * intros H. apply in_map_iff in H. destruct H as (x & Hx & Hin).
        apply (proj1 (insertByCount_In entry rest x)) in Hin.
        destruct Hin as [-> | Hin].
        -- apply Hk. now left.
        -- apply Ho. rewrite <- Hx. now apply in_map.
      * apply IH; [exact Hn'|]. intros H. apply Hk. now right.
Qed.

Lemma sortByCount_keys entries :
  NoDup (map fst entries) -> NoDup (map fst (sortByCount entries)).
Proof.
  induction entries as [|e l IH]; simpl; intros Hn; [constructor|].
  inversion Hn as [|? ? He Hn']; subst.
  apply insertByCount_keys; [now apply IH|].
  intros H. apply in_map_iff in H. destruct H as (x & Hx & Hin).
  apply (proj1 (sortByCount_In l x)) in Hin. apply He. rewrite <- Hx.
  now apply in_map.
Qed.

Lemma insertByCount_descending entry sorted :
  descending sorted -> descending (insertByCount entry sorted).
Proof.
  unfold descending.
  induction sorted as [|other rest IH]; simpl; intros Hs.
  - constructor; [constructor | constructor].
  - inversion Hs as [|? ? Ho Hs']; subst.
    destruct (snd other <=? snd entry)%nat eqn:E.
    + apply Nat.leb_le in E. constructor; [|exact Hs].
      constructor; [exact E|].
      rewrite Forall_forall in Ho |- *. intros x Hx.
      specialize (Ho x Hx). lia.
    + apply Nat.leb_gt in E. constructor; [|now apply IH].
      rewrite Forall_forall in Ho |- *. intros x Hx.
      apply (proj1 (insertByCount_In entry rest x)) in Hx.
      destruct Hx as [-> | Hx]; [lia | now apply Ho].
Qed.

Lemma sortByCount_descending entries : descending (sortByCount entries).
Proof.
  induction entries as [|e l IH]; simpl; [constructor|].
  now apply insertByCount_descending.
Qed.

Lemma descending_app l1 l2 x y :
  descending (l1 ++ l2) -> In x l1 -> In y l2 -> (snd y <= snd x)%nat.
Proof.
  unfold descending. induction l1 as [|a l1 IH]; simpl; [intros _ []|].
  intros Hs Hx Hy. inversion Hs as [|? ? Ha Hs']; subst.
  destruct Hx as [-> | Hx]; [|now apply IH].
  rewrite Forall_forall in Ha. apply Ha. apply in_or_app. now right.
Qed.

(** The map of the counts once every tag is counted. *)
Lemma counts_of_contacts contacts :
  let counts := fold_left countTag (flat_map contact_tags contacts) [] in
  NoDup (map fst counts) /\
  (forall k n, In (k, n) counts ->
     n = occurrences k contacts /\ (1 <= n)%nat) /\
  (forall k, (1 <= occurrences k contacts)%nat ->
     In (k, occurrences k contacts) counts).
Proof.
  intros counts.
  assert (H0 : countsOk []) by (split; [constructor | intros ? ? []]).
  destruct (fold_countTag (flat_map contact_tags contacts) [] H0)
    as [[Hn Hp] Hc].
  fold counts in Hn, Hp, Hc.
  assert (Hocc : forall k, counted k counts = occurrences k contacts)
    by (intros k; rewrite Hc; reflexivity).
  split; [exact Hn|]. split.
  - intros k n Hin. split; [|now apply (Hp k)].
    rewrite <- Hocc. unfold counted.
    now rewrite (In_mapGet _ _ _ Hn Hin).
  - intros k Hk. rewrite <- Hocc in Hk |- *. unfold counted in Hk |- *.
    destruct (mapGet k counts) as [n|] eqn:E; simpl in *; [|lia].
    now apply mapGet_In.
Qed.

End TagCounts.

(** X30: the tag counts of the contact manager show at most six tags,
    each once; the number beside a tag is the number of tags of the
    contacts, opted in or not, that are this tag up to case; and a tag of
    some contact is left out only when six are shown, none of them with a
    smaller number. *)
Theorem tag_counts_are_occurrences :
  forall contacts,
    let shown := Contacts.tagCounts contacts in
    (List.length shown <= 6)%nat /\
    NoDup (map fst shown) /\
    (forall tag n, In (tag, n) shown ->
       n = Contacts.occurrences tag contacts /\ (1 <= n)%nat) /\
    (forall tag,
       (1 <= Contacts.occurrences tag contacts)%nat ->
       ~ In tag (map fst shown) ->
       List.length shown = 6%nat /\
       forall other n, In (other, n) shown ->
         (Contacts.occurrences tag contacts <= n)%nat).
Proof.
  intros contacts shown. subst shown. unfold Contacts.tagCounts.
  rewrite fold_contacts.
  destruct (counts_of_contacts contacts) as (Hn & Hin & Hall).
  set (counts := fold_left Contacts.countTag
                           (flat_map contact_tags contacts) []) in *.
  set (sorted := Contacts.sortByCount counts).
  assert (Hsplit : sorted = (firstn 6 sorted ++ skipn 6 sorted)%list)
    by (symmetry; apply firstn_skipn).
  split; [apply firstn_le_length|].
  split.
  { pose proof (sortByCount_keys counts Hn) as Hk. fold sorted in Hk.
    rewrite Hsplit, map_app in Hk. now apply NoDup_app_remove_r in Hk. }
  split.
  { intros tag n H. apply Hin. apply sortByCount_In. fold sorted.
    rewrite Hsplit. apply in_or_app. now left. }
  intros tag Hocc Hout.
  assert (Hs : In (tag, Contacts.occurrences tag contacts) sorted)
    by (apply sortByCount_In, Hall, Hocc).
  rewrite Hsplit in Hs. apply in_app_or in Hs. destruct Hs as [Hs | Hs].
  { exfalso. apply Hout. apply (in_map fst) in Hs. exact Hs. }
  split.
  - apply firstn_length_le.
    destruct (Nat.le_gt_cases 6 (List.length sorted)) as [H | H];
      [exact H|].
    rewrite skipn_all2 in Hs by lia. destruct Hs.
  - intros other n Ho.
    pose proof (sortByCount_descending counts) as Hd. fold sorted in Hd.
    rewrite Hsplit in Hd.
    apply (descending_app _ _ (other, n)
                          (tag, Contacts.occurrences tag contacts) Hd Ho Hs).
Qed.

Lemma tag_counts_are_occurrences_witness :
  Contacts.tagCounts taggedContacts
  = [("vip", 3); ("press", 1); ("beta", 1); ("north", 1); ("south", 1);
     ("east", 1)]%nat
  /\ (1 <= Contacts.occurrences "west" taggedContacts)%nat
  /\ ~ In "west" (map fst (Contacts.tagCounts taggedContacts))
  /\ List.length (Contacts.tagCounts taggedContacts) = 6%nat
  /\ forall other n, In (other, n) (Contacts.tagCounts taggedContacts) ->
       (Contacts.occurrences "west" taggedContacts <= n)%nat.
Proof.
  assert (H1 : (1 <= Contacts.occurrences "west" taggedContacts)%nat)
    by (vm_compute; lia).
  assert (H2 : ~ In "west" (map fst (Contacts.tagCounts taggedContacts))).
  { vm_compute. intros [H | [H | [H | [H | [H | [H | []]]]]]];
      discriminate. }
  split; [reflexivity|]. split; [exact H1|]. split; [exact H2|].
  destruct (tag_counts_are_occurrences taggedContacts)
    as (_ & _ & _ & Hout).
  exact (Hout "west" H1 H2).
Defined.
